(** * dream2nix: the [package] command of the CLI (apps/cli/commands/package.py)

    A shallow embedding of the lock-file reconciliation done by
    [PackageCommand.handle]: validation of the translator's extra arguments,
    the provenance stamp, the clean-up of the dependency graph, the removal of
    cyclic dependencies with networkx, the combined-hash protocol and the final
    re-serialisation of [dream-lock.json]; and of what comes before it on the
    command line: the [--arg] options, the choice of the translator by
    [--translator], the defaults assumed without a terminal and the input
    handed to the translator.

    Python values are modelled as follows.
    - [str] is [string]; a character stands for a code point below 256, so
      the order of [String.compare] is the order Python uses for [sorted].
    - a [dict] with [str] keys is an association list in insertion order whose
      keys are pairwise different ([dict_set] keeps that invariant);
    - what [json.load] returns is a [json] value; tuples are lists there, as
      [json.dumps] renders both as arrays;
    - an exception that nobody catches, and [exit(1)], end the run: [Raise]. *)

From Stdlib Require Import List String Ascii ZArith Bool Arith Lia.
From Stdlib Require Import DecimalString DecimalZ Permutation Sorted.
Import ListNotations.
Local Open Scope string_scope.
Local Open Scope list_scope.

Set Warnings "-register-all".

(** ** Python values, dictionaries and exceptions *)

Module Py.

Inductive exn : Type :=
| SystemExit (code : Z)
| KeyError (key : string)
| IndexError
| TypeError
| NetworkXError
| NetworkXNoCycle
| JSONDecodeError
| Exception (msg : string).

(** How a piece of the program ends.  [Fuel] is not an outcome of the
    program: the two loops that are not structural ([edge_dfs] and the
    [while True] around [find_cycle]) are given a number of turns, and [Fuel]
    says that it did not suffice; [Search.find_cycle_total] and
    [Resolver.for_keys_spec] show that it always does. *)
Inductive result (A : Type) : Type :=
| Ok (a : A)
| Raise (e : exn)
| Fuel.

Arguments Ok {A} a.
Arguments Raise {A} e.
Arguments Fuel {A}.

Definition bind {A B : Type} (r : result A) (k : A -> result B) : result B :=
  match r with
  | Ok a => k a
  | Raise e => Raise e
  | Fuel => Fuel
  end.

Definition dict (V : Type) : Type := list (string * V).

Fixpoint dict_get {V : Type} (k : string) (d : dict V) : option V :=
  match d with
  | [] => None
  | (k', v) :: d' => if String.eqb k' k then Some v else dict_get k d'
  end.

(** [k in d] *)
Definition dict_has {V : Type} (k : string) (d : dict V) : bool :=
  match dict_get k d with Some _ => true | None => false end.

(** [d[k]], raising [KeyError] *)
Definition getitem {V : Type} (d : dict V) (k : string) : result V :=
  match dict_get k d with Some v => Ok v | None => Raise (KeyError k) end.

(** [d[k] = v]: an existing key keeps its place, a new one goes last *)
Fixpoint dict_set {V : Type} (k : string) (v : V) (d : dict V) : dict V :=
  match d with
  | [] => [(k, v)]
  | (k', v') :: d' =>
      if String.eqb k' k then (k, v) :: d' else (k', v') :: dict_set k v d'
  end.

(** [del d[k]] for a key that is there *)
Fixpoint dict_del {V : Type} (k : string) (d : dict V) : dict V :=
  match d with
  | [] => []
  | (k', v') :: d' =>
      if String.eqb k' k then d' else (k', v') :: dict_del k d'
  end.

Definition keys {V : Type} (d : dict V) : list string := map fst d.

(** [sorted(d.items())]: the keys of a dictionary differ, so the order of
    the keys decides. *)
Fixpoint insert_item {A : Type} (kv : string * A) (l : list (string * A))
    : list (string * A) :=
  match l with
  | [] => [kv]
  | kv' :: l' =>
      if String.leb (fst kv) (fst kv') then kv :: l else kv' :: insert_item kv l'
  end.

Definition sorted_items {A : Type} (l : list (string * A)) : list (string * A) :=
  fold_right insert_item [] l.

(** [sep.join(l)] *)
Fixpoint join (sep : string) (l : list string) : string :=
  match l with
  | [] => ""
  | [x] => x
  | x :: xs => (x ++ sep ++ join sep xs)%string
  end.

(** What [json.load] builds. *)
Inductive json : Type :=
| JNull
| JBool (b : bool)
| JInt (z : Z)
| JStr (s : string)
| JList (l : list json)
| JDict (d : list (string * json)).

(** Truth value of an object, as [not deps] and [if removed_edges:] use it. *)
Definition truthy (j : json) : bool :=
  match j with
  | JNull => false
  | JBool b => b
  | JInt z => negb (Z.eqb z 0)
  | JStr s => negb (String.eqb s "")
  | JList l => match l with [] => false | _ => true end
  | JDict d => match d with [] => false | _ => true end
  end.

End Py.

Import Py.

Declare Scope py_scope.
Notation "x <- e ;; k" := (bind e (fun x => k))
  (at level 61, e at next level, right associativity) : py_scope.
Notation "' p <- e ;; k" := (bind e (fun p => k))
  (at level 61, p pattern, e at next level, right associativity) : py_scope.
Local Open Scope py_scope.

(** ** Extra arguments of the translator (handle, lines 166-192) *)

Module ExtraArgs.

(** A value of [specified_extra_args]: the text given on the command line,
    or the boolean a flag was turned into. *)
Inductive argval : Type :=
| AStr (s : string)
| ABool (b : bool).

(** [bool(v)] *)
Definition py_bool (v : argval) : bool :=
  match v with
  | ABool b => b
  | AStr s => negb (String.eqb s "")
  end.

(** [f"{v}"] *)
Definition py_str (v : argval) : string :=
  match v with
  | AStr s => s
  | ABool true => "True"
  | ABool false => "False"
  end.

(** An entry of [translator['extraArgs']]; only [type] and [default] are read
    by the code modelled here. *)
Record extra_arg : Type := {
  arg_type : string;
  arg_default : option argval
}.

Definition lower_char (c : ascii) : ascii :=
  let n := nat_of_ascii c in
  if (65 <=? n)%nat && (n <=? 90)%nat then ascii_of_nat (n + 32) else c.

(** [s.lower()]; letters outside ASCII are left alone, which does not change
    whether the result is one of the six words tested below. *)
Fixpoint lower (s : string) : string :=
  match s with
  | EmptyString => EmptyString
  | String c s' => String (lower_char c) (lower s')
  end.

Definition in_words (s : string) (ws : list string) : bool :=
  existsb (String.eqb s) ws.

Definition yes_words : list string := ["yes"; "y"; "true"].
Definition no_words : list string := ["no"; "n"; "false"].

(** [set(specified_extra_args.keys()) - set(translator['extraArgs'].keys())];
    the set is listed here in the order of [specified_extra_args]. *)
Definition unknown_extra_args (extraArgs : dict extra_arg)
    (specified : dict string) : list string :=
  filter (fun k => negb (dict_has k extraArgs)) (keys specified).

(** What the run has done so far: the lines printed on stderr and the
    dictionary being rewritten. *)
Record st : Type := {
  stderr : list string;
  args : dict argval
}.

(** One turn of the loop "transform flags to bool". *)
Definition flag_step (extraArgs : dict extra_arg) (s : st)
    (item : string * string) : result st :=
  let '(argName, argVal) := item in
  decl <- getitem extraArgs argName ;;
  if String.eqb (arg_type decl) "flag" then
    if in_words (lower argVal) yes_words then
      Ok {| stderr := stderr s; args := dict_set argName (ABool true) (args s) |}
    else if in_words (lower argVal) no_words then
      Ok {| stderr := stderr s; args := dict_set argName (ABool false) (args s) |}
    else
      Ok {| stderr := stderr s ++
              [("Invalid value " ++ argVal ++ " for argument " ++ argName)%string];
            args := args s |}
  else Ok s.

Fixpoint flag_loop (extraArgs : dict extra_arg) (s : st)
    (items : list (string * string)) : result st :=
  match items with
  | [] => Ok s
  | it :: items' => s' <- flag_step extraArgs s it ;; flag_loop extraArgs s' items'
  end.

(** The comprehension of lines 190-192. *)
Fixpoint coerce_flags (extraArgs : dict extra_arg) (d : dict argval)
    : result (dict argval) :=
  match d with
  | [] => Ok []
  | (k, v) :: d' =>
      decl <- getitem extraArgs k ;;
      rest <- coerce_flags extraArgs d' ;;
      Ok ((k, if String.eqb (arg_type decl) "flag" then ABool (py_bool v) else v)
            :: rest)
  end.

(** Lines 166-192: the stderr lines, and either the rewritten
    [specified_extra_args] or the exit. *)
Definition check_extra_args (name : string) (extraArgs : dict extra_arg)
    (specified : dict string) : list string * result (dict argval) :=
  let unknown := unknown_extra_args extraArgs specified in
  match unknown with
  | _ :: _ =>
      ([("Invalid extra args for translator '" ++ name ++ "':  "
          ++ join ", " unknown
          ++ String (ascii_of_nat 10) "Please remove these parameters")%string],
       Raise (SystemExit 1))
  | [] =>
      match flag_loop extraArgs
              {| stderr := []; args := map (fun kv => (fst kv, AStr (snd kv))) specified |}
              specified with
      | Ok s => (stderr s, coerce_flags extraArgs (args s))
      | Raise e => ([], Raise e)
      | Fuel => ([], Fuel)
      end
  end.

End ExtraArgs.

(** ** The provenance stamp (handle, lines 265-274) *)

Module Stamp.
Import ExtraArgs.

(** The three fields of a translator that name it. *)
Record translator : Type := {
  subsystem : string;
  type : string;
  name : string
}.

(** [f"{t['subsystem']}.{t['type']}.{t['name']}"] *)
Definition translatedBy (t : translator) : string :=
  (subsystem t ++ "." ++ type t ++ "." ++ name t)%string.

Definition translatorParams (t : translator) (combined : bool)
    (specified_extra_args : dict argval) : string :=
  join " "
    (["--translator"; translatedBy t]
       ++ (if combined then ["--combined"] else [])
       ++ map (fun nv => ("--arg " ++ fst nv ++ "=" ++ py_str (snd nv))%string)
            specified_extra_args).

(** The string the specification describes: the same pieces, with the extra
    arguments taken in the sorted order of their names. *)
Definition spec_translatorParams (t : translator) (combined : bool)
    (specified_extra_args : dict argval) : string :=
  translatorParams t combined (sorted_items specified_extra_args).

End Stamp.

(** ** networkx: [DiGraph], [edge_dfs] and [find_cycle]

    The part of networkx that [handle] calls, for a directed graph and the
    default orientation, written after the library's own code
    (classes/digraph.py, algorithms/traversal/edgedfs.py,
    algorithms/cycles.py). *)

Module Nx.

(** A node is a tuple [(pname, version)]; an edge a pair of nodes. *)
Definition node : Type := (string * string)%type.
Definition edge : Type := (node * node)%type.

Definition node_eqb (a b : node) : bool :=
  String.eqb (fst a) (fst b) && String.eqb (snd a) (snd b).

Definition edge_eqb (a b : edge) : bool :=
  node_eqb (fst a) (fst b) && node_eqb (snd a) (snd b).

Definition mem_node (n : node) (l : list node) : bool := existsb (node_eqb n) l.
Definition mem_edge (e : edge) (l : list edge) : bool := existsb (edge_eqb e) l.

(** [s.remove(n)] on a set of nodes *)
Definition remove_node (n : node) (l : list node) : list node :=
  filter (fun m => negb (node_eqb m n)) l.

(** [DiGraph._succ]: every node of the graph with its successors, both in
    insertion order. *)
Definition DiGraph : Type := list (node * list node).

Definition has_node (G : DiGraph) (n : node) : bool :=
  existsb (fun p => node_eqb (fst p) n) G.

Fixpoint successors (G : DiGraph) (n : node) : list node :=
  match G with
  | [] => []
  | (m, l) :: G' => if node_eqb m n then l else successors G' n
  end.

Definition has_edge (G : DiGraph) (u v : node) : bool :=
  mem_node v (successors G u).

(** [G.edges(n)]: the out-edges of one node *)
Definition out_edges (G : DiGraph) (n : node) : list edge :=
  map (fun m => (n, m)) (successors G n).

(** [G.edges]: all edges *)
Definition all_edges (G : DiGraph) : list edge :=
  flat_map (fun p => map (fun m => (fst p, m)) (snd p)) G.

Definition add_node (G : DiGraph) (n : node) : DiGraph :=
  if has_node G n then G else G ++ [(n, [])].

Definition add_succ (G : DiGraph) (u v : node) : DiGraph :=
  map (fun p => if node_eqb (fst p) u
                then (fst p, if mem_node v (snd p) then snd p else snd p ++ [v])
                else p) G.

Definition add_edge (G : DiGraph) (u v : node) : DiGraph :=
  add_succ (add_node (add_node G u) v) u v.

(** [nx.DiGraph(edge_list)] *)
Definition from_edges (l : list edge) : DiGraph :=
  fold_left (fun G e => add_edge G (fst e) (snd e)) l [].

(** [G.remove_edge(u, v)]; networkx raises when the edge is not there. *)
Definition remove_edge (G : DiGraph) (u v : node) : result DiGraph :=
  if has_edge G u v then
    Ok (map (fun p => if node_eqb (fst p) u then (fst p, remove_node v (snd p)) else p) G)
  else Raise NetworkXError.

(** *** edge_dfs

    The generator's local state.  [edges] maps a visited node to what is left
    of its iterator over [G.edges(node)]; the stack has its top first. *)
Record dfs_state : Type := {
  stack : list node;
  visited_edges : list edge;
  visited_nodes : list node;
  edges : list (node * list edge)
}.

Fixpoint iter_get (its : list (node * list edge)) (n : node) : list edge :=
  match its with
  | [] => []
  | (m, it) :: its' => if node_eqb m n then it else iter_get its' n
  end.

Definition iter_set (its : list (node * list edge)) (n : node) (it : list edge)
    : list (node * list edge) :=
  (n, it) :: its.

(** [next(edges[current_node])], again while the edge drawn was returned
    before: the first edge not yet visited and the rest of the iterator. *)
Fixpoint draw (visited : list edge) (it : list edge) : option (edge * list edge) :=
  match it with
  | [] => None
  | e :: it' => if mem_edge e visited then draw visited it' else Some (e, it')
  end.

(** Runs the generator up to its next [yield]: [None] is [StopIteration]. *)
Fixpoint dfs_next (G : DiGraph) (stk : list node) (ve : list edge)
    (vn : list node) (its : list (node * list edge))
    : option (edge * dfs_state) :=
  match stk with
  | [] => None
  | current_node :: rest =>
      let fresh := negb (mem_node current_node vn) in
      let its1 := if fresh then iter_set its current_node (out_edges G current_node)
                  else its in
      let vn1 := if fresh then current_node :: vn else vn in
      match draw ve (iter_get its1 current_node) with
      | Some (e, it') =>
          Some (e, {| stack := snd e :: current_node :: rest;
                      visited_edges := e :: ve;
                      visited_nodes := vn1;
                      edges := iter_set its1 current_node it' |})
      | None => dfs_next G rest ve vn1 (iter_set its1 current_node [])
      end
  end.

Definition edge_dfs_start (source : node) : dfs_state :=
  {| stack := [source]; visited_edges := []; visited_nodes := []; edges := [] |}.

(** *** find_cycle

    The locals of the loop over one start node.  The Python list [edges] is
    kept last element first, so that [edges.pop()] takes the head. *)
Record fc_state : Type := {
  fc_edges : list edge;
  seen : list node;
  active_nodes : list node;
  previous_head : option node
}.

(** The inner [while True] that pops the active path after a backtrack. *)
Fixpoint backtrack (tail : node) (es : list edge) (active : list node)
    : list edge * list node :=
  match es with
  | [] => ([], [tail])
  | popped_edge :: es' =>
      let active' := remove_node (snd popped_edge) active in
      match es' with
      | last :: _ =>
          if node_eqb tail (snd last) then (es', active')
          else backtrack tail es' active'
      | [] => backtrack tail es' active'
      end
  end.

(** How the loop over the generator ends: by its [break], with [cycle] and
    [final_node] set, or with the generator. *)
Inductive search : Type :=
| Found (cycle : list edge) (final_node : node)
| Exhausted
| OutOfFuel.

(** [for edge in nx.edge_dfs(G, start_node, orientation)]; [explored] is
    empty all along, as there is one start node. *)
Fixpoint fc_loop (fuel : nat) (G : DiGraph) (d : dfs_state) (c : fc_state)
    : search :=
  match fuel with
  | O => OutOfFuel
  | S fuel' =>
      match dfs_next G (stack d) (visited_edges d) (visited_nodes d) (edges d) with
      | None => Exhausted
      | Some (e, d') =>
          let tail := fst e in
          let head := snd e in
          let '(es, active) :=
            match previous_head c with
            | Some ph =>
                if negb (node_eqb tail ph)
                then backtrack tail (fc_edges c) (active_nodes c)
                else (fc_edges c, active_nodes c)
            | None => (fc_edges c, active_nodes c)
            end in
          let es' := e :: es in
          if mem_node head active then Found (rev es') head
          else fc_loop fuel' G d'
                 {| fc_edges := es'; seen := head :: seen c;
                    active_nodes := head :: active; previous_head := Some head |}
      end
  end.

(** [for i, edge in enumerate(cycle): if tail == final_node: break] and then
    [cycle[i:]]; without a [break], [i] stays on the last index. *)
Fixpoint from_final (final_node : node) (cycle : list edge) : list edge :=
  match cycle with
  | [] => []
  | e :: rest =>
      if node_eqb (fst e) final_node then cycle
      else match rest with
           | [] => [e]
           | _ :: _ => from_final final_node rest
           end
  end.

(** The loop over the start nodes, for a tuple [source].  A [source] that is
    no node of [G] is read by [nbunch_iter] as a sequence of nodes; its
    members are strings, never nodes, so there is no start node at all.  The
    fuel is one more than the number of edges, each of which is yielded at
    most once. *)
Definition find_cycle_search (G : DiGraph) (source : node) : search :=
  if has_node G source then
    fc_loop (S (List.length (all_edges G))) G (edge_dfs_start source)
      {| fc_edges := []; seen := [source]; active_nodes := [source];
         previous_head := None |}
  else Exhausted.

(** [nx.find_cycle(G, source)] *)
Definition find_cycle (G : DiGraph) (source : node) : result (list edge) :=
  match find_cycle_search G source with
  | Found cycle final_node => Ok (from_final final_node cycle)
  | Exhausted => Raise NetworkXNoCycle
  | OutOfFuel => Fuel
  end.

End Nx.

(** ** Cleaning the dependency graph and removing cycles (handle, lines 291-335) *)

Module Cycles.
Import Nx.

(** [lock['_generic']['dependencies']] read as the lock schema has it:
    package name, then version, then the list of dependencies, each a pair
    [[name, version]]. *)
Definition depGraph : Type := dict (dict (list node)).

(** The removal ledger, [lock['cyclicDependencies']]. *)
Definition ledger : Type := dict (dict (list node)).

(** The edges added to the set [edges], in the order of the three loops. *)
Definition declared_edges (dg : depGraph) : list edge :=
  flat_map (fun pv =>
    flat_map (fun vd => map (fun dep => ((fst pv, fst vd), dep)) (snd vd)) (snd pv))
    dg.

(** The keys of the loop of lines 309-311. *)
Definition graph_keys (dg : depGraph) : list node :=
  flat_map (fun pv => map (fun vd => (fst pv, fst vd)) (snd pv)) dg.

(** Python's order on tuples of strings. *)
Definition node_compare (a b : node) : comparison :=
  match String.compare (fst a) (fst b) with
  | Eq => String.compare (snd a) (snd b)
  | c => c
  end.

Definition edge_compare (a b : edge) : comparison :=
  match node_compare (fst a) (fst b) with
  | Eq => node_compare (snd a) (snd b)
  | c => c
  end.

(** [sorted(list(edges))] of a set: each edge once, in increasing order. *)
Fixpoint insert_edge (e : edge) (l : list edge) : list edge :=
  match l with
  | [] => [e]
  | e' :: l' =>
      match edge_compare e e' with
      | Lt => e :: l
      | Eq => l
      | Gt => e' :: insert_edge e l'
      end
  end.

Definition sorted_edges (l : list edge) : list edge :=
  fold_left (fun acc e => insert_edge e acc) l [].

(** [G = nx.DiGraph(sorted(list(edges)))] *)
Definition build_graph (dg : depGraph) : DiGraph :=
  from_edges (sorted_edges (declared_edges dg)).

(** [cycle[-1]] *)
Fixpoint last_edge (cycle : list edge) : result edge :=
  match cycle with
  | [] => Raise IndexError
  | [e] => Ok e
  | _ :: rest => last_edge rest
  end.

(** The [while True] of lines 313-319 inside its [try]: it ends when
    [find_cycle] raises [NetworkXNoCycle]. *)
Fixpoint while_cycle (fuel : nat) (G : DiGraph) (key : node)
    (removed_edges : list edge) : result (DiGraph * list edge) :=
  match fuel with
  | O => Fuel
  | S fuel' =>
      match find_cycle G key with
      | Raise NetworkXNoCycle => Ok (G, removed_edges)
      | Raise e => Raise e
      | Fuel => Fuel
      | Ok cycle =>
          e <- last_edge cycle ;;
          let '(node_from, node_to) := e in
          G' <- remove_edge G node_from node_to ;;
          while_cycle fuel' G' key (removed_edges ++ [(node_from, node_to)])
      end
  end.

(** The two [for] loops of lines 309-321. *)
Fixpoint for_keys (G : DiGraph) (ks : list node) (removed_edges : list edge)
    : result (DiGraph * list edge) :=
  match ks with
  | [] => Ok (G, removed_edges)
  | key :: ks' =>
      ' (G', removed') <- while_cycle (S (List.length (all_edges G))) G key removed_edges ;;
      for_keys G' ks' removed'
  end.

(** Lines 300-321: the live graph at the end and [removed_edges]. *)
Definition remove_cycles (dg : depGraph) : result (DiGraph * list edge) :=
  for_keys (build_graph dg) (graph_keys dg) [].

(** One turn of the loop of lines 325-334, on [lock['cyclicDependencies']]. *)
Definition record_removed (cd : ledger) (e : edge) : ledger :=
  let '((n_name, n_ver), removed) := e in
  let cd1 := if dict_has n_name cd then cd else dict_set n_name [] cd in
  let inner := match dict_get n_name cd1 with Some d => d | None => [] end in
  let inner1 := if dict_has n_ver inner then inner else dict_set n_ver [] inner in
  let l := match dict_get n_ver inner1 with Some l => l | None => [] end in
  dict_set n_name (dict_set n_ver (l ++ [removed]) inner1) cd1.

Definition cyclicDependencies (removed_edges : list edge) : ledger :=
  fold_left record_removed removed_edges [].

(** *** On the lock itself *)

Definition encode_node (n : node) : json := JList [JStr (fst n); JStr (snd n)].

Definition encode_deps (dg : dict (dict (list node))) : json :=
  JDict (map (fun pv =>
    (fst pv, JDict (map (fun vd => (fst vd, JList (map encode_node (snd vd))))
                      (snd pv)))) dg).

(** [tuple(dep)] for a dependency of the lock schema; other shapes are not
    modelled and end the run here. *)
Definition decode_node (j : json) : result node :=
  match j with
  | JList [JStr n; JStr v] => Ok (n, v)
  | _ => Raise TypeError
  end.

Fixpoint decode_list {A B : Type} (f : A -> result B) (l : list A) : result (list B) :=
  match l with
  | [] => Ok []
  | x :: l' => y <- f x ;; ys <- decode_list f l' ;; Ok (y :: ys)
  end.

Definition decode_versions (j : json) : result (dict (list node)) :=
  match j with
  | JDict d =>
      decode_list (fun vd =>
        match snd vd with
        | JList deps => l <- decode_list decode_node deps ;; Ok (fst vd, l)
        | _ => Raise TypeError
        end) d
  | _ => Raise TypeError
  end.

Definition decode_deps (j : json) : result depGraph :=
  match j with
  | JDict d =>
      decode_list (fun pv => vs <- decode_versions (snd pv) ;; Ok (fst pv, vs)) d
  | _ => Raise TypeError
  end.

(** [x[k]] on an object read from JSON *)
Definition jget (j : json) (k : string) : result json :=
  match j with
  | JDict d => getitem d k
  | _ => Raise TypeError
  end.

(** [k in x] *)
Definition jhas (j : json) (k : string) : result bool :=
  match j with
  | JDict d => Ok (dict_has k d)
  | JList l => Ok (existsb (fun x => match x with JStr s => String.eqb s k | _ => false end) l)
  | _ => Raise TypeError
  end.

(** [x[k] = v] *)
Definition jset (j : json) (k : string) (v : json) : result json :=
  match j with
  | JDict d => Ok (JDict (dict_set k v d))
  | _ => Raise TypeError
  end.

(** Lines 296-298: [for pname, deps in depGraph.copy().items()]. *)
Definition remove_empty (depGraph : dict json) : dict json :=
  fold_left (fun d kv => if truthy (snd kv) then d else dict_del (fst kv) d)
    depGraph depGraph.

(** Lines 293-335.  [depGraph] is the very object stored in the lock, so
    what the clean-up deletes is deleted from [lock['_generic']]. *)
Definition clean_and_resolve (lock : json) : result json :=
  generic <- jget lock "_generic" ;;
  has <- jhas generic "dependencies" ;;
  if has then
    depGraph <- jget generic "dependencies" ;;
    match depGraph with
    | JDict d =>
        let d' := remove_empty d in
        generic' <- jset generic "dependencies" (JDict d') ;;
        lock1 <- jset lock "_generic" generic' ;;
        dg <- decode_deps (JDict d') ;;
        ' (G, removed_edges) <- remove_cycles dg ;;
        jset lock1 "cyclicDependencies" (encode_deps (cyclicDependencies removed_edges))
    | _ => Raise TypeError
    end
  else Ok lock.

End Cycles.

(** ** json: [dumps] and [loads]

    The two functions of Python's [json] that [handle] calls, for the values
    of type [json]: [dumps] with [indent=2] (the item separator is then a
    comma and the key separator a colon and a space) and the default
    [ensure_ascii=True], with or without [sort_keys]; and [loads].  A text is
    a list of characters; floats are not modelled. *)

Module Json.

Definition text : Type := list ascii.

Definition chars (s : string) : text := list_ascii_of_string s.

Definition newline : ascii := ascii_of_nat 10.
Definition quote : ascii := ascii_of_nat 34.
Definition backslash : ascii := ascii_of_nat 92.

(** *** Encoding *)

Definition hex_digit (n : nat) : ascii :=
  if (n <? 10)%nat then ascii_of_nat (48 + n) else ascii_of_nat (87 + n).

(** [ESCAPE_DCT], and the [\uXXXX] form for what is not printable ASCII *)
Definition escape_char (c : ascii) : text :=
  let n := nat_of_ascii c in
  if (n =? 34)%nat then [backslash; quote]
  else if (n =? 92)%nat then [backslash; backslash]
  else if (n =? 10)%nat then backslash :: chars "n"
  else if (n =? 13)%nat then backslash :: chars "r"
  else if (n =? 9)%nat then backslash :: chars "t"
  else if (n =? 8)%nat then backslash :: chars "b"
  else if (n =? 12)%nat then backslash :: chars "f"
  else if (32 <=? n)%nat && (n <=? 126)%nat then [c]
  else backslash :: chars "u00" ++ [hex_digit (n / 16); hex_digit (n mod 16)].

(** [encode_basestring_ascii] *)
Definition encode_str (s : string) : text :=
  quote :: flat_map escape_char (list_ascii_of_string s) ++ [quote].

(** [int.__repr__] *)
Definition int_str (z : Z) : text :=
  chars (DecimalString.NilZero.string_of_int (Z.to_int z)).

(** ['\n' + _indent * _current_indent_level] with [_indent = '  '] *)
Definition newline_indent (level : nat) : text :=
  newline :: repeat " "%char (2 * level).

(** The chunks of a non-empty container between its brackets. *)
Definition body (level : nat) (items : list text) : text :=
  match items with
  | [] => []
  | first :: others =>
      newline_indent (S level) ++ first
        ++ flat_map (fun item => chars "," ++ newline_indent (S level) ++ item) others
        ++ newline_indent level
  end.

(** [_iterencode], joined *)
Fixpoint encode (sort_keys : bool) (level : nat) (o : json) : text :=
  match o with
  | JNull => chars "null"
  | JBool true => chars "true"
  | JBool false => chars "false"
  | JInt z => int_str z
  | JStr s => encode_str s
  | JList [] => chars "[]"
  | JList l => chars "[" ++ body level (map (encode sort_keys (S level)) l) ++ chars "]"
  | JDict [] => chars "{}"
  | JDict d =>
      let rendered :=
        map (fun kv => (fst kv, encode sort_keys (S level) (snd kv))) d in
      let items := if sort_keys then sorted_items rendered else rendered in
      chars "{"
        ++ body level (map (fun kt => encode_str (fst kt) ++ chars ": " ++ snd kt) items)
        ++ chars "}"
  end.

(** [json.dumps(o, indent=2, sort_keys=...)] *)
Definition dumps (sort_keys : bool) (o : json) : text := encode sort_keys 0 o.

(** *** [str.replace]

    [s.replace(old, new)] for a non-empty [old]: the occurrences are taken
    from the left and do not overlap.  [skip] counts the characters of an
    occurrence still to be passed over. *)
Fixpoint starts_with (old s : text) : bool :=
  match old, s with
  | [], _ => true
  | _ :: _, [] => false
  | a :: old', b :: s' => Ascii.eqb a b && starts_with old' s'
  end.

Fixpoint replace_from (old new : text) (skip : nat) (s : text) : text :=
  match s with
  | [] => []
  | c :: s' =>
      match skip with
      | S k => replace_from old new k s'
      | O =>
          if starts_with old s
          then new ++ replace_from old new (List.length old - 1) s'
          else c :: replace_from old new 0 s'
      end
  end.

Definition replace (old new s : text) : text := replace_from old new 0 s.

(** The three replacements of lines 372-375. *)
Definition compact (lockStr : text) : text :=
  replace (chars "," ++ newline :: repeat " "%char 10) (chars ", ")
    (replace (quote :: newline :: repeat " "%char 8 ++ chars "]") (quote :: chars " ]")
       (replace (chars "[" ++ newline :: repeat " "%char 10) (chars "[ ") lockStr)).

(** *** Decoding: the scanner *)

Inductive token : Type :=
| TLBrace | TRBrace | TLBrack | TRBrack | TColon | TComma
| TStr (s : string)
| TWord (w : text).

(** Where the scanner is: between two tokens, inside a number or a literal,
    inside a string, after a backslash, or inside the four digits of [\u]. *)
Inductive lstate : Type :=
| Between
| InWord (w : text)
| InStr (acc : text)
| InEsc (acc : text)
| InHex (acc : text) (digits : list nat).

Definition is_space (c : ascii) : bool :=
  let n := nat_of_ascii c in
  (n =? 32)%nat || (n =? 10)%nat || (n =? 13)%nat || (n =? 9)%nat.

Definition punct (c : ascii) : option token :=
  let n := nat_of_ascii c in
  if (n =? 123)%nat then Some TLBrace
  else if (n =? 125)%nat then Some TRBrace
  else if (n =? 91)%nat then Some TLBrack
  else if (n =? 93)%nat then Some TRBrack
  else if (n =? 58)%nat then Some TColon
  else if (n =? 44)%nat then Some TComma
  else None.

Definition hex_value (c : ascii) : option nat :=
  let n := nat_of_ascii c in
  if (48 <=? n)%nat && (n <=? 57)%nat then Some (n - 48)
  else if (97 <=? n)%nat && (n <=? 102)%nat then Some (n - 87)
  else if (65 <=? n)%nat && (n <=? 70)%nat then Some (n - 55)
  else None.

(** The character after a backslash. *)
Definition unescape (c : ascii) : option ascii :=
  let n := nat_of_ascii c in
  if (n =? 34)%nat then Some quote
  else if (n =? 92)%nat then Some backslash
  else if (n =? 47)%nat then Some "/"%char
  else if (n =? 98)%nat then Some (ascii_of_nat 8)
  else if (n =? 102)%nat then Some (ascii_of_nat 12)
  else if (n =? 110)%nat then Some (ascii_of_nat 10)
  else if (n =? 114)%nat then Some (ascii_of_nat 13)
  else if (n =? 116)%nat then Some (ascii_of_nat 9)
  else None.

Definition word_end (st : lstate) : list token :=
  match st with
  | InWord w => [TWord w]
  | _ => []
  end.

(** One character: the next state and the tokens now complete; [None] is a
    [JSONDecodeError].  A code point of 256 or more is outside the model. *)
Definition step (st : lstate) (c : ascii) : option (lstate * list token) :=
  match st with
  | Between | InWord _ =>
      if is_space c then Some (Between, word_end st)
      else match punct c with
           | Some t => Some (Between, word_end st ++ [t])
           | None =>
               if Ascii.eqb c quote then Some (InStr [], word_end st)
               else match st with
                    | InWord w => Some (InWord (w ++ [c]), [])
                    | _ => Some (InWord [c], [])
                    end
           end
  | InStr acc =>
      if Ascii.eqb c quote then Some (Between, [TStr (string_of_list_ascii acc)])
      else if Ascii.eqb c backslash then Some (InEsc acc, [])
      else if (nat_of_ascii c <? 32)%nat then None
      else Some (InStr (acc ++ [c]), [])
  | InEsc acc =>
      if Ascii.eqb c "u"%char then Some (InHex acc [], [])
      else match unescape c with
           | Some c' => Some (InStr (acc ++ [c']), [])
           | None => None
           end
  | InHex acc digits =>
      match hex_value c with
      | None => None
      | Some d =>
          match digits with
          | [d1; d2; d3] =>
              let n := ((d1 * 16 + d2) * 16 + d3) * 16 + d in
              if (n <? 256)%nat then Some (InStr (acc ++ [ascii_of_nat n]), [])
              else None
          | _ => Some (InHex acc (digits ++ [d]), [])
          end
      end
  end.

Fixpoint run (st : lstate) (s : text) : option (lstate * list token) :=
  match s with
  | [] => Some (st, [])
  | c :: s' =>
      match step st c with
      | None => None
      | Some (st1, ts1) =>
          match run st1 s' with
          | None => None
          | Some (st2, ts2) => Some (st2, ts1 ++ ts2)
          end
      end
  end.

(** The end of the text. *)
Definition finish (st : lstate) : option (list token) :=
  match st with
  | Between => Some []
  | InWord w => Some [TWord w]
  | _ => None
  end.

Definition scan (s : text) : option (list token) :=
  match run Between s with
  | None => None
  | Some (st, ts) =>
      match finish st with
      | None => None
      | Some ts' => Some (ts ++ ts')
      end
  end.

(** *** Decoding: the values *)

Definition text_eqb (a b : text) : bool :=
  String.eqb (string_of_list_ascii a) (string_of_list_ascii b).

(** A literal or an integer. *)
Definition word_value (w : text) : option json :=
  if text_eqb w (chars "null") then Some JNull
  else if text_eqb w (chars "true") then Some (JBool true)
  else if text_eqb w (chars "false") then Some (JBool false)
  else match DecimalString.NilZero.int_of_string (string_of_list_ascii w) with
       | Some d => Some (JInt (Z.of_int d))
       | None => None
       end.

(** [dict(pairs)]: a key met again keeps its place and takes the new value. *)
Definition dict_of_pairs (pairs : list (string * json)) : list (string * json) :=
  fold_left (fun d kv => dict_set (fst kv) (snd kv) d) pairs [].

(** [scan_once], [JSONArray] and [JSONObject] on the tokens; the fuel bounds
    the nesting and the length, and the number of tokens is enough. *)
Fixpoint parse_value (fuel : nat) (ts : list token) : option (json * list token) :=
  match fuel with
  | O => None
  | S fuel' =>
      match ts with
      | TStr s :: r => Some (JStr s, r)
      | TWord w :: r =>
          match word_value w with Some v => Some (v, r) | None => None end
      | TLBrack :: TRBrack :: r => Some (JList [], r)
      | TLBrack :: r =>
          match parse_elements fuel' r with
          | Some (l, r') => Some (JList l, r')
          | None => None
          end
      | TLBrace :: TRBrace :: r => Some (JDict [], r)
      | TLBrace :: r =>
          match parse_members fuel' r with
          | Some (pairs, r') => Some (JDict (dict_of_pairs pairs), r')
          | None => None
          end
      | _ => None
      end
  end
with parse_elements (fuel : nat) (ts : list token)
    : option (list json * list token) :=
  match fuel with
  | O => None
  | S fuel' =>
      match parse_value fuel' ts with
      | Some (v, TComma :: r) =>
          match parse_elements fuel' r with
          | Some (l, r') => Some (v :: l, r')
          | None => None
          end
      | Some (v, TRBrack :: r) => Some ([v], r)
      | _ => None
      end
  end
with parse_members (fuel : nat) (ts : list token)
    : option (list (string * json) * list token) :=
  match fuel with
  | O => None
  | S fuel' =>
      match ts with
      | TStr k :: TColon :: r =>
          match parse_value fuel' r with
          | Some (v, TComma :: r') =>
              match parse_members fuel' r' with
              | Some (l, r'') => Some ((k, v) :: l, r'')
              | None => None
              end
          | Some (v, TRBrace :: r') => Some ([(k, v)], r')
          | _ => None
          end
      | _ => None
      end
  end.

(** [json.loads(s)]; the parser runs short of fuel on no text that is a
    JSON document, so [None] is an error of the decoder. *)
Definition loads (s : text) : result json :=
  match scan s with
  | None => Raise JSONDecodeError
  | Some ts =>
      match parse_value (S (List.length ts)) ts with
      | Some (v, []) => Ok v
      | _ => Raise JSONDecodeError
      end
  end.

End Json.

(** ** From the translator's file to the final lock (handle, lines 256-377) *)

Module Reconcile.
Import ExtraArgs Stamp Cycles Json.

Definition as_str (j : json) : result string :=
  match j with
  | JStr s => Ok s
  | _ => Raise TypeError
  end.

(** Lines 265-274. *)
Definition stamp (t : translator) (combined : bool)
    (specified_extra_args : dict argval) (lock : json) : result json :=
  generic <- jget lock "_generic" ;;
  generic1 <- jset generic "translatedBy" (JStr (translatedBy t)) ;;
  generic2 <- jset generic1 "translatorParams"
                (JStr (translatorParams t combined specified_extra_args)) ;;
  jset lock "_generic" generic2.

(** Lines 276-289; package names and versions are strings. *)
Definition add_main_source (sourceSpec : dict json) (lock : json) : result json :=
  generic <- jget lock "_generic" ;;
  n <- jget generic "mainPackageName" ;;
  mainPackageName <- as_str n ;;
  v <- jget generic "mainPackageVersion" ;;
  mainPackageVersion <- as_str v ;;
  let mainSource :=
    match sourceSpec with
    | [] => [("type", JStr "unknown")]
    | _ :: _ => sourceSpec
    end in
  sources <- jget lock "sources" ;;
  known <- jhas sources mainPackageName ;;
  sources1 <-
    (if known then
       versions <- jget sources mainPackageName ;;
       versions1 <- jset versions mainPackageVersion (JDict mainSource) ;;
       jset sources mainPackageName versions1
     else
       jset sources mainPackageName (JDict [(mainPackageVersion, JDict mainSource)])) ;;
  jset lock "sources" sources1.

(** Modelled from the spec: the part of [strip_hashes_from_lock] for one
    source; a field [hash] gets the empty placeholder. *)
Definition strip_source (source : json) : json :=
  match source with
  | JDict d =>
      JDict (map (fun kv => (fst kv, if String.eqb (fst kv) "hash"
                                     then JStr "" else snd kv)) d)
  | _ => source
  end.

(** Modelled from the spec: the same for the versions of one package. *)
Definition strip_versions (versions : json) : json :=
  match versions with
  | JDict d => JDict (map (fun kv => (fst kv, strip_source (snd kv))) d)
  | _ => versions
  end.

(** Modelled from the spec: the same for [lock['sources']]. *)
Definition strip_sources (sources : json) : json :=
  match sources with
  | JDict d => JDict (map (fun kv => (fst kv, strip_versions (snd kv))) d)
  | _ => sources
  end.

(** Modelled from the spec: [strip_hashes_from_lock] of the module [utils],
    which is not among the sources.  The specification (4.4, step 1): "Strip
    every per-source hash field from sources, replacing values with an empty
    placeholder". *)
Definition strip_hashes_from_lock (lock : json) : json :=
  match lock with
  | JDict d =>
      JDict (map (fun kv => (fst kv, if String.eqb (fst kv) "sources"
                                     then strip_sources (snd kv) else snd kv)) d)
  | _ => lock
  end.

(** [re.search(r"FOD_PATH=(.*=)", log)]: the first place where [FOD_PATH=]
    is followed, on the same line, by a text with an equal sign; the group
    runs to the last equal sign of that line. *)
Fixpoint line (s : text) : text :=
  match s with
  | [] => []
  | c :: s' => if Ascii.eqb c newline then [] else c :: line s'
  end.

Fixpoint upto_last_eq (s : text) : option text :=
  match s with
  | [] => None
  | c :: s' =>
      match upto_last_eq s' with
      | Some g => Some (c :: g)
      | None => if Ascii.eqb c "="%char then Some [c] else None
      end
  end.

Fixpoint search_fod (log : text) : option text :=
  match log with
  | [] => None
  | _ :: log' =>
      if starts_with (chars "FOD_PATH=") log then
        match upto_last_eq (line (skipn 9 log)) with
        | Some g => Some g
        | None => search_fod log'
        end
      else search_fod log'
  end.

Section Run.

(** What is outside the program: the fetcher build, as the text of its
    stderr for the lock file it is given, and [checkLockJSON] of [utils]. *)
Variable nix_build_stderr : text -> text.
Variable checkLockJSON : json -> result unit.

(** Lines 338-367.  The first component is what the stage has written to
    [outputDreamLock], if it came that far. *)
Definition combined_hash (lock : json) : option text * result json :=
  let lock1 := strip_hashes_from_lock lock in
  match (generic <- jget lock1 "_generic" ;;
         generic1 <- jset generic "sourcesCombinedHash" (JStr "") ;;
         jset lock1 "_generic" generic1) with
  | Ok lock2 =>
      let written := dumps false lock2 in
      match search_fod (nix_build_stderr written) with
      | None => (Some written, Raise (Exception "Could not find FOD hash in FOD log"))
      | Some hash =>
          (Some written,
           generic <- jget lock2 "_generic" ;;
           generic1 <- jset generic "sourcesCombinedHash"
                         (JStr (string_of_list_ascii hash)) ;;
           jset lock2 "_generic" generic1)
      end
  | Raise e => (None, Raise e)
  | Fuel => (None, Fuel)
  end.

(** Lines 256-377, from the file the translator left at [outputDreamLock]
    ([None]: no file) to the file found there when [handle] returns or
    raises, with the lock or the exception. *)
Definition reconcile (t : translator) (combined : bool)
    (specified_extra_args : dict argval) (sourceSpec : dict json)
    (outputDreamLock : option text) : option text * result json :=
  match outputDreamLock with
  | None => (None, Raise (Exception "Translator failed to create dream-lock.json"))
  | Some produced =>
      match (lock <- loads produced ;;
             lock1 <- stamp t combined specified_extra_args lock ;;
             lock2 <- add_main_source sourceSpec lock1 ;;
             clean_and_resolve lock2) with
      | Ok lock =>
          let '(file, r) :=
            if combined then
              match combined_hash lock with
              | (Some written, r) => (Some written, r)
              | (None, r) => (Some produced, r)
              end
            else (Some produced, Ok lock) in
          match r with
          | Ok lock' =>
              match checkLockJSON lock' with
              | Ok _ => (Some (compact (dumps true lock')), Ok lock')
              | Raise e => (file, Raise e)
              | Fuel => (file, Fuel)
              end
          | Raise e => (file, Raise e)
          | Fuel => (file, Fuel)
          end
      | Raise e => (Some produced, Raise e)
      | Fuel => (Some produced, Fuel)
      end
  end.

End Run.

End Reconcile.

(** ** The [--arg] options (handle, lines 55-61) *)

Module ArgParse.

(** [s.split(sep)] for a separator of one character: the pieces between
    the separators, at least one piece. *)
Fixpoint split (sep : ascii) (s : string) : list string :=
  match s with
  | EmptyString => [EmptyString]
  | String c s' =>
      if Ascii.eqb c sep then EmptyString :: split sep s'
      else match split sep s' with
           | w :: ws => String c w :: ws
           | [] => [String c EmptyString]
           end
  end.

(** The dictionary comprehension [{arg[0]: arg[1] for arg in ...}], one
    option after the other; [arg[1]] raises [IndexError] when the option has
    no equal sign, and an option that repeats a name replaces its value. *)
Fixpoint comprehend (acc : dict string) (arg : list string) : result (dict string) :=
  match arg with
  | [] => Ok acc
  | e :: arg' =>
      match split "="%char e with
      | k :: v :: _ => comprehend (dict_set k v acc) arg'
      | _ => Raise IndexError
      end
  end.

(** Lines 56-61, from the values of the option [--arg]. *)
Definition specified_extra_args (arg : list string) : result (dict string) :=
  comprehend [] arg.

End ArgParse.

(** ** Selecting the translator (handle, lines 126-164) *)

Module Select.
Import ExtraArgs Stamp ArgParse.

(** An element of [list_translators_for_source(source)], with the fields
    that [handle] reads: [subsystem], [type] and [name] (in [ident]),
    [compatible] and [extraArgs]. *)
Record entry : Type := {
  ident : translator;
  compatible : bool;
  extraArgs : dict extra_arg
}.

(** [l.index(x)]; [None] stands for the [ValueError]. *)
Fixpoint index (x : string) (l : list string) : option nat :=
  match l with
  | [] => None
  | y :: l' =>
      if String.eqb y x then Some 0
      else match index x l' with Some i => Some (S i) | None => None end
  end.

(** The sort key [(not t['compatible'], ['pure', 'ifd', 'impure'].index(t['type']))]. *)
Definition sort_key (t : entry) : option (bool * nat) :=
  match index (type (ident t)) ["pure"; "ifd"; "impure"] with
  | Some i => Some (negb (compatible t), i)
  | None => None
  end.

(** [a < b] on the keys, as Python compares tuples ([False < True]). *)
Definition key_lt (a b : bool * nat) : bool :=
  match fst a, fst b with
  | false, true => true
  | true, false => false
  | _, _ => Nat.ltb (snd a) (snd b)
  end.

(** [sorted] is stable: an element goes behind those of the rest whose key
    is smaller, and before those with the same key, which came later. *)
Fixpoint insert_keyed (x : (bool * nat) * entry) (l : list ((bool * nat) * entry))
    : list ((bool * nat) * entry) :=
  match l with
  | [] => [x]
  | y :: l' => if key_lt (fst y) (fst x) then y :: insert_keyed x l' else x :: l
  end.

(** The keys of all elements are computed first. *)
Fixpoint keyed (l : list entry) : option (list ((bool * nat) * entry)) :=
  match l with
  | [] => Some []
  | t :: l' =>
      match sort_key t, keyed l' with
      | Some k, Some r => Some ((k, t) :: r)
      | _, _ => None
      end
  end.

(** Lines 127-133. *)
Definition translatorsSorted (translators : list entry) : option (list entry) :=
  match keyed translators with
  | Some l => Some (map snd (fold_right insert_keyed [] l))
  | None => None
  end.

(** [a == b] on lists of strings *)
Fixpoint strs_eqb (a b : list string) : bool :=
  match a, b with
  | [], [] => true
  | x :: a', y :: b' => String.eqb x y && strs_eqb a' b'
  | _, _ => false
  end.

(** How lines 127-164 end. *)
Inductive outcome : Type :=
| Selected (t : entry)
    (* [translator] is now this element *)
| Asks
    (* no [--translator]: the choice is asked for (lines 136-148, not modelled) *)
| Exits (line : string)
    (* [exit(1)] of line 164, after this line on stderr *)
| ValueError
    (* raised by [index] in line 131 *)
| NotLookedUp (parts : list string).
    (* neither branch of lines 152-161 applies: [translator] stays the list
       of the parts, and line 167 raises [TypeError] on [translator['extraArgs']] *)

(** Lines 127-164. *)
Definition select (translators : list entry) (translator : string) : outcome :=
  match translatorsSorted translators with
  | None => ValueError
  | Some sorted =>
      if String.eqb translator "" then Asks
      else
        let parts := split "."%char translator in
        if Nat.eqb (List.length parts) 3 then
          match filter (fun t => strs_eqb [subsystem (ident t); type (ident t); name (ident t)]
                                   parts) sorted with
          | t :: _ => Selected t
          | [] => Exits ("Could not find translator '" ++ join "." parts ++ "'")
          end
        else if Nat.eqb (List.length parts) 1 then
          match filter (fun t => strs_eqb [name (ident t)] parts) sorted with
          | t :: _ => Selected t
          | [] => Exits ("Could not find translator '" ++ join "." parts ++ "'")
          end
        else NotLookedUp parts
  end.

End Select.

(** ** Defaults and missing arguments without a terminal (handle, lines 194-212) *)

Module Defaults.
Import ExtraArgs.

(** [d.update(other)] *)
Definition update {V : Type} (d other : dict V) : dict V :=
  fold_left (fun acc kv => dict_set (fst kv) (snd kv) acc) other d.

(** The comprehension of lines 197-199; the names of [extraArgs] differ, so
    the dictionary it builds is the list of its items. *)
Definition assumed (extraArgs : dict extra_arg) (specified : dict argval)
    : dict argval :=
  flat_map (fun nv =>
    match arg_default (snd nv) with
    | Some default =>
        if dict_has (fst nv) specified then []
        else [(fst nv, if String.eqb (arg_type (snd nv)) "flag"
                       then ABool true else default)]
    | None => []
    end) extraArgs.

(** Lines 201-203. *)
Definition unspecified_extra_args (extraArgs : dict extra_arg)
    (specified : dict argval) : dict extra_arg :=
  filter (fun nv => negb (dict_has (fst nv) specified)) extraArgs.

(** Lines 195-212 when [self.io.is_interactive()] is false: the line
    printed on stderr, if any, and [specified_extra_args] or the exit.  In
    line 208 the two adjacent string literals make one, on which [join] is
    called. *)
Definition non_interactive (name : string) (extraArgs : dict extra_arg)
    (specified : dict argval) : list string * result (dict argval) :=
  let specified1 := update specified (assumed extraArgs specified) in
  match unspecified_extra_args extraArgs specified1 with
  | [] => ([], Ok specified1)
  | missing =>
      ([join ("Please specify the following extra arguments required by translator '"
                ++ name ++ "' :" ++ String (ascii_of_nat 10) ", ")
             (keys missing)],
       Raise (SystemExit 1))
  end.

End Defaults.

(** ** The arguments handed to the translator (handle, lines 231-237) *)

Module TranslatorInput.
Import ExtraArgs Defaults.

(** A value of [specified_extra_args] as [json.dump] writes it. *)
Definition arg_json (v : argval) : json :=
  match v with
  | AStr s => JStr s
  | ABool b => JBool b
  end.

(** Lines 232-237. *)
Definition translator_input (source outputDreamLock : string)
    (specified_extra_args : dict argval) : dict json :=
  update [("inputFiles", JList []);
          ("inputDirectories", JList [JStr source]);
          ("outputFile", JStr outputDreamLock)]
         (map (fun kv => (fst kv, arg_json (snd kv))) specified_extra_args).

End TranslatorInput.

(** * Properties *)

(** ** Graphs: walks, paths and cycles *)

Module Graph.
Import Nx.

Lemma node_eqb_eq (a b : node) : node_eqb a b = true <-> a = b.
Proof.
  unfold node_eqb. destruct a as [a1 a2], b as [b1 b2]; simpl.
  rewrite andb_true_iff, !String.eqb_eq. split.
  - intros [-> ->]; reflexivity.
  - intros [= -> ->]; auto.
Qed.

Lemma node_eqb_refl (a : node) : node_eqb a a = true.
Proof. apply node_eqb_eq; reflexivity. Qed.

Lemma node_eqb_neq (a b : node) : node_eqb a b = false <-> a <> b.
Proof.
  rewrite <- node_eqb_eq. destruct (node_eqb a b); split; congruence.
Qed.

Lemma node_eqb_spec (a b : node) : reflect (a = b) (node_eqb a b).
Proof. apply iff_reflect. symmetry. apply node_eqb_eq. Qed.

Lemma edge_eqb_eq (a b : edge) : edge_eqb a b = true <-> a = b.
Proof.
  unfold edge_eqb. destruct a as [a1 a2], b as [b1 b2]; simpl.
  rewrite andb_true_iff, !node_eqb_eq. split.
  - intros [-> ->]; reflexivity.
  - intros [= -> ->]; auto.
Qed.

Lemma mem_node_In (n : node) (l : list node) : mem_node n l = true <-> In n l.
Proof.
  unfold mem_node. rewrite existsb_exists. split.
  - intros [m [Hm E]]. apply node_eqb_eq in E. subst; assumption.
  - intros H. exists n. split; [assumption | apply node_eqb_refl].
Qed.

Lemma mem_node_notIn (n : node) (l : list node) : mem_node n l = false <-> ~ In n l.
Proof.
  rewrite <- mem_node_In. destruct (mem_node n l); split; congruence.
Qed.

Lemma mem_edge_In (e : edge) (l : list edge) : mem_edge e l = true <-> In e l.
Proof.
  unfold mem_edge. rewrite existsb_exists. split.
  - intros [m [Hm E]]. apply edge_eqb_eq in E. subst; assumption.
  - intros H. exists e. split; [assumption | apply edge_eqb_eq; reflexivity].
Qed.

Lemma mem_edge_notIn (e : edge) (l : list edge) : mem_edge e l = false <-> ~ In e l.
Proof.
  rewrite <- mem_edge_In. destruct (mem_edge e l); split; congruence.
Qed.

Lemma In_remove_node (n m : node) (l : list node) :
  In m (remove_node n l) <-> In m l /\ m <> n.
Proof.
  unfold remove_node. rewrite filter_In, negb_true_iff, node_eqb_neq. tauto.
Qed.

Lemma has_edge_In (G : DiGraph) (u v : node) :
  has_edge G u v = true <-> In v (successors G u).
Proof. apply mem_node_In. Qed.

Lemma In_out_edges (G : DiGraph) (n : node) (e : edge) :
  In e (out_edges G n) <-> fst e = n /\ has_edge G n (snd e) = true.
Proof.
  unfold out_edges. rewrite in_map_iff, has_edge_In. split.
  - intros [m [<- Hm]]. simpl. auto.
  - intros [<- H]. exists (snd e). destruct e; auto.
Qed.

Lemma successors_all_edges (G : DiGraph) (u v : node) :
  In v (successors G u) -> In (u, v) (all_edges G).
Proof.
  induction G as [|[m l] G IH]; simpl; [tauto|].
  destruct (node_eqb_spec m u) as [->|Hne]; intros H; apply in_or_app.
  - left. apply in_map. assumption.
  - right. apply IH. assumption.
Qed.

Lemma has_edge_all_edges (G : DiGraph) (u v : node) :
  has_edge G u v = true -> In (u, v) (all_edges G).
Proof. rewrite has_edge_In. apply successors_all_edges. Qed.

(** One or more edges from [u] to [v]. *)
Inductive path (G : DiGraph) : node -> node -> Prop :=
| path_edge u v : has_edge G u v = true -> path G u v
| path_cons u v w : has_edge G u v = true -> path G v w -> path G u w.

(** No node reaches itself by one or more edges. *)
Definition acyclic (G : DiGraph) : Prop := forall n, ~ path G n n.

(** [l] is a walk from [u] to [v], edge after edge. *)
Fixpoint walk (G : DiGraph) (u : node) (l : list edge) (v : node) : Prop :=
  match l with
  | [] => u = v
  | e :: l' => fst e = u /\ has_edge G (fst e) (snd e) = true /\ walk G (snd e) l' v
  end.

(** The same, read from its last edge back to its first. *)
Fixpoint rwalk (G : DiGraph) (v : node) (l : list edge) (u : node) : Prop :=
  match l with
  | [] => v = u
  | e :: l' => snd e = v /\ has_edge G (fst e) (snd e) = true /\ rwalk G (fst e) l' u
  end.

(** A cycle as [find_cycle] returns it: a closed walk of at least one edge. *)
Definition is_cycle (G : DiGraph) (c : list edge) : Prop :=
  c <> [] /\ exists n, walk G n c n.

Lemma path_trans (G : DiGraph) (u v w : node) :
  path G u v -> path G v w -> path G u w.
Proof.
  induction 1; intros; eauto using path.
Qed.

Lemma walk_app (G : DiGraph) (l1 l2 : list edge) (u v w : node) :
  walk G u l1 v -> walk G v l2 w -> walk G u (l1 ++ l2) w.
Proof.
  revert u. induction l1 as [|e l1 IH]; simpl; intros u H1 H2.
  - subst; assumption.
  - destruct H1 as (? & ? & ?). eauto.
Qed.

Lemma walk_of_rwalk (G : DiGraph) (l : list edge) (u v : node) :
  rwalk G v l u -> walk G u (rev l) v.
Proof.
  revert v. induction l as [|e l IH]; simpl; intros v H.
  - auto.
  - destruct H as (Hv & He & Hr).
    eapply walk_app; [apply IH; eassumption|].
    simpl. auto.
Qed.

Lemma walk_path (G : DiGraph) (l : list edge) (u v : node) :
  l <> [] -> walk G u l v -> path G u v.
Proof.
  revert u. induction l as [|e l IH]; [congruence|].
  intros u _ (Hu & He & Hw). subst u.
  destruct l as [|e' l].
  - simpl in Hw. subst v. apply path_edge; assumption.
  - eapply path_cons; [eassumption|]. apply IH; [discriminate | assumption].
Qed.

Lemma is_cycle_path (G : DiGraph) (c : list edge) :
  is_cycle G c -> exists n, path G n n.
Proof.
  intros [Hne [n Hw]]. exists n. eapply walk_path; eassumption.
Qed.

Lemma walk_last (G : DiGraph) (l : list edge) (e : edge) (u v : node) :
  walk G u (l ++ [e]) v -> has_edge G (fst e) (snd e) = true /\ snd e = v.
Proof.
  revert u. induction l as [|e' l IH]; simpl; intros u H.
  - destruct H as (_ & He & Hv). auto.
  - destruct H as (_ & _ & Hw). eauto.
Qed.

Lemma rwalk_stack (G : DiGraph) (l : list edge) (u v : node) :
  rwalk G v l u -> v :: map fst l = map snd l ++ [u].
Proof.
  revert v. induction l as [|e l IH]; simpl; intros v H.
  - subst; reflexivity.
  - destruct H as (Hv & _ & Hr). rewrite (IH _ Hr). subst; reflexivity.
Qed.

Lemma from_final_cycle (G : DiGraph) (l : list edge) (u v : node) :
  walk G u l v -> In v (map fst l) ->
  from_final v l <> [] /\ walk G v (from_final v l) v.
Proof.
  revert u. induction l as [|e l IH]; simpl; [tauto|].
  intros u (Hu & He & Hw) Hin.
  destruct (node_eqb_spec (fst e) v) as [E|Hne].
  - split; [discriminate|]. simpl. auto.
  - destruct Hin as [E|Hin]; [contradiction|].
    destruct l as [|e' l]; [contradiction|].
    eapply IH; eassumption.
Qed.

End Graph.

(** ** The search of [find_cycle] *)

Module Search.
Import Nx Graph.

Lemma draw_some {ve it it' : list edge} {e : edge} :
  draw ve it = Some (e, it') ->
  exists skipped, it = skipped ++ e :: it' /\ incl skipped ve /\ ~ In e ve.
Proof.
  revert e it'. induction it as [|x it IH]; simpl; intros e it' H; [discriminate|].
  destruct (mem_edge x ve) eqn:Hx.
  - destruct (IH _ _ H) as (sk & -> & Hsk & Hn).
    exists (x :: sk). split; [reflexivity|]. split; [|assumption].
    intros y [<-|Hy]; [apply mem_edge_In; assumption | auto].
  - injection H as <- <-. exists []. split; [reflexivity|].
    split; [intros y []|]. apply mem_edge_notIn. assumption.
Qed.

Lemma draw_none {ve it : list edge} : draw ve it = None -> incl it ve.
Proof.
  induction it as [|x it IH]; simpl; intros H; [intros y []|].
  destruct (mem_edge x ve) eqn:Hx; [|discriminate].
  intros y [<-|Hy]; [apply mem_edge_In; assumption | apply IH; assumption].
Qed.

Lemma iter_get_set (its : list (node * list edge)) (n m : node) (it : list edge) :
  iter_get (iter_set its n it) m = if node_eqb n m then it else iter_get its m.
Proof. reflexivity. Qed.

Lemma iter_get_set_eq (its : list (node * list edge)) (n : node) (it : list edge) :
  iter_get (iter_set its n it) n = it.
Proof. rewrite iter_get_set, node_eqb_refl. reflexivity. Qed.

Lemma iter_get_set_neq (its : list (node * list edge)) (n m : node) (it : list edge) :
  n <> m -> iter_get (iter_set its n it) m = iter_get its m.
Proof.
  intros H. rewrite iter_get_set. apply node_eqb_neq in H. rewrite H. reflexivity.
Qed.

Section Dfs.

Variable G : DiGraph.

(** The edge [(n, m)] is still to be yielded by the iterator of [n]. *)
Definition pending (ve : list edge) (vn : list node)
    (its : list (node * list edge)) (n m : node) : Prop :=
  In n vn -> In (n, m) (iter_get its n) /\ ~ In (n, m) ve.

(** Every successor of a node on the stack is pending, or finished (in [F]),
    or the node right above it on the stack. *)
Fixpoint stack_ok (F : list node) (ve : list edge) (vn : list node)
    (its : list (node * list edge)) (above : option node) (stk : list node) : Prop :=
  match stk with
  | [] => True
  | n :: rest =>
      (forall m, In m (successors G n) ->
         pending ve vn its n m \/ In m F \/ above = Some m)
      /\ stack_ok F ve vn its (Some n) rest
  end.

(** The invariant of the generator between two [yield]s; [F] lists the nodes
    whose iterator is exhausted and that have left the stack. *)
Record dinv (F stk : list node) (ve : list edge) (vn : list node)
    (its : list (node * list edge)) : Prop := {
  d_nodup : NoDup stk;
  d_below : forall n, In n (tl stk) -> In n vn;
  d_tails : forall e, In e ve -> In (fst e) vn;
  d_fin : forall n, In n F -> In n vn /\ iter_get its n = [];
  d_closed : forall n m, In n F -> In m (successors G n) -> In m F;
  d_acyc : forall n, In n F -> ~ path G n n;
  d_stack : stack_ok F ve vn its None stk;
  d_iters : forall n, In n vn -> incl (iter_get its n) (out_edges G n);
  d_ve : NoDup ve /\ incl ve (all_edges G);
  d_visited : forall n, In n vn -> In n stk \/ In n F
}.

Arguments d_nodup {F stk ve vn its} _.
Arguments d_below {F stk ve vn its} _ n _.
Arguments d_tails {F stk ve vn its} _ e _.
Arguments d_fin {F stk ve vn its} _ n _.
Arguments d_closed {F stk ve vn its} _ n m _ _.
Arguments d_acyc {F stk ve vn its} _ n _ _.
Arguments d_stack {F stk ve vn its} _.
Arguments d_iters {F stk ve vn its} _ n _.
Arguments d_ve {F stk ve vn its} _.
Arguments d_visited {F stk ve vn its} _ n _.

Lemma stack_ok_mono F F' ve ve' vn vn' its its' above above' stk :
  stack_ok F ve vn its above stk ->
  (forall n m, In n stk -> pending ve vn its n m -> pending ve' vn' its' n m) ->
  incl F F' ->
  (forall m, above = Some m -> above' = Some m \/ In m F') ->
  stack_ok F' ve' vn' its' above' stk.
Proof.
  revert above above'. induction stk as [|n rest IH]; simpl; [tauto|].
  intros above above' [Hn Hrest] Hp HF Hab. split.
  - intros m Hm. destruct (Hn m Hm) as [H|[H|H]]; auto.
    destruct (Hab m H); auto.
  - apply IH with (above := Some n); auto.
Qed.

Lemma closed_path (F : list node) :
  (forall n m, In n F -> In m (successors G n) -> In m F) ->
  forall n m, path G n m -> In n F -> In m F.
Proof.
  intros Hc n m Hp. induction Hp as [u v He|u v w He Hp IH]; intros Hu.
  - eapply Hc; [eassumption | apply has_edge_In; assumption].
  - apply IH. eapply Hc; [eassumption | apply has_edge_In; assumption].
Qed.

(** Visiting the node on top of the stack, when it is new. *)
Lemma dinv_visit {F cur rest ve vn its} :
  dinv F (cur :: rest) ve vn its ->
  ~ In cur vn ->
  dinv F (cur :: rest) ve (cur :: vn) (iter_set its cur (out_edges G cur)).
Proof.
  intros I Hnew.
  assert (Hne : forall n, In n vn -> cur <> n) by (intros n Hn ->; auto).
  constructor.
  - apply I.
  - intros n Hn. right. apply (d_below I). assumption.
  - intros e He. right. apply (d_tails I). assumption.
  - intros n Hn. destruct (d_fin I n Hn) as [Hv Hi]. split; [right; assumption|].
    rewrite iter_get_set_neq; auto.
  - apply I.
  - apply I.
  - pose proof (d_stack I) as [Htop Hrest]. split.
    + intros m Hm. left. intros _. rewrite iter_get_set_eq. split.
      * apply in_map with (f := fun x => (cur, x)). assumption.
      * intros Hin. apply Hnew. apply (d_tails I _ Hin).
    + eapply stack_ok_mono; [exact Hrest| | apply incl_refl | auto].
      intros n m Hn Hp _.
      assert (Hnv : In n vn) by (apply (d_below I); assumption).
      rewrite iter_get_set_neq by auto. apply Hp. assumption.
  - intros n [<-|Hn].
    + rewrite iter_get_set_eq. apply incl_refl.
    + rewrite iter_get_set_neq by auto. apply (d_iters I). assumption.
  - apply I.
  - intros n [<-|Hn]; [left; left; reflexivity | apply (d_visited I); assumption].
Qed.

(** Popping the node on top of the stack, when its iterator has nothing new
    to give: the node is finished. *)
Lemma dinv_pop {F cur rest ve vn its} :
  dinv F (cur :: rest) ve vn its ->
  In cur vn ->
  draw ve (iter_get its cur) = None ->
  dinv (cur :: F) rest ve vn (iter_set its cur []).
Proof.
  intros I Hv Hd.
  pose proof (draw_none Hd) as Hall.
  pose proof (d_nodup I) as Hnd. inversion Hnd as [|? ? Hnotin Hnd']; subst.
  assert (Hsucc : forall m, In m (successors G cur) -> In m F).
  { intros m Hm. destruct (d_stack I) as [Htop _].
    destruct (Htop m Hm) as [H|[H|H]]; [|assumption|discriminate].
    destruct (H Hv) as [Hin Hn]. exfalso. apply Hn. apply Hall. assumption. }
  constructor.
  - assumption.
  - intros n Hn. apply (d_below I). simpl. destruct rest; simpl in *; [tauto | auto].
  - apply I.
  - intros n [<-|Hn].
    + split; [assumption | apply iter_get_set_eq].
    + destruct (d_fin I n Hn) as [Hvn Hi]. split; [assumption|].
      rewrite iter_get_set. destruct (node_eqb cur n); auto.
  - intros n m [<-|Hn] Hm.
    + right. apply Hsucc. assumption.
    + right. eapply (d_closed I); eassumption.
  - intros n [<-|Hn].
    + intros Hp. destruct (mem_node cur F) eqn:HF.
      * apply mem_node_In in HF. exact (d_acyc I _ HF Hp).
      * apply mem_node_notIn in HF. apply HF.
        inversion Hp as [u v He|u v w He Hp']; subst.
        -- apply Hsucc. apply has_edge_In. assumption.
        -- eapply closed_path; [apply (d_closed I) | eassumption |].
           apply Hsucc. apply has_edge_In. assumption.
    + apply (d_acyc I). assumption.
  - destruct (d_stack I) as [_ Hrest].
    eapply stack_ok_mono; [exact Hrest| | |].
    + intros n m Hn Hp Hnv. rewrite iter_get_set_neq; [auto|].
      intros ->. contradiction.
    + apply incl_tl, incl_refl.
    + intros m [= ->]. right. left. reflexivity.
  - intros n Hn. rewrite iter_get_set. destruct (node_eqb cur n).
    + intros x [].
    + apply (d_iters I). assumption.
  - apply I.
  - intros n Hn. destruct (d_visited I n Hn) as [[<-|H]|H]; auto.
    + right. left. reflexivity.
    + right. right. assumption.
Qed.

(** Yielding an edge towards a node that is not on the stack. *)
Lemma dinv_yield {F cur rest ve vn its e it'} :
  dinv F (cur :: rest) ve vn its ->
  In cur vn ->
  draw ve (iter_get its cur) = Some (e, it') ->
  fst e = cur /\ has_edge G cur (snd e) = true /\ ~ In e ve /\ In e (all_edges G) /\
  (~ In (snd e) (cur :: rest) ->
   dinv F (snd e :: cur :: rest) (e :: ve) vn (iter_set its cur it')).
Proof.
  intros I Hv Hd.
  destruct (draw_some Hd) as (sk & Hit & Hsk & Hnew).
  assert (Hout : In e (out_edges G cur)).
  { apply (d_iters I cur Hv). rewrite Hit. apply in_or_app. right. left. reflexivity. }
  apply In_out_edges in Hout. destruct Hout as [Hfst Hedge].
  split; [assumption|]. split; [assumption|]. split; [assumption|].
  split.
  { destruct e as [a b]. simpl in *. subst a. apply has_edge_all_edges. assumption. }
  intros Hfresh.
  pose proof (d_nodup I) as Hnd. inversion Hnd as [|? ? Hnotin Hnd']; subst.
  assert (HcurF : ~ In (fst e) F).
  { intros HF. destruct (d_fin I _ HF) as [_ Hnil]. rewrite Hnil in Hit.
    destruct sk; discriminate. }
  constructor.
  - constructor; assumption.
  - intros n [<-|Hn]; [assumption|]. apply (d_below I). assumption.
  - intros x [<-|Hx]; [assumption | apply (d_tails I); assumption].
  - intros n Hn. destruct (d_fin I n Hn) as [Hvn Hi]. split; [assumption|].
    rewrite iter_get_set_neq; [assumption|]. intros <-. contradiction.
  - apply I.
  - apply I.
  - destruct (d_stack I) as [Htop Hrest]. split; [|split].
    + intros m Hm. destruct (mem_node (snd e) vn) eqn:Hvis.
      * apply mem_node_In in Hvis.
        destruct (d_visited I _ Hvis) as [H|H]; [contradiction|].
        right. left. eapply (d_closed I); eassumption.
      * apply mem_node_notIn in Hvis. left. intros H. contradiction.
    + intros m Hm. destruct (Htop m Hm) as [H|[H|H]]; [|auto|discriminate].
      destruct (node_eqb_spec m (snd e)) as [->|Hne]; [right; right; reflexivity|].
      left. intros _. destruct (H Hv) as [Hin Hnv].
      rewrite iter_get_set_eq. rewrite Hit in Hin.
      assert (Hneq : (fst e, m) <> e) by (destruct e; simpl in *; congruence).
      split.
      * apply in_app_or in Hin. destruct Hin as [Hin|[Hin|Hin]].
        -- exfalso. apply Hnv. apply Hsk. assumption.
        -- exfalso. apply Hneq. symmetry. assumption.
        -- assumption.
      * intros [Hx|Hx]; [apply Hneq; symmetry; assumption | contradiction].
    + eapply stack_ok_mono; [exact Hrest| | apply incl_refl | auto].
      intros n m Hn Hp Hnv.
      assert (Hne : fst e <> n) by (intros <-; contradiction).
      rewrite iter_get_set_neq by assumption.
      destruct (Hp Hnv) as [Hin Hnot]. split; [assumption|].
      intros [Hx|Hx]; [|contradiction]. apply Hne. rewrite Hx. reflexivity.
  - intros n Hn. rewrite iter_get_set. destruct (node_eqb_spec (fst e) n) as [<-|Hne].
    + intros x Hx. apply (d_iters I _ Hv). rewrite Hit.
      apply in_or_app. right. right. assumption.
    + apply (d_iters I). assumption.
  - split.
    + constructor; [assumption | apply I].
    + intros x [<-|Hx]; [|apply (d_ve I); assumption].
      destruct e as [a b]. simpl in *. apply has_edge_all_edges. assumption.
  - intros n Hn. destruct (d_visited I n Hn) as [H|H]; [left; right; assumption | auto].
Qed.

(** What the generator does up to its next [yield]. *)
Lemma dfs_next_spec : forall stk F ve vn its,
  dinv F stk ve vn its ->
  match dfs_next G stk ve vn its with
  | None =>
      exists F', incl stk F' /\ incl F F' /\
        (forall n m, In n F' -> In m (successors G n) -> In m F') /\
        (forall n, In n F' -> ~ path G n n)
  | Some (e, d') =>
      exists popped rest F',
        stk = popped ++ fst e :: rest /\
        has_edge G (fst e) (snd e) = true /\
        stack d' = snd e :: fst e :: rest /\
        visited_edges d' = e :: ve /\
        ~ In e ve /\ In e (all_edges G) /\
        (~ In (snd e) (fst e :: rest) ->
         dinv F' (stack d') (visited_edges d') (visited_nodes d') (edges d'))
  end.
Proof.
  induction stk as [|cur rest IH]; intros F ve vn its I.
  - simpl. exists F. split; [intros x []|]. split; [apply incl_refl|].
    split; [apply (d_closed I) | apply (d_acyc I)].
  - assert (Hvis : exists vn1 its1,
      vn1 = (if negb (mem_node cur vn) then cur :: vn else vn) /\
      its1 = (if negb (mem_node cur vn)
              then iter_set its cur (out_edges G cur) else its) /\
      dinv F (cur :: rest) ve vn1 its1 /\ In cur vn1).
    { destruct (mem_node cur vn) eqn:Hm; simpl; do 2 eexists;
        (split; [reflexivity|]); (split; [reflexivity|]).
      - apply mem_node_In in Hm. auto.
      - apply mem_node_notIn in Hm. split; [apply dinv_visit; assumption|].
        left; reflexivity. }
    destruct Hvis as (vn1 & its1 & Evn & Eits & I1 & Hv).
    simpl. rewrite <- Evn, <- Eits.
    destruct (draw ve (iter_get its1 cur)) as [[e it']|] eqn:Hd.
    + destruct (dinv_yield I1 Hv Hd) as (Hfst & Hedge & Hnew & Hall & Hinv).
      exists [], rest, F. simpl. rewrite Hfst.
      split; [reflexivity|]. split; [assumption|]. split; [reflexivity|].
      split; [reflexivity|]. split; [assumption|]. split; assumption.
    + pose proof (dinv_pop I1 Hv Hd) as I2.
      specialize (IH _ _ _ _ I2).
      destruct (dfs_next G rest ve vn1 (iter_set its1 cur [])) as [[e d']|].
      * destruct IH as (popped & rest' & F' & Hstk & Hedge & Hs & Hve & Hnew & Hall & Hinv).
        exists (cur :: popped), rest', F'. simpl. rewrite Hstk.
        split; [reflexivity|]. split; [assumption|]. split; [assumption|].
        split; [assumption|]. split; [assumption|]. split; assumption.
      * destruct IH as (F' & Hstk & HF & Hc & Ha).
        exists F'. split; [|split; [|split]]; auto.
        -- intros x [<-|Hx]; [apply HF; left; reflexivity | apply Hstk; assumption].
        -- intros x Hx. apply HF. right. assumption.
Qed.

(** The stack of the generator and the active path of [find_cycle] tell
    the same walk from the start node. *)
Inductive trail (s : node) : list node -> list edge -> Prop :=
| trail_start : trail s [s] []
| trail_push u v stk es :
    trail s (u :: stk) es -> has_edge G u v = true ->
    trail s (v :: u :: stk) ((u, v) :: es).

Lemma trail_rwalk s stk es :
  trail s stk es -> exists top, hd_error stk = Some top /\ rwalk G top es s.
Proof.
  induction 1 as [|u v stk es H IH He].
  - exists s. simpl. auto.
  - destruct IH as (top & Htop & Hw). simpl in Htop. injection Htop as <-.
    exists v. simpl. auto.
Qed.

Lemma trail_tails s stk es : trail s stk es -> map fst es = tl stk.
Proof.
  induction 1 as [|u v stk es H IH He]; simpl; [reflexivity|].
  rewrite IH. reflexivity.
Qed.

Lemma trail_start_in s stk es : trail s stk es -> In s stk.
Proof.
  induction 1; simpl; auto.
Qed.

Lemma trail_reach s stk es :
  trail s stk es -> forall n, In n stk -> s = n \/ path G s n.
Proof.
  induction 1 as [|u v stk es H IH He]; intros n Hn.
  - destruct Hn as [<-|[]]. auto.
  - destruct Hn as [<-|Hn]; [|auto].
    right. destruct (IH u (or_introl eq_refl)) as [<-|Hp].
    + apply path_edge. assumption.
    + eapply path_trans; [eassumption | apply path_edge; assumption].
Qed.

Lemma trail_inv {s stk es} :
  trail s stk es ->
  (stk = [s] /\ es = []) \/
  (exists u v stk' es',
     stk = v :: u :: stk' /\ es = (u, v) :: es' /\
     trail s (u :: stk') es' /\ has_edge G u v = true).
Proof.
  intros H. destruct H as [|u v stk es H He].
  - left. auto.
  - right. exists u, v, stk, es. auto.
Qed.

Lemma backtrack_cons (tail : node) (p last : edge) (es : list edge)
    (active : list node) :
  backtrack tail (p :: last :: es) active =
  if node_eqb tail (snd last) then (last :: es, remove_node (snd p) active)
  else backtrack tail (last :: es) (remove_node (snd p) active).
Proof. reflexivity. Qed.

(** The pops of [find_cycle] after a backtrack undo what the generator
    popped from its stack. *)
Lemma backtrack_trail s cur rest : forall popped es active,
  trail s (popped ++ cur :: rest) es ->
  NoDup (popped ++ cur :: rest) ->
  popped <> [] ->
  (forall n, In n active <-> In n (popped ++ cur :: rest)) ->
  exists es1 a1,
    backtrack cur es active = (es1, a1) /\
    trail s (cur :: rest) es1 /\
    (forall n, In n a1 <-> In n (cur :: rest)).
Proof.
  induction popped as [|p popped IH]; intros es active Ht Hnd Hne Hact; [congruence|].
  clear Hne. simpl in Ht, Hnd, Hact.
  inversion Hnd as [|? ? Hp Hnd']; subst.
  assert (Hact' : forall n, In n (remove_node p active) <-> In n (popped ++ cur :: rest)).
  { intros n. rewrite In_remove_node, Hact. split.
    - intros [[<-|H] Hn]; [congruence | assumption].
    - intros H. split; [right; assumption|]. intros ->. contradiction. }
  destruct (trail_inv Ht) as [[E1 E2]|(u & v & stk' & es' & E1 & E2 & Ht' & He)].
  - destruct popped; discriminate.
  - injection E1 as Ep Estk. subst v es.
    destruct es' as [|last es''].
    + simpl. destruct (trail_inv Ht') as [[E1' E2']|(? & ? & ? & ? & _ & E2' & _)];
        [|discriminate].
      injection E1' as Eu Estk'. subst u stk'.
      destruct popped as [|q popped]; simpl in Estk.
      * injection Estk as -> ->. exists [], [s].
        split; [reflexivity|]. split; [apply trail_start | intros n; reflexivity].
      * destruct popped; discriminate.
    + destruct (trail_inv Ht') as [[_ E2']|(u' & v' & stk'' & es3 & E1' & E2' & Ht'' & He')];
        [discriminate|].
      injection E2' as -> ->. injection E1' as Eu Estk'. subst v' stk'.
      rewrite backtrack_cons. cbn [snd].
      destruct (node_eqb_spec cur u) as [->|Hcu].
      * destruct popped as [|q popped]; simpl in Estk.
        -- injection Estk as Erest. rewrite <- Erest in Ht'.
           exists ((u', u) :: es3), (remove_node p active).
           split; [reflexivity|]. split; [assumption|]. exact Hact'.
        -- injection Estk as -> _. exfalso. simpl in Hnd'.
           inversion Hnd' as [|? ? Hq _]; subst. apply Hq.
           apply in_or_app. right. left. reflexivity.
      * apply IH; auto.
        -- rewrite Estk. assumption.
        -- intros ->. simpl in Estk. injection Estk as E _. congruence.
Qed.

Definition mirror (s : node) (stk : list node) (c : fc_state) : Prop :=
  trail s stk (fc_edges c) /\
  (forall n, In n (active_nodes c) <-> In n stk) /\
  previous_head c = match fc_edges c with [] => None | e :: _ => Some (snd e) end.

(** After the backtrack, if any, the active path is the stack below the
    node that was just pushed. *)
Lemma rejoin s c popped cur rest :
  mirror s (popped ++ cur :: rest) c ->
  NoDup (popped ++ cur :: rest) ->
  exists es1 a1,
    match previous_head c with
    | Some ph =>
        if negb (node_eqb cur ph)
        then backtrack cur (fc_edges c) (active_nodes c)
        else (fc_edges c, active_nodes c)
    | None => (fc_edges c, active_nodes c)
    end = (es1, a1) /\
    trail s (cur :: rest) es1 /\
    (forall n, In n a1 <-> In n (cur :: rest)).
Proof.
  intros (Ht & Hact & Hph) Hnd. rewrite Hph.
  destruct (trail_inv Ht) as [[E1 E2]|(u & v & stk' & es' & E1 & E2 & Ht' & He)].
  - rewrite E2. exists (fc_edges c), (active_nodes c). split; [rewrite E2; reflexivity|].
    destruct popped as [|q popped]; simpl in E1.
    + simpl in Ht, Hact. auto.
    + destruct popped; discriminate.
  - rewrite E2. cbn [snd].
    destruct (node_eqb_spec cur v) as [->|Hcv]; cbn [negb].
    + exists (fc_edges c), (active_nodes c). rewrite E2. split; [reflexivity|].
      destruct popped as [|q popped]; simpl in E1.
      * rewrite E2 in Ht. simpl in Ht, Hact. auto.
      * injection E1 as -> _. exfalso. simpl in Hnd.
        inversion Hnd as [|? ? Hq _]; subst. apply Hq.
        apply in_or_app. right. left. reflexivity.
    + rewrite <- E2. apply backtrack_trail with (popped := popped); auto.
      intros ->. simpl in E1. injection E1 as E _. congruence.
Qed.

Lemma fc_loop_spec (s : node) : forall fuel d c F,
  dinv F (stack d) (visited_edges d) (visited_nodes d) (edges d) ->
  mirror s (stack d) c ->
  List.length (visited_edges d) + fuel = S (List.length (all_edges G)) ->
  match fc_loop fuel G d c with
  | OutOfFuel => False
  | Exhausted => forall n, s = n \/ path G s n -> ~ path G n n
  | Found cyc fin =>
      walk G s cyc fin /\ In fin (map fst cyc) /\ (s = fin \/ path G s fin)
  end.
Proof.
  induction fuel as [|fuel IH]; intros d c F I M Hfuel.
  - simpl. destruct (d_ve I) as [Hnd Hincl].
    pose proof (NoDup_incl_length Hnd Hincl). lia.
  - simpl. pose proof (dfs_next_spec _ _ _ _ _ I) as Hnext.
    destruct (dfs_next G (stack d) (visited_edges d) (visited_nodes d) (edges d))
      as [[e d']|].
    + destruct Hnext as (popped & rest & F' & Hstk & Hedge & Hs & Hve & Hnew & Hall & Hinv).
      rewrite Hstk in M. pose proof (d_nodup I) as Hnd. rewrite Hstk in Hnd.
      destruct (rejoin _ _ _ _ _ M Hnd) as (es1 & a1 & -> & Ht & Hact).
      assert (Hpush : trail s (snd e :: fst e :: rest) (e :: es1)).
      { destruct e as [a b]. apply trail_push; assumption. }
      destruct (mem_node (snd e) a1) eqn:Hmem.
      * apply mem_node_In in Hmem. apply Hact in Hmem.
        destruct (trail_rwalk _ _ _ Hpush) as (top & Htop & Hw).
        simpl in Htop. injection Htop as <-.
        change (rev es1 ++ [e]) with (rev (e :: es1)).
        split; [apply walk_of_rwalk; assumption|]. split.
        -- rewrite map_rev, <- in_rev.
           exact (eq_ind_r (fun l => In (snd e) l) Hmem (trail_tails _ _ _ Hpush)).
        -- apply (trail_reach _ _ _ Ht). assumption.
      * apply mem_node_notIn in Hmem.
        assert (Hfresh : ~ In (snd e) (fst e :: rest)) by (rewrite <- Hact; assumption).
        apply IH with (F := F').
        -- auto.
        -- rewrite Hs. split; [exact Hpush|]. split; [|reflexivity].
           simpl. intros n. rewrite Hact. simpl. tauto.
        -- rewrite Hve. simpl. lia.
    + destruct Hnext as (F' & Hstk & _ & Hc & Ha).
      destruct M as (Ht & _ & _).
      assert (HsF : In s F') by (apply Hstk; eapply trail_start_in; eassumption).
      intros n [<-|Hp]; [auto|].
      apply Ha. eapply closed_path; eassumption.
Qed.

End Dfs.

Lemma successors_no_node (G : DiGraph) (n : node) :
  has_node G n = false -> successors G n = [].
Proof.
  induction G as [|[m l] G IH]; simpl; [reflexivity|].
  intros H. apply orb_false_iff in H. destruct H as [H1 H2].
  rewrite H1. auto.
Qed.

Lemma no_path_from (G : DiGraph) (n m : node) :
  successors G n = [] -> ~ path G n m.
Proof.
  intros H Hp. destruct Hp as [u v He|u v w He _];
    apply has_edge_In in He; rewrite H in He; exact He.
Qed.

Lemma dinv_start (G : DiGraph) (s : node) : dinv G [] [s] [] [] [].
Proof.
  constructor; simpl; try tauto.
  - constructor; [tauto | constructor].
  - split; [|exact I]. intros m _. left. intros [].
  - split; [constructor | intros x []].
Qed.

Lemma find_cycle_search_spec (G : DiGraph) (s : node) :
  match find_cycle_search G s with
  | OutOfFuel => False
  | Exhausted => forall n, s = n \/ path G s n -> ~ path G n n
  | Found cyc fin =>
      walk G s cyc fin /\ In fin (map fst cyc) /\ (s = fin \/ path G s fin)
  end.
Proof.
  unfold find_cycle_search. destruct (has_node G s) eqn:Hn.
  - apply fc_loop_spec with (F := []).
    + apply dinv_start.
    + split; [apply trail_start|]. split; [tauto | reflexivity].
    + reflexivity.
  - apply successors_no_node in Hn.
    intros n [<-|Hp] Hc; eapply no_path_from; eassumption.
Qed.

(** [find_cycle] returns a closed walk of the graph, at least one edge long,
    through a node that [source] reaches. *)
Theorem find_cycle_sound (G : DiGraph) (source : node) (cycle : list edge) :
  find_cycle G source = Ok cycle ->
  cycle <> [] /\
  exists n, walk G n cycle n /\ (source = n \/ path G source n).
Proof.
  unfold find_cycle. pose proof (find_cycle_search_spec G source) as H.
  destruct (find_cycle_search G source) as [cyc fin| |]; try discriminate.
  intros [= <-]. destruct H as (Hw & Hin & Hr).
  destruct (from_final_cycle _ _ _ _ Hw Hin) as [Hne Hc].
  split; [assumption|]. exists fin. auto.
Qed.

(** [find_cycle] raises [NetworkXNoCycle] only when no node that [source]
    reaches lies on a cycle. *)
Theorem find_cycle_complete (G : DiGraph) (source : node) :
  find_cycle G source = Raise NetworkXNoCycle ->
  forall n, source = n \/ path G source n -> ~ path G n n.
Proof.
  unfold find_cycle. pose proof (find_cycle_search_spec G source) as H.
  destruct (find_cycle_search G source) as [cyc fin| |]; try discriminate.
  intros _. exact H.
Qed.

(** The fuel of [find_cycle] suffices: it returns a cycle or raises
    [NetworkXNoCycle]. *)
Theorem find_cycle_total (G : DiGraph) (source : node) :
  (exists cycle, find_cycle G source = Ok cycle) \/
  find_cycle G source = Raise NetworkXNoCycle.
Proof.
  unfold find_cycle. pose proof (find_cycle_search_spec G source) as H.
  destruct (find_cycle_search G source) as [cyc fin| |]; [eauto | auto | contradiction].
Qed.

End Search.

(** ** Building the graph and removing edges *)

Module Build.
Import Nx Graph Cycles.

Lemma has_node_app (G1 G2 : DiGraph) (n : node) :
  has_node (G1 ++ G2) n = has_node G1 n || has_node G2 n.
Proof. unfold has_node. apply existsb_app. Qed.

Lemma successors_app (G1 G2 : DiGraph) (n : node) :
  successors (G1 ++ G2) n =
  if has_node G1 n then successors G1 n else successors G2 n.
Proof.
  induction G1 as [|[m l] G1 IH]; simpl; [reflexivity|].
  destruct (node_eqb m n); simpl; auto.
Qed.

Lemma has_node_add_node (G : DiGraph) (n m : node) :
  has_node (add_node G n) m = has_node G m || node_eqb n m.
Proof.
  unfold add_node. destruct (has_node G n) eqn:Hn.
  - destruct (node_eqb_spec n m) as [<-|_].
    + rewrite Hn. reflexivity.
    + rewrite orb_false_r. reflexivity.
  - rewrite has_node_app. simpl. rewrite orb_false_r. reflexivity.
Qed.

Lemma successors_add_node (G : DiGraph) (n m : node) :
  successors (add_node G n) m = successors G m.
Proof.
  unfold add_node. destruct (has_node G n) eqn:Hn; [reflexivity|].
  rewrite successors_app. destruct (has_node G m) eqn:Hm; [reflexivity|].
  simpl. rewrite (Search.successors_no_node _ _ Hm).
  destruct (node_eqb n m); reflexivity.
Qed.

Lemma successors_add_succ_neq (G : DiGraph) (a b n : node) :
  a <> n -> successors (add_succ G a b) n = successors G n.
Proof.
  intros Han. induction G as [|[m l] G IH]; simpl; [reflexivity|].
  destruct (node_eqb_spec m a) as [->|Hma]; simpl.
  - apply node_eqb_neq in Han. rewrite Han. exact IH.
  - destruct (node_eqb m n); [reflexivity | exact IH].
Qed.

Lemma successors_add_succ (G : DiGraph) (a b n : node) :
  has_node G a = true ->
  successors (add_succ G a b) n =
  if node_eqb a n
  then (if mem_node b (successors G a) then successors G a
        else successors G a ++ [b])
  else successors G n.
Proof.
  induction G as [|[m l] G IH]; simpl; [discriminate|].
  intros H. destruct (node_eqb_spec m a) as [->|Hma]; simpl.
  - destruct (node_eqb_spec a n) as [->|Han]; [reflexivity|].
    apply successors_add_succ_neq. assumption.
  - simpl in H. destruct (node_eqb_spec m n) as [->|Hmn].
    + destruct (node_eqb_spec a n) as [->|_]; [congruence | reflexivity].
    + apply IH. assumption.
Qed.

Lemma has_edge_add_edge (G : DiGraph) (a b u v : node) :
  has_edge (add_edge G a b) u v = true <->
  has_edge G u v = true \/ (u, v) = (a, b).
Proof.
  unfold add_edge. rewrite !has_edge_In.
  rewrite successors_add_succ
    by (rewrite !has_node_add_node, node_eqb_refl, orb_true_r; reflexivity).
  rewrite !successors_add_node.
  destruct (node_eqb_spec a u) as [->|Hau].
  - destruct (mem_node b (successors G u)) eqn:Hb.
    + apply mem_node_In in Hb. split; [auto|].
      intros [H|[= ->]]; assumption.
    + rewrite in_app_iff. simpl. split.
      * intros [H|[->|[]]]; auto.
      * intros [H|[= ->]]; auto.
  - split; [auto|]. intros [H|[= -> _]]; [assumption | congruence].
Qed.

Lemma has_edge_from_edges_gen (l : list edge) : forall (G : DiGraph) (u v : node),
  has_edge (fold_left (fun G e => add_edge G (fst e) (snd e)) l G) u v = true <->
  has_edge G u v = true \/ In (u, v) l.
Proof.
  induction l as [|[a b] l IH]; intros G u v; simpl; [tauto|].
  rewrite IH, has_edge_add_edge. split.
  - intros [[H|H]|H]; auto.
  - intros [H|[H|H]]; auto.
Qed.

Lemma has_edge_from_edges (l : list edge) (u v : node) :
  has_edge (from_edges l) u v = true <-> In (u, v) l.
Proof.
  unfold from_edges. rewrite has_edge_from_edges_gen.
  split; [intros [H|H]; [discriminate | assumption] | auto].
Qed.

Lemma node_compare_eq (a b : node) : node_compare a b = Eq -> a = b.
Proof.
  unfold node_compare. destruct a as [a1 a2], b as [b1 b2]; simpl.
  destruct (String.compare a1 b1) eqn:H1; try discriminate.
  intros H2. apply String.compare_eq_iff in H1, H2. subst; reflexivity.
Qed.

Lemma edge_compare_eq (a b : edge) : edge_compare a b = Eq -> a = b.
Proof.
  unfold edge_compare. destruct a as [a1 a2], b as [b1 b2]; simpl.
  destruct (node_compare a1 b1) eqn:H1; try discriminate.
  intros H2. apply node_compare_eq in H1, H2. subst; reflexivity.
Qed.

Lemma In_insert_edge (e x : edge) (l : list edge) :
  In x (insert_edge e l) <-> x = e \/ In x l.
Proof.
  induction l as [|e' l IH]; simpl.
  - split; intros [H|H]; auto.
  - destruct (edge_compare e e') eqn:Hc; simpl.
    + apply edge_compare_eq in Hc. subst e'. split; [auto|].
      intros [->|H]; auto.
    + split; intros [H|H]; auto.
    + rewrite IH. split; intros H; intuition auto.
Qed.

Lemma In_sorted_edges_gen (l : list edge) : forall (acc : list edge) (x : edge),
  In x (fold_left (fun acc e => insert_edge e acc) l acc) <-> In x acc \/ In x l.
Proof.
  induction l as [|e l IH]; intros acc x; simpl; [tauto|].
  rewrite IH, In_insert_edge. split; intros H; intuition auto.
Qed.

Lemma In_sorted_edges (l : list edge) (x : edge) :
  In x (sorted_edges l) <-> In x l.
Proof.
  unfold sorted_edges. rewrite In_sorted_edges_gen. simpl. tauto.
Qed.

(** The graph has exactly the declared edges. *)
Lemma has_edge_build_graph (dg : depGraph) (u v : node) :
  has_edge (build_graph dg) u v = true <-> In (u, v) (declared_edges dg).
Proof.
  unfold build_graph. rewrite has_edge_from_edges. apply In_sorted_edges.
Qed.

(** Every edge leaves a key of the dependency map. *)
Lemma declared_edge_key (dg : depGraph) (u v : node) :
  In (u, v) (declared_edges dg) -> In u (graph_keys dg).
Proof.
  unfold declared_edges, graph_keys. rewrite !in_flat_map.
  intros ([p vs] & Hp & H). exists (p, vs). split; [assumption|].
  simpl in *. apply in_flat_map in H. destruct H as ([ver deps] & Hv & H).
  simpl in H. apply in_map_iff in H. destruct H as (dep & [= <- _] & _).
  apply in_map_iff. exists (ver, deps). auto.
Qed.

Lemma successors_remove_edge (G G' : DiGraph) (u v n : node) :
  remove_edge G u v = Ok G' ->
  successors G' n =
  if node_eqb u n then remove_node v (successors G n) else successors G n.
Proof.
  unfold remove_edge. destruct (has_edge G u v); [|discriminate].
  intros [= <-]. induction G as [|[m l] G IH]; simpl.
  - destruct (node_eqb u n); reflexivity.
  - destruct (node_eqb_spec m u) as [->|Hmu]; simpl.
    + destruct (node_eqb_spec u n) as [->|Hun]; [reflexivity|].
      exact IH.
    + destruct (node_eqb_spec m n) as [->|Hmn].
      * destruct (node_eqb_spec u n); [congruence | reflexivity].
      * exact IH.
Qed.

Lemma has_edge_remove_edge (G G' : DiGraph) (u v x y : node) :
  remove_edge G u v = Ok G' ->
  (has_edge G' x y = true <-> has_edge G x y = true /\ (x, y) <> (u, v)).
Proof.
  intros H. rewrite !has_edge_In, (successors_remove_edge _ _ _ _ x H).
  destruct (node_eqb_spec u x) as [->|Hux].
  - rewrite In_remove_node. split; intros [H1 H2]; split; auto; congruence.
  - split; [|tauto]. intros H1. split; [assumption | congruence].
Qed.

Lemma remove_edge_ok (G : DiGraph) (u v : node) :
  has_edge G u v = true -> exists G', remove_edge G u v = Ok G'.
Proof. unfold remove_edge. intros ->. eauto. Qed.

Lemma length_remove_node (v : node) (l : list node) :
  List.length (remove_node v l) <= List.length l.
Proof. apply filter_length_le. Qed.

Lemma length_remove_node_In (v : node) (l : list node) :
  In v l -> List.length (remove_node v l) < List.length l.
Proof.
  induction l as [|x l IH]; simpl; [tauto|].
  destruct (node_eqb_spec x v) as [->|Hxv]; simpl.
  - intros _. pose proof (length_remove_node v l). lia.
  - intros [H|H]; [congruence|]. apply IH in H. lia.
Qed.

(** Removing an edge makes the graph smaller: the measure of the loop. *)
Lemma remove_edge_smaller (G G' : DiGraph) (u v : node) :
  remove_edge G u v = Ok G' ->
  List.length (all_edges G') < List.length (all_edges G).
Proof.
  unfold remove_edge. destruct (has_edge G u v) eqn:He; [|discriminate].
  intros [= <-]. apply has_edge_In in He.
  assert (Hle : forall G0 : DiGraph,
    List.length (all_edges (map (fun p => if node_eqb (fst p) u
                              then (fst p, remove_node v (snd p)) else p) G0))
    <= List.length (all_edges G0)).
  { induction G0 as [|[m l] G0 IH]; simpl; [lia|].
    destruct (node_eqb m u); simpl; rewrite !length_app, !length_map.
    - apply Nat.add_le_mono; [apply length_remove_node | exact IH].
    - apply Nat.add_le_mono; [apply Nat.le_refl | exact IH]. }
  induction G as [|[m l] G IH]; simpl in *; [tauto|].
  destruct (node_eqb m u); simpl; rewrite !length_app, !length_map.
  - apply Nat.add_lt_le_mono; [apply length_remove_node_In; exact He | apply Hle].
  - apply Nat.add_le_lt_mono; [apply Nat.le_refl | exact (IH He)].
Qed.

End Build.

(** ** The loops that remove cycles *)

Module Resolver.
Import Nx Graph Cycles Build.

(** No node that [k] reaches, [k] included, lies on a cycle. *)
Definition safe (G : DiGraph) (k : node) : Prop :=
  forall n, k = n \/ path G k n -> ~ path G n n.

(** [G'] has only edges of [G]. *)
Definition subgraph (G' G : DiGraph) : Prop :=
  forall u v, has_edge G' u v = true -> has_edge G u v = true.

Lemma path_subgraph (G' G : DiGraph) (u v : node) :
  subgraph G' G -> path G' u v -> path G u v.
Proof.
  intros Hs Hp. induction Hp as [a b He|a b c He Hp IH].
  - apply path_edge. auto.
  - eapply path_cons; [apply Hs; eassumption | assumption].
Qed.

Lemma safe_subgraph (G' G : DiGraph) (k : node) :
  subgraph G' G -> safe G k -> safe G' k.
Proof.
  intros Hs Hk n Hn Hc. apply (Hk n).
  - destruct Hn as [->|Hp]; [left; reflexivity | right; eapply path_subgraph; eassumption].
  - eapply path_subgraph; eassumption.
Qed.

Lemma last_edge_app (l : list edge) (e : edge) : last_edge (l ++ [e]) = Ok e.
Proof.
  induction l as [|x l IH]; [reflexivity|].
  simpl. destruct (l ++ [e]) eqn:E; [destruct l; discriminate | exact IH].
Qed.

Lemma last_edge_some (cycle : list edge) :
  cycle <> [] -> exists l e, cycle = l ++ [e] /\ last_edge cycle = Ok e.
Proof.
  intros H. destruct (exists_last H) as (l & e & ->).
  exists l, e. split; [reflexivity | apply last_edge_app].
Qed.

(** The [while True] loop: it ends, what it removes are edges of the graph,
    the graph left has the other edges, and no cycle can be reached from
    [key] any more. *)
Lemma while_cycle_spec : forall fuel G key removed,
  List.length (all_edges G) < fuel ->
  exists G' removed',
    while_cycle fuel G key removed = Ok (G', removed ++ removed') /\
    (forall u v, has_edge G' u v = true <->
                 has_edge G u v = true /\ ~ In (u, v) removed') /\
    safe G' key /\
    (removed' <> [] -> exists n, path G n n) /\
    (removed' = [] -> G' = G).
Proof.
  induction fuel as [|fuel IH]; intros G key removed Hfuel; [lia|].
  simpl. destruct (Search.find_cycle_total G key) as [[cycle Hc]|Hc]; rewrite Hc.
  - destruct (Search.find_cycle_sound _ _ _ Hc) as (Hne & n & Hw & _).
    destruct (last_edge_some _ Hne) as (l & [node_from node_to] & -> & Hlast).
    rewrite Hlast. simpl.
    destruct (walk_last _ _ _ _ _ Hw) as [He _]. simpl in He.
    destruct (remove_edge_ok _ _ _ He) as [G1 HG1]. rewrite HG1. simpl.
    pose proof (remove_edge_smaller _ _ _ _ HG1) as Hlt.
    destruct (IH G1 key (removed ++ [(node_from, node_to)]))
      as (G' & r & Hrun & Hedges & Hsafe & _); [lia|].
    exists G', ((node_from, node_to) :: r).
    split; [rewrite Hrun, <- app_assoc; reflexivity|].
    split; [|split; [assumption|split]].
    + intros u v. rewrite Hedges, (has_edge_remove_edge _ _ _ _ u v HG1). simpl.
      split.
      * intros [[H1 H2] H3]. split; [assumption|]. intros [E|E]; [congruence | contradiction].
      * intros [H1 H2]. split; [split; [assumption|] |]; intros E; apply H2; auto.
    + intros _. exists n. eapply walk_path; eassumption.
    + discriminate.
  - exists G, []. rewrite app_nil_r. split; [reflexivity|].
    split; [|split; [|split; [congruence | reflexivity]]].
    + intros u v. simpl. tauto.
    + exact (Search.find_cycle_complete _ _ Hc).
Qed.

(** The loop over the keys. *)
Lemma for_keys_spec : forall ks G removed,
  exists G' removed',
    for_keys G ks removed = Ok (G', removed ++ removed') /\
    (forall u v, has_edge G' u v = true <->
                 has_edge G u v = true /\ ~ In (u, v) removed') /\
    (forall k, In k ks -> safe G' k) /\
    (removed' <> [] -> exists n, path G n n) /\
    (removed' = [] -> G' = G).
Proof.
  induction ks as [|key ks IH]; intros G removed.
  - exists G, []. rewrite app_nil_r. simpl. split; [reflexivity|].
    split; [tauto|]. split; [tauto|]. split; [congruence | reflexivity].
  - cbn [for_keys].
    destruct (while_cycle_spec (S (List.length (all_edges G))) G key removed)
      as (G1 & r1 & Hrun1 & Hedges1 & Hsafe1 & Hcyc1 & Hnil1); [lia|].
    rewrite Hrun1. cbn [bind].
    destruct (IH G1 (removed ++ r1)) as (G' & r2 & Hrun2 & Hedges2 & Hsafe2 & Hcyc2 & Hnil2).
    assert (Hsub1 : subgraph G1 G) by (intros u v H; apply Hedges1 in H; tauto).
    assert (Hsub2 : subgraph G' G1) by (intros u v H; apply Hedges2 in H; tauto).
    exists G', (r1 ++ r2). split; [rewrite Hrun2, <- app_assoc; reflexivity|].
    split; [|split; [|split]].
    + intros u v. rewrite Hedges2, Hedges1, in_app_iff. tauto.
    + intros k [<-|Hk]; [eapply safe_subgraph; eassumption | auto].
    + intros Hne. destruct r1 as [|e r1].
      * destruct (Hcyc2 Hne) as [n Hn]. exists n. eapply path_subgraph; eassumption.
      * apply Hcyc1. discriminate.
    + intros E. apply app_eq_nil in E. destruct E as [E1 E2].
      rewrite (Hnil2 E2). apply Hnil1. exact E1.
Qed.

(** Lines 300-321 end, with an acyclic live graph that has the declared
    edges but the removed ones; something is removed only if the declared
    edges have a cycle. *)
Lemma remove_cycles_spec (dg : depGraph) :
  exists G' removed,
    remove_cycles dg = Ok (G', removed) /\
    acyclic G' /\
    (forall u v, has_edge G' u v = true <->
                 In (u, v) (declared_edges dg) /\ ~ In (u, v) removed) /\
    (removed <> [] -> exists n, path (build_graph dg) n n).
Proof.
  unfold remove_cycles.
  destruct (for_keys_spec (graph_keys dg) (build_graph dg) [])
    as (G' & removed & Hrun & Hedges & Hsafe & Hcyc & _).
  exists G', removed. split; [exact Hrun|]. split; [|split; [|exact Hcyc]].
  - intros n Hp.
    assert (Hkey : In n (graph_keys dg)).
    { assert (exists m, has_edge G' n m = true) as [m Hm]
        by (inversion Hp; subst; eauto).
      apply Hedges in Hm. destruct Hm as [Hm _].
      apply has_edge_build_graph in Hm. eapply declared_edge_key; eassumption. }
    exact (Hsafe n Hkey n (or_introl eq_refl) Hp).
  - intros u v. rewrite Hedges, has_edge_build_graph. tauto.
Qed.

End Resolver.

(** ** Dictionaries *)

Module DictFacts.

Lemma dict_get_set_eq {V : Type} (k : string) (v : V) (d : dict V) :
  dict_get k (dict_set k v d) = Some v.
Proof.
  induction d as [|[k' v'] d IH]; simpl.
  - rewrite String.eqb_refl. reflexivity.
  - destruct (String.eqb k' k) eqn:E; simpl.
    + rewrite String.eqb_refl. reflexivity.
    + rewrite E. exact IH.
Qed.

Lemma dict_get_set_neq {V : Type} (k k0 : string) (v : V) (d : dict V) :
  k <> k0 -> dict_get k0 (dict_set k v d) = dict_get k0 d.
Proof.
  intros Hne. induction d as [|[k' v'] d IH]; simpl.
  - apply String.eqb_neq in Hne. rewrite Hne. reflexivity.
  - destruct (String.eqb_spec k' k) as [->|Hk]; simpl.
    + apply String.eqb_neq in Hne. rewrite Hne. reflexivity.
    + destruct (String.eqb k' k0); [reflexivity | exact IH].
Qed.

Lemma dict_has_set_eq {V : Type} (k : string) (v : V) (d : dict V) :
  dict_has k (dict_set k v d) = true.
Proof. unfold dict_has. rewrite dict_get_set_eq. reflexivity. Qed.

Lemma dict_has_set_neq {V : Type} (k k0 : string) (v : V) (d : dict V) :
  k <> k0 -> dict_has k0 (dict_set k v d) = dict_has k0 d.
Proof. intros H. unfold dict_has. rewrite dict_get_set_neq by assumption. reflexivity. Qed.

Lemma dict_has_get {V : Type} (k : string) (d : dict V) :
  dict_has k d = true <-> exists v, dict_get k d = Some v.
Proof.
  unfold dict_has. destruct (dict_get k d); split; eauto; try discriminate.
  intros [v H]; discriminate.
Qed.

Lemma dict_has_false {V : Type} (k : string) (d : dict V) :
  dict_has k d = false <-> dict_get k d = None.
Proof.
  unfold dict_has. destruct (dict_get k d); split; congruence.
Qed.

End DictFacts.

(** ** The removal ledger *)

Module Ledger.
Import Nx Cycles DictFacts.

(** [cyclicDependencies[name][version]], empty when there is no such entry. *)
Definition ledger_at (cd : ledger) (n : node) : list node :=
  match dict_get (fst n) cd with
  | Some inner => match dict_get (snd n) inner with Some l => l | None => [] end
  | None => []
  end.

(** One turn of the loop appends the target to the list kept under the
    origin of the edge. *)
Lemma record_removed_appends (cd : ledger) (node_from node_to : node) :
  ledger_at (record_removed cd (node_from, node_to)) node_from =
  ledger_at cd node_from ++ [node_to].
Proof.
  destruct node_from as [n_name n_ver]. unfold record_removed, ledger_at. simpl.
  rewrite dict_get_set_eq, dict_get_set_eq.
  unfold dict_has.
  destruct (dict_get n_name cd) as [inner|] eqn:Hcd.
  - rewrite Hcd. destruct (dict_get n_ver inner) as [l|] eqn:Hin.
    + rewrite Hin. reflexivity.
    + rewrite dict_get_set_eq. reflexivity.
  - rewrite dict_get_set_eq. simpl. rewrite String.eqb_refl. reflexivity.
Qed.

Lemma cyclicDependencies_snoc (removed_edges : list edge) (e : edge) :
  cyclicDependencies (removed_edges ++ [e]) =
  record_removed (cyclicDependencies removed_edges) e.
Proof. unfold cyclicDependencies. rewrite fold_left_app. reflexivity. Qed.

(** The lists kept under the other nodes are left alone. *)
Lemma record_removed_other (cd : ledger) (node_from node_to n : node) :
  n <> node_from ->
  ledger_at (record_removed cd (node_from, node_to)) n = ledger_at cd n.
Proof.
  destruct node_from as [n_name n_ver], n as [m_name m_ver]. intros Hne.
  unfold record_removed, ledger_at. cbn [fst snd].
  destruct (String.eqb_spec n_name m_name) as [<-|Hname].
  - assert (Hver : n_ver <> m_ver) by congruence.
    rewrite dict_get_set_eq, (dict_get_set_neq _ _ _ _ Hver).
    unfold dict_has.
    destruct (dict_get n_name cd) as [inner|] eqn:Hcd.
    + rewrite Hcd. destruct (dict_get n_ver inner) eqn:Hin; [reflexivity|].
      rewrite (dict_get_set_neq _ _ _ _ Hver). reflexivity.
    + rewrite dict_get_set_eq. cbn -[String.eqb].
      apply String.eqb_neq in Hver. rewrite Hver. reflexivity.
  - rewrite (dict_get_set_neq _ _ _ _ Hname).
    unfold dict_has. destruct (dict_get n_name cd); [reflexivity|].
    rewrite (dict_get_set_neq _ _ _ _ Hname). reflexivity.
Qed.

(** The ledger holds the removed edges, each under its origin. *)
Lemma ledger_at_removed (removed_edges : list edge) (u v : node) :
  In v (ledger_at (cyclicDependencies removed_edges) u) <-> In (u, v) removed_edges.
Proof.
  induction removed_edges as [|[n t] r IH] using rev_ind.
  - unfold ledger_at. simpl. tauto.
  - rewrite cyclicDependencies_snoc, in_app_iff. cbn [In].
    destruct (Graph.node_eqb_spec u n) as [->|Hne].
    + rewrite record_removed_appends, in_app_iff, IH. cbn [In].
      split; (intros [H|[H|[]]]; [left; exact H | right; left; congruence]).
    + rewrite (record_removed_other _ _ _ _ Hne), IH.
      split; [auto|]. intros [H|[H|[]]]; [assumption | congruence].
Qed.

End Ledger.

(** ** The cycle resolver: what the specification says of it *)

Module CycleResolver.
Import Nx Graph Cycles Build Resolver Ledger.

(** Three packages: [K] depends on [A], and [A] and [B] on each other. *)
Definition A1 : node := ("A", "1").
Definition B1 : node := ("B", "1").
Definition K1 : node := ("K", "1").

Definition deps_KAB : depGraph :=
  [("K", [("1", [A1])]); ("A", [("1", [B1])]); ("B", [("1", [A1])])].

(** The example of the specification: [A] and [B] depend on each other. *)
Definition deps_AB : depGraph :=
  [("A", [("1", [B1])]); ("B", [("1", [A1])])].

(** A chain without a cycle. *)
Definition deps_chain : depGraph :=
  [("K", [("1", [A1])]); ("A", [("1", [B1])])].

Definition lock_of (dg : depGraph) : json :=
  JDict [("_generic", JDict [("mainPackageName", JStr "A");
                             ("mainPackageVersion", JStr "1");
                             ("dependencies", encode_deps dg)]);
         ("sources", JDict [])].

(** C1, as stated, fails: from the key [K] the search returns the cycle
    between [A] and [B]; its last edge, the one removed, re-enters [A] and
    not [K]. *)
Lemma removed_edge_need_not_reenter_key :
  In K1 (graph_keys deps_KAB) /\
  find_cycle (build_graph deps_KAB) K1 = Ok [(A1, B1); (B1, A1)] /\
  last_edge [(A1, B1); (B1, A1)] = Ok (B1, A1) /\
  snd (B1, A1) <> K1 /\
  (exists G', remove_cycles deps_KAB = Ok (G', [(B1, A1)])).
Proof.
  split; [left; reflexivity|].
  split; [vm_compute; reflexivity|].
  split; [reflexivity|].
  split; [discriminate|].
  eexists. vm_compute. reflexivity.
Qed.

(** C1 (amended): when [find_cycle] returns a cycle for the key being
    processed, the edge removed from the live graph is the last edge of the
    returned sequence; that edge re-enters the first node of the sequence,
    a node that the key reaches and that need not be the key; and the edge is
    appended to [cyclicDependencies[from.name][from.version]]. *)
Theorem removed_edge_is_last_of_cycle (G : DiGraph) (key : node)
    (cycle removed_edges : list edge) (fuel : nat) :
  find_cycle G key = Ok cycle ->
  exists l node_from node_to G',
    cycle = l ++ [(node_from, node_to)] /\
    (exists first rest, cycle = first :: rest /\ fst first = node_to) /\
    (key = node_to \/ path G key node_to) /\
    remove_edge G node_from node_to = Ok G' /\
    (forall u v, has_edge G' u v = true <->
                 has_edge G u v = true /\ (u, v) <> (node_from, node_to)) /\
    while_cycle (S fuel) G key removed_edges =
      while_cycle fuel G' key (removed_edges ++ [(node_from, node_to)]) /\
    ledger_at (cyclicDependencies (removed_edges ++ [(node_from, node_to)])) node_from =
      ledger_at (cyclicDependencies removed_edges) node_from ++ [node_to].
Proof.
  intros Hc.
  destruct (Search.find_cycle_sound _ _ _ Hc) as (Hne & n & Hw & Hreach).
  destruct (last_edge_some _ Hne) as (l & [node_from node_to] & E & Hlast).
  assert (Hlast' : has_edge G node_from node_to = true /\ node_to = n).
  { rewrite E in Hw. apply walk_last in Hw. exact Hw. }
  destruct Hlast' as [He Hto].
  destruct (remove_edge_ok _ _ _ He) as [G' HG'].
  exists l, node_from, node_to, G'.
  split; [exact E|]. split.
  { destruct cycle as [|first rest]; [congruence|].
    exists first, rest. split; [reflexivity|].
    destruct Hw as (Hf & _). congruence. }
  split; [rewrite Hto; exact Hreach|].
  split; [exact HG'|]. split.
  { intros u v. apply has_edge_remove_edge. exact HG'. }
  split.
  { cbn [while_cycle]. rewrite Hc, Hlast. cbn [bind]. rewrite HG'. reflexivity. }
  rewrite cyclicDependencies_snoc. apply record_removed_appends.
Qed.

Lemma removed_edge_is_last_of_cycle_witness :
  find_cycle (build_graph deps_KAB) K1 = Ok [(A1, B1); (B1, A1)] /\
  exists l node_from node_to G',
    [(A1, B1); (B1, A1)] = l ++ [(node_from, node_to)] /\
    remove_edge (build_graph deps_KAB) node_from node_to = Ok G'.
Proof.
  assert (H : find_cycle (build_graph deps_KAB) K1 = Ok [(A1, B1); (B1, A1)])
    by (vm_compute; reflexivity).
  split; [exact H|].
  destruct (removed_edge_is_last_of_cycle (build_graph deps_KAB) K1
              [(A1, B1); (B1, A1)] [] 0 H)
    as (l & node_from & node_to & G' & E & _ & _ & HG' & _).
  exists l, node_from, node_to, G'. split; assumption.
Defined.

(** C5, as stated, fails: the stage leaves [dependencies] as it was, with
    both edges of the cycle, so [A] still reaches itself there. *)
Lemma dependencies_map_keeps_cycle :
  clean_and_resolve (lock_of deps_AB) =
    Ok (JDict [("_generic", JDict [("mainPackageName", JStr "A");
                                   ("mainPackageVersion", JStr "1");
                                   ("dependencies", encode_deps deps_AB)]);
               ("sources", JDict []);
               ("cyclicDependencies", encode_deps [("B", [("1", [A1])])])]) /\
  path (build_graph deps_AB) A1 A1.
Proof.
  split; [vm_compute; reflexivity|].
  apply path_cons with (v := B1); [vm_compute; reflexivity|].
  apply path_edge. vm_compute. reflexivity.
Qed.

(** C5 (amended): for every dependency map, cyclic or not, the resolver
    ends, and the live graph it leaves is acyclic: no node reaches itself by
    one or more of its edges.  That graph has the edges of the dependency
    map except those that [cyclicDependencies] records under their origin. *)
Theorem live_graph_acyclic (dg : depGraph) :
  exists G' removed_edges,
    remove_cycles dg = Ok (G', removed_edges) /\
    acyclic G' /\
    (forall u v,
       has_edge G' u v = true <->
       In (u, v) (declared_edges dg) /\
       ~ In v (ledger_at (cyclicDependencies removed_edges) u)).
Proof.
  destruct (remove_cycles_spec dg) as (G' & removed & Hrun & Ha & He & _).
  exists G', removed. split; [exact Hrun|]. split; [exact Ha|].
  intros u v. rewrite ledger_at_removed. apply He.
Qed.

(** Without a cycle nothing is found, whatever the keys. *)
Lemma acyclic_no_removal (G : DiGraph) :
  acyclic G -> forall ks, for_keys G ks [] = Ok (G, []).
Proof.
  intros Ha ks.
  destruct (for_keys_spec ks G []) as (G' & r & Hrun & _ & _ & Hcyc & Hnil).
  destruct r as [|e r].
  - rewrite Hrun, (Hnil eq_refl). reflexivity.
  - destruct Hcyc as [n Hn]; [discriminate|]. exfalso. exact (Ha n Hn).
Qed.

(** C6: on a dependency map whose graph has no cycle the resolver removes
    nothing: the live graph is the graph built from the map and
    [cyclicDependencies] is empty.  And for every dependency map, running the
    loops again on the live graph they left removes nothing more. *)
Theorem resolver_noop_and_idempotent (dg : depGraph) :
  exists G' removed_edges,
    remove_cycles dg = Ok (G', removed_edges) /\
    (acyclic (build_graph dg) ->
       G' = build_graph dg /\ removed_edges = [] /\
       cyclicDependencies removed_edges = []) /\
    (forall ks, for_keys G' ks [] = Ok (G', [])).
Proof.
  destruct (remove_cycles_spec dg) as (G' & removed & Hrun & Ha & _ & _).
  exists G', removed. split; [exact Hrun|]. split.
  - intros Hacyc. unfold remove_cycles in Hrun.
    rewrite (acyclic_no_removal _ Hacyc) in Hrun. injection Hrun as <- <-.
    auto.
  - apply acyclic_no_removal. exact Ha.
Qed.

Lemma resolver_noop_and_idempotent_witness :
  acyclic (build_graph deps_chain) /\
  remove_cycles deps_chain = Ok (build_graph deps_chain, []) /\
  for_keys (build_graph deps_chain) (graph_keys deps_chain) [] =
    Ok (build_graph deps_chain, []).
Proof.
  assert (Hrun : remove_cycles deps_chain = Ok (build_graph deps_chain, []))
    by (vm_compute; reflexivity).
  assert (Hacyc : acyclic (build_graph deps_chain)).
  { destruct (remove_cycles_spec deps_chain) as (G' & removed & Hrun' & Ha & _).
    rewrite Hrun in Hrun'. injection Hrun' as <- _. exact Ha. }
  destruct (resolver_noop_and_idempotent deps_chain)
    as (G' & removed & Hrun' & Hnoop & Hidem).
  destruct (Hnoop Hacyc) as (EG & Er & _). subst G' removed.
  split; [exact Hacyc|]. split; [exact Hrun'|]. apply Hidem.
Defined.

End CycleResolver.

(** ** The clean-up stage on the lock *)

Module CleanUp.
Import Nx Graph Cycles Resolver DictFacts CycleResolver.

(** A lock where [A] at version [1] declares no dependency at all, [C] has
    no version, and [B] depends on [A]. *)
Definition lock_empty_list : json :=
  JDict [("_generic",
          JDict [("mainPackageName", JStr "B");
                 ("mainPackageVersion", JStr "1");
                 ("dependencies",
                  JDict [("A", JDict [("1", JList [])]);
                         ("C", JDict []);
                         ("B", JDict [("1", JList [encode_node A1])])])]);
         ("sources",
          JDict [("A", JDict [("1", JDict [("type", JStr "unknown")])])])].

(** C2 against the code: the loop of lines 296-298 tests the value kept
    under a package name, which is the map of its versions.  The entry
    [(A, 1)], whose dependency list is empty, stays in [dependencies]; only
    [C], which has no version, goes. *)
Theorem empty_dependency_list_is_kept :
  exists lock' generic' deps' versionsA,
    clean_and_resolve lock_empty_list = Ok lock' /\
    jget lock' "_generic" = Ok generic' /\
    jget generic' "dependencies" = Ok deps' /\
    jhas deps' "C" = Ok false /\
    jget deps' "A" = Ok versionsA /\
    jget versionsA "1" = Ok (JList []) /\
    jget lock' "sources" = jget lock_empty_list "sources".
Proof.
  do 4 eexists. vm_compute. repeat split; reflexivity.
Qed.

Lemma dict_get_del_neq {V : Type} (k k0 : string) (d : dict V) :
  k <> k0 -> dict_get k0 (dict_del k d) = dict_get k0 d.
Proof.
  intros Hne. induction d as [|[k' v'] d IH]; simpl; [reflexivity|].
  destruct (String.eqb_spec k' k) as [->|Hk]; simpl.
  - apply String.eqb_neq in Hne. rewrite Hne. reflexivity.
  - destruct (String.eqb k' k0); [reflexivity | exact IH].
Qed.

Lemma dict_get_In {V : Type} (k : string) (v v' : V) (d : dict V) :
  NoDup (map fst d) -> dict_get k d = Some v -> In (k, v') d -> v' = v.
Proof.
  induction d as [|[k0 v0] d IH]; simpl; [tauto|].
  intros Hnd Hget Hin. inversion Hnd as [|? ? Hk0 Hnd']; subst.
  destruct (String.eqb_spec k0 k) as [->|Hk].
  - destruct Hin as [[= ->]|Hin]; [congruence|].
    exfalso. apply Hk0. apply (in_map fst) in Hin. exact Hin.
  - destruct Hin as [[= -> _]|Hin]; [congruence | auto].
Qed.

(** In general: a package that has at least one version keeps its whole
    version map through the clean-up, whatever the dependency lists in it. *)
Lemma remove_empty_keeps_versions (d : dict json) (pname : string) (versions : json) :
  NoDup (map fst d) -> dict_get pname d = Some versions -> truthy versions = true ->
  dict_get pname (remove_empty d) = Some versions.
Proof.
  intros Hnd Hget Htrue. unfold remove_empty. rewrite <- Hget.
  assert (H : forall (l : list (string * json)) (acc : dict json),
    (forall kv, In kv l -> fst kv = pname -> truthy (snd kv) = true) ->
    dict_get pname
      (fold_left (fun a kv => if truthy (snd kv) then a else dict_del (fst kv) a) l acc)
    = dict_get pname acc).
  { induction l as [|[k v] l IH]; intros acc Hl; [reflexivity|].
    simpl. rewrite IH by (intros kv Hkv; apply Hl; right; exact Hkv).
    destruct (truthy v) eqn:Hv; [reflexivity|].
    apply dict_get_del_neq. intros ->.
    specialize (Hl (pname, v) (or_introl eq_refl) eq_refl). simpl in Hl. congruence. }
  apply H. intros [k v] Hin Hk. simpl in *. subst k.
  rewrite (dict_get_In _ _ _ _ Hnd Hget Hin). exact Htrue.
Qed.

(** C10: for a lock as the translator writes it (no [cyclicDependencies]
    yet, and [dependencies], where present, of the shape of the lock schema),
    the stage ends, and its result has the key [cyclicDependencies] exactly
    when [_generic] has the key [dependencies].  Without [dependencies] the
    lock is returned as it was; with it, [cyclicDependencies] is set to the
    ledger of the removed edges, the empty map when nothing was removed. *)
Theorem cyclicDependencies_iff_dependencies (lockd g : dict json) :
  dict_get "_generic" lockd = Some (JDict g) ->
  dict_has "cyclicDependencies" lockd = false ->
  (forall j, dict_get "dependencies" g = Some j ->
     exists d dg, j = JDict d /\ decode_deps (JDict (remove_empty d)) = Ok dg) ->
  exists lock',
    clean_and_resolve (JDict lockd) = Ok (JDict lock') /\
    dict_has "cyclicDependencies" lock' = dict_has "dependencies" g /\
    (dict_has "dependencies" g = false -> lock' = lockd) /\
    (dict_has "dependencies" g = true ->
       exists d dg G' removed_edges,
         dict_get "dependencies" g = Some (JDict d) /\
         decode_deps (JDict (remove_empty d)) = Ok dg /\
         remove_cycles dg = Ok (G', removed_edges) /\
         dict_get "cyclicDependencies" lock' =
           Some (encode_deps (cyclicDependencies removed_edges)) /\
         (removed_edges = [] ->
            dict_get "cyclicDependencies" lock' = Some (JDict []))).
Proof.
  intros Hgen Hnone Hshape.
  unfold clean_and_resolve. cbn [jget]. unfold getitem. rewrite Hgen.
  cbn [bind jhas jget]. unfold getitem.
  destruct (dict_has "dependencies" g) eqn:Hdeps.
  - destruct (proj1 (dict_has_get _ _) Hdeps) as [j Hj].
    destruct (Hshape j Hj) as (d & dg & -> & Hdec).
    destruct (remove_cycles_spec dg) as (G' & removed & Hrun & _).
    rewrite Hj. cbn [bind jset]. rewrite Hdec. cbn [bind]. rewrite Hrun. cbn [bind].
    eexists. split; [reflexivity|].
    split; [apply dict_has_set_eq|]. split; [discriminate|].
    intros _. exists d, dg, G', removed.
    split; [reflexivity|]. split; [exact Hdec|]. split; [exact Hrun|].
    split; [apply dict_get_set_eq|].
    intros ->. apply dict_get_set_eq.
  - exists lockd. split; [reflexivity|]. split; [exact Hnone|].
    split; [reflexivity | discriminate].
Qed.

Lemma cyclicDependencies_iff_dependencies_witness :
  exists lock',
    clean_and_resolve (lock_of deps_AB) = Ok (JDict lock') /\
    dict_has "cyclicDependencies" lock' = true.
Proof.
  destruct (cyclicDependencies_iff_dependencies
              [("_generic", JDict [("mainPackageName", JStr "A");
                                   ("mainPackageVersion", JStr "1");
                                   ("dependencies", encode_deps deps_AB)]);
               ("sources", JDict [])]
              [("mainPackageName", JStr "A");
               ("mainPackageVersion", JStr "1");
               ("dependencies", encode_deps deps_AB)])
    as (lock' & Hrun & Hiff & _).
  - reflexivity.
  - reflexivity.
  - intros j Hj. vm_compute in Hj. injection Hj as <-.
    do 2 eexists. split; [reflexivity|]. vm_compute. reflexivity.
  - exists lock'. split; [exact Hrun|]. rewrite Hiff. reflexivity.
Defined.

End CleanUp.

(** ** The extra arguments *)

Module ExtraArgsFacts.
Import ExtraArgs.

(** A translator that declares the flag [noDev] and nothing else. *)
Definition flag_only : dict extra_arg :=
  [("noDev", {| arg_type := "flag"; arg_default := None |})].

(** A name the translator does not declare ends the run with [exit(1)],
    before anything else is done, and the message names it. *)
Lemma unknown_name_exits (name : string) (extraArgs : dict extra_arg)
    (specified : dict string) (k : string) :
  In k (keys specified) -> dict_has k extraArgs = false ->
  exists msg,
    check_extra_args name extraArgs specified = ([msg], Raise (SystemExit 1)) /\
    In k (unknown_extra_args extraArgs specified).
Proof.
  intros Hk Hno.
  assert (Hin : In k (unknown_extra_args extraArgs specified)).
  { unfold unknown_extra_args. apply filter_In. rewrite Hno. auto. }
  unfold check_extra_args.
  destruct (unknown_extra_args extraArgs specified) as [|u us]; [contradiction|].
  eexists. split; [reflexivity | exact Hin].
Qed.

(** C3 against the code: a flag given the value [maybe] is reported on
    stderr, but the run goes on ([exit(1)] is missing after the [print]) and
    the comprehension of lines 190-192 turns the text into [True]. *)
Theorem unparsable_flag_is_not_fatal :
  check_extra_args "nodejs" flag_only [("noDev", "maybe")] =
    (["Invalid value maybe for argument noDev"], Ok [("noDev", ABool true)]).
Proof. reflexivity. Qed.

(** The same for every flag and every text that is none of the six words:
    the result is the boolean [bool(text)]. *)
Lemma unparsable_flag_becomes_bool (name argName argVal : string)
    (d : option argval) :
  in_words (lower argVal) yes_words = false ->
  in_words (lower argVal) no_words = false ->
  check_extra_args name [(argName, {| arg_type := "flag"; arg_default := d |})]
    [(argName, argVal)] =
  ([("Invalid value " ++ argVal ++ " for argument " ++ argName)%string],
   Ok [(argName, ABool (negb (String.eqb argVal "")))]).
Proof.
  intros Hy Hn.
  unfold check_extra_args, unknown_extra_args, dict_has, keys, flag_step, getitem.
  cbn -[in_words lower String.eqb String.append].
  rewrite !String.eqb_refl.
  cbn -[in_words lower String.eqb String.append].
  unfold flag_step, getitem.
  cbn -[in_words lower String.eqb String.append].
  rewrite !String.eqb_refl.
  cbn -[in_words lower String.eqb String.append].
  rewrite Hy, Hn.
  cbn -[in_words lower String.eqb String.append].
  unfold getitem.
  cbn -[in_words lower String.eqb String.append].
  rewrite !String.eqb_refl.
  cbn -[in_words lower String.eqb String.append].
  unfold getitem. cbn -[in_words lower String.eqb String.append].
  rewrite !String.eqb_refl. reflexivity.
Qed.

End ExtraArgsFacts.

(** ** The provenance stamp *)

Module StampFacts.
Import ExtraArgs Stamp.

Lemma append_assoc (a b c : string) : ((a ++ b) ++ c = a ++ (b ++ c))%string.
Proof. induction a as [|x a IH]; simpl; [reflexivity | rewrite IH; reflexivity]. Qed.

Lemma append_nil_r (a : string) : (a ++ "")%string = a.
Proof. induction a as [|x a IH]; simpl; [reflexivity | rewrite IH; reflexivity]. Qed.

(** [''.join(l)] *)
Fixpoint concat_all (l : list string) : string :=
  match l with
  | [] => ""
  | x :: l' => (x ++ concat_all l')%string
  end.

Lemma join_cons (sep x : string) (l : list string) :
  join sep (x :: l) = (x ++ concat_all (map (fun y => sep ++ y) l))%string.
Proof.
  revert x. induction l as [|y l IH]; intros x.
  - simpl. rewrite append_nil_r. reflexivity.
  - change (join sep (x :: y :: l)) with (x ++ sep ++ join sep (y :: l))%string.
    rewrite IH. simpl. rewrite append_assoc. reflexivity.
Qed.

Lemma concat_all_app (l1 l2 : list string) :
  concat_all (l1 ++ l2) = (concat_all l1 ++ concat_all l2)%string.
Proof.
  induction l1 as [|x l1 IH]; simpl; [reflexivity|].
  rewrite IH, append_assoc. reflexivity.
Qed.

Definition nodejs : translator :=
  {| subsystem := "nodejs"; type := "pure"; name := "package-lock" |}.

Definition args_ba : dict argval := [("b", AStr "2"); ("a", AStr "1")].
Definition args_ab : dict argval := [("a", AStr "1"); ("b", AStr "2")].

(** C4, as stated, fails: the arguments are rendered in the order in which
    the dictionary holds them.  The same mapping built in two orders gives
    two strings, and the one for [b] before [a] is not the sorted one. *)
Lemma translatorParams_follows_insertion_order :
  (forall k, dict_get k args_ba = dict_get k args_ab) /\
  translatorParams nodejs false args_ba =
    "--translator nodejs.pure.package-lock --arg b=2 --arg a=1" /\
  translatorParams nodejs false args_ab =
    "--translator nodejs.pure.package-lock --arg a=1 --arg b=2" /\
  translatorParams nodejs false args_ba <> spec_translatorParams nodejs false args_ba.
Proof.
  split; [|split; [reflexivity | split; [reflexivity | discriminate]]].
  intros k. unfold args_ba, args_ab. cbn -[String.eqb].
  destruct (String.eqb_spec "b" k) as [Eb|Hb];
    destruct (String.eqb_spec "a" k) as [Ea|Ha];
    try reflexivity; congruence.
Qed.

(** C4 (amended): [translatorParams] is the text [--translator] and the
    translator's identity, then [--combined] if the flag is set, then
    [--arg key=value] for each extra argument in the order of the mapping
    (its insertion order), with single spaces between. *)
Theorem translatorParams_deterministic (t : translator) (combined : bool)
    (specified_extra_args : dict argval) :
  translatorParams t combined specified_extra_args =
  ("--translator " ++ subsystem t ++ "." ++ type t ++ "." ++ name t
     ++ (if combined then " --combined" else "")
     ++ concat_all (map (fun nv => " --arg " ++ fst nv ++ "=" ++ py_str (snd nv))
                      specified_extra_args))%string.
Proof.
  unfold translatorParams, translatedBy.
  change (["--translator"; (subsystem t ++ "." ++ type t ++ "." ++ name t)%string]
            ++ (if combined then ["--combined"] else [])
            ++ map (fun nv => ("--arg " ++ fst nv ++ "=" ++ py_str (snd nv))%string)
                 specified_extra_args)
    with ("--translator" ::
            ([(subsystem t ++ "." ++ type t ++ "." ++ name t)%string]
               ++ (if combined then ["--combined"] else [])
               ++ map (fun nv => ("--arg " ++ fst nv ++ "=" ++ py_str (snd nv))%string)
                    specified_extra_args)).
  rewrite join_cons, !map_app, !concat_all_app, map_map.
  destruct combined; simpl; rewrite ?append_nil_r, ?append_assoc; simpl;
    rewrite ?append_assoc; reflexivity.
Qed.

End StampFacts.

(** ** The combined hash *)

Module CombinedHash.
Import ExtraArgs Stamp Cycles Json Reconcile DictFacts.

Lemma dict_get_map {A B : Type} (F : string -> A -> B) (k : string) (d : dict A) :
  dict_get k (map (fun kv => (fst kv, F (fst kv) (snd kv))) d) =
  option_map (F k) (dict_get k d).
Proof.
  induction d as [|[k' v] d IH]; simpl; [reflexivity|].
  destruct (String.eqb_spec k' k) as [->|Hk]; [reflexivity | exact IH].
Qed.

(** In a stripped source the field [hash], if there is one, is empty. *)
Lemma strip_source_hash (source : json) (d : dict json) (h : json) :
  strip_source source = JDict d -> dict_get "hash" d = Some h -> h = JStr "".
Proof.
  destruct source as [| | | | |sd]; try discriminate. simpl. intros [= <-].
  rewrite (dict_get_map (fun k v => if String.eqb k "hash" then JStr "" else v)).
  destruct (dict_get "hash" sd); simpl; congruence.
Qed.

Lemma strip_versions_get (versions : json) (d : dict json) (version : string)
    (source : json) :
  strip_versions versions = JDict d -> dict_get version d = Some source ->
  exists source0, source = strip_source source0.
Proof.
  destruct versions as [| | | | |vd]; try discriminate. simpl. intros [= <-].
  rewrite (dict_get_map (fun _ v => strip_source v)).
  destruct (dict_get version vd) as [s0|]; simpl; [|discriminate].
  intros [= <-]. eauto.
Qed.

Lemma strip_sources_get (sources : json) (d : dict json) (name : string)
    (versions : json) :
  strip_sources sources = JDict d -> dict_get name d = Some versions ->
  exists versions0, versions = strip_versions versions0.
Proof.
  destruct sources as [| | | | |sd]; try discriminate. simpl. intros [= <-].
  rewrite (dict_get_map (fun _ v => strip_versions v)).
  destruct (dict_get name sd) as [v0|]; simpl; [|discriminate].
  intros [= <-]. eauto.
Qed.

(** Every [sources[name][version].hash] of the lock is the empty string. *)
Definition hashes_empty (lock : json) : Prop :=
  forall sources name versions version source h,
    jget lock "sources" = Ok (JDict sources) ->
    dict_get name sources = Some (JDict versions) ->
    dict_get version versions = Some (JDict source) ->
    dict_get "hash" source = Some h ->
    h = JStr "".

Lemma strip_hashes_empty (lockd : dict json) (v : json) :
  hashes_empty
    (JDict (dict_set "_generic" v
              (map (fun kv => (fst kv, if String.eqb (fst kv) "sources"
                                       then strip_sources (snd kv) else snd kv))
                 lockd))).
Proof.
  intros sources name versions version source h Hs Hn Hv Hh.
  simpl in Hs. unfold getitem in Hs.
  rewrite dict_get_set_neq in Hs by discriminate.
  rewrite (dict_get_map (fun k v => if String.eqb k "sources"
                                    then strip_sources v else v)) in Hs.
  destruct (dict_get "sources" lockd) as [s0|]; simpl in Hs; [|discriminate].
  injection Hs as Hs.
  destruct (strip_sources_get _ _ _ _ Hs Hn) as [v0 Hv0].
  destruct (strip_versions_get _ _ _ _ (eq_sym Hv0) Hv) as [src0 Hsrc0].
  exact (strip_source_hash _ _ _ (eq_sym Hsrc0) Hh).
Qed.

Lemma upto_last_eq_nonempty (s g : text) : upto_last_eq s = Some g -> g <> [].
Proof.
  destruct s as [|c s]; simpl; [discriminate|].
  destruct (upto_last_eq s); [intros [= <-]; discriminate|].
  destruct (Ascii.eqb c "="); [intros [= <-]; discriminate | discriminate].
Qed.

Lemma search_fod_nonempty (log hash : text) :
  search_fod log = Some hash -> hash <> [].
Proof.
  induction log as [|c log IH]; [discriminate|].
  cbn [search_fod].
  destruct (starts_with (chars "FOD_PATH=") (c :: log)); [|exact IH].
  destruct (upto_last_eq (line (skipn 9 (c :: log)))) as [g|] eqn:Hg; [|exact IH].
  intros [= <-]. eapply upto_last_eq_nonempty. exact Hg.
Qed.

Section Claims.

Variable nix_build_stderr : text -> text.

(** C7: in combined-hash mode the lock handed to the oracle, the one written
    to the output file after the stripping step, has every per-source hash
    field empty and [sourcesCombinedHash] equal to the empty string; when the
    marker is found in the log of the oracle, the stage returns a lock whose
    [sourcesCombinedHash] is exactly the text recovered, and that text is
    not empty. *)
Theorem combined_hash_protocol (lockd g : dict json) :
  dict_get "_generic" lockd = Some (JDict g) ->
  exists stripped gs,
    fst (combined_hash nix_build_stderr (JDict lockd)) = Some (dumps false stripped) /\
    hashes_empty stripped /\
    jget stripped "_generic" = Ok (JDict gs) /\
    dict_get "sourcesCombinedHash" gs = Some (JStr "") /\
    (forall hash,
       search_fod (nix_build_stderr (dumps false stripped)) = Some hash ->
       exists final gf,
         snd (combined_hash nix_build_stderr (JDict lockd)) = Ok final /\
         jget final "_generic" = Ok (JDict gf) /\
         dict_get "sourcesCombinedHash" gf = Some (JStr (string_of_list_ascii hash)) /\
         string_of_list_ascii hash <> "").
Proof.
  intros Hg.
  set (F := fun kv : string * json =>
              (fst kv, if String.eqb (fst kv) "sources"
                       then strip_sources (snd kv) else snd kv)).
  assert (Hg1 : dict_get "_generic" (map F lockd) = Some (JDict g)).
  { unfold F.
    rewrite (dict_get_map (fun k v => if String.eqb k "sources"
                                      then strip_sources v else v)), Hg.
    reflexivity. }
  set (gs := dict_set "sourcesCombinedHash" (JStr "") g).
  set (stripped := JDict (dict_set "_generic" (JDict gs) (map F lockd))).
  assert (Hrun : forall log,
    combined_hash (fun _ => log) (JDict lockd) =
    match search_fod log with
    | None => (Some (dumps false stripped),
               Raise (Exception "Could not find FOD hash in FOD log"))
    | Some hash =>
        (Some (dumps false stripped),
         Ok (JDict (dict_set "_generic"
                      (JDict (dict_set "sourcesCombinedHash"
                                (JStr (string_of_list_ascii hash)) gs))
                      (dict_set "_generic" (JDict gs) (map F lockd)))))
    end).
  { intros log. unfold combined_hash. cbn [strip_hashes_from_lock jget].
    fold F. unfold getitem. rewrite Hg1. cbn [bind jset].
    fold gs.
    destruct (search_fod log); [|reflexivity].
    cbn [jget bind jset]. unfold getitem. rewrite dict_get_set_eq. reflexivity. }
  assert (Hrun' : combined_hash nix_build_stderr (JDict lockd) =
                  combined_hash (fun _ => nix_build_stderr (dumps false stripped))
                    (JDict lockd)).
  { unfold combined_hash. cbn [strip_hashes_from_lock jget].
    fold F. unfold getitem. rewrite Hg1. cbn [bind jset]. reflexivity. }
  exists stripped, gs.
  rewrite Hrun', Hrun.
  split; [destruct (search_fod _); reflexivity|].
  split; [apply strip_hashes_empty|].
  split; [unfold stripped; cbn [jget]; unfold getitem;
          rewrite dict_get_set_eq; reflexivity|].
  split; [apply dict_get_set_eq|].
  intros hash Hhash. rewrite Hhash. eexists. eexists.
  split; [reflexivity|].
  split; [cbn [jget]; unfold getitem; rewrite dict_get_set_eq; reflexivity|].
  split; [apply dict_get_set_eq|].
  pose proof (search_fod_nonempty _ _ Hhash) as Hne.
  destruct hash; [congruence | discriminate].
Qed.

End Claims.

(** A lock with one hashed source, and a log of the oracle with the marker. *)
Definition lock_hashed : dict json :=
  [("_generic", JDict [("mainPackageName", JStr "A");
                       ("mainPackageVersion", JStr "1")]);
   ("sources",
    JDict [("B", JDict [("1", JDict [("type", JStr "fetchurl");
                                     ("hash", JStr "sha256-abc=")])])])].

Definition log_with_marker : text :=
  chars "hash mismatch in fixed-output derivation FOD_PATH=sha256-xyz= got".

Lemma combined_hash_protocol_witness :
  exists final gf,
    snd (combined_hash (fun _ => log_with_marker) (JDict lock_hashed)) = Ok final /\
    jget final "_generic" = Ok (JDict gf) /\
    dict_get "sourcesCombinedHash" gf = Some (JStr "sha256-xyz=").
Proof.
  destruct (combined_hash_protocol (fun _ => log_with_marker) lock_hashed
              [("mainPackageName", JStr "A"); ("mainPackageVersion", JStr "1")]
              eq_refl)
    as (stripped & gs & _ & _ & _ & _ & Hfinal).
  destruct (Hfinal (chars "sha256-xyz=") eq_refl) as (final & gf & H1 & H2 & H3 & _).
  exists final, gf. split; [exact H1|]. split; [exact H2 | exact H3].
Defined.

End CombinedHash.

(** ** The output file on the failure paths *)

Module OutputFile.
Import ExtraArgs Stamp Cycles Json Reconcile DictFacts.

(** What the combined-hash stage has written before it raises. *)
Lemma combined_hash_written (nix_build_stderr : text -> text) (lock : json)
    (written : text) (r : result json) :
  combined_hash nix_build_stderr lock = (Some written, r) ->
  exists stripped gs,
    written = dumps false stripped /\
    jget stripped "_generic" = Ok (JDict gs) /\
    dict_get "sourcesCombinedHash" gs = Some (JStr "").
Proof.
  unfold combined_hash.
  destruct (jget (strip_hashes_from_lock lock) "_generic") as [generic| |] eqn:Hg;
    cbn [bind]; try discriminate.
  destruct generic as [| | | | |gd]; cbn [jset bind]; try discriminate.
  destruct (strip_hashes_from_lock lock) as [| | | | |ld]; cbn [jset bind];
    try discriminate.
  set (gs := dict_set "sourcesCombinedHash" (JStr "") gd).
  intros H.
  exists (JDict (dict_set "_generic" (JDict gs) ld)), gs.
  split.
  - destruct (search_fod _); injection H as <- _; reflexivity.
  - split; [|apply dict_get_set_eq].
    cbn [jget]. unfold getitem. rewrite dict_get_set_eq. reflexivity.
Qed.

Section Claims.

Variable nix_build_stderr : text -> text.
Variable checkLockJSON : json -> result unit.

(** C9 (amended): when the run ends with an exception, nothing is removed
    from the output location and nothing is put back: it holds what it held
    when the translator had run, or, if the combined-hash stage had already
    written it, the hash-stripped lock with an empty [sourcesCombinedHash]. *)
Theorem failed_run_leaves_file (t : translator) (combined : bool)
    (specified_extra_args : dict argval) (sourceSpec : dict json)
    (outputDreamLock after : option text) (e : exn) :
  reconcile nix_build_stderr checkLockJSON t combined specified_extra_args
    sourceSpec outputDreamLock = (after, Raise e) ->
  after = outputDreamLock \/
  (combined = true /\
   exists stripped gs,
     after = Some (dumps false stripped) /\
     jget stripped "_generic" = Ok (JDict gs) /\
     dict_get "sourcesCombinedHash" gs = Some (JStr "")).
Proof.
  unfold reconcile. destruct outputDreamLock as [produced|].
  2: { intros [= <- _]. left. reflexivity. }
  destruct (lock <- loads produced ;;
            lock1 <- stamp t combined specified_extra_args lock ;;
            lock2 <- add_main_source sourceSpec lock1 ;;
            clean_and_resolve lock2) as [lock| |].
  2: { intros [= <- _]. left. reflexivity. }
  2: { discriminate. }
  destruct combined.
  - destruct (combined_hash nix_build_stderr lock) as [[written|] r] eqn:Hc.
    + intros H. right. split; [reflexivity|].
      destruct (combined_hash_written _ _ _ _ Hc) as (stripped & gs & -> & H1 & H2).
      exists stripped, gs. split; [|split; assumption].
      destruct r as [lock'| |]; [destruct (checkLockJSON lock')| |];
        congruence.
    + intros H. left.
      destruct r as [lock'| |]; [destruct (checkLockJSON lock')| |];
        congruence.
  - intros H. left. destruct (checkLockJSON lock); congruence.
Qed.

End Claims.

(** The translator's file for the example of the specification, with one
    hashed source, and an oracle whose log has no marker. *)
Definition produced : text :=
  dumps false
    (JDict [("_generic",
             JDict [("mainPackageName", JStr "A");
                    ("mainPackageVersion", JStr "1");
                    ("dependencies", encode_deps CycleResolver.deps_AB)]);
            ("sources",
             JDict [("B", JDict [("1", JDict [("type", JStr "fetchurl");
                                              ("hash", JStr "sha256-abc=")])])])]).

Definition failing_build (written : text) : text :=
  chars "error: cannot build the derivation".

Definition run_without_marker : option text * result json :=
  reconcile failing_build (fun _ => Ok tt) StampFacts.nodejs true
    StampFacts.args_ab [] (Some produced).

(** C9, as stated, fails: the marker is absent, the run ends with the
    exception, and the output location holds a document that parses as a
    lock, with its hashes stripped and [sourcesCombinedHash] empty: neither
    the final lock nor nothing. *)
Lemma stripped_lock_left_behind :
  exists written stripped gs,
    run_without_marker =
      (Some written, Raise (Exception "Could not find FOD hash in FOD log")) /\
    loads written = Ok stripped /\
    jget stripped "_generic" = Ok (JDict gs) /\
    dict_get "sourcesCombinedHash" gs = Some (JStr "") /\
    written <> produced.
Proof.
  do 3 eexists. split; [vm_compute; reflexivity|].
  split; [vm_compute; reflexivity|].
  split; [vm_compute; reflexivity|].
  split; [vm_compute; reflexivity|].
  vm_compute. discriminate.
Qed.

Lemma failed_run_leaves_file_witness :
  exists after,
    run_without_marker =
      (after, Raise (Exception "Could not find FOD hash in FOD log")) /\
    (after = Some produced \/
     exists stripped gs,
       after = Some (dumps false stripped) /\
       jget stripped "_generic" = Ok (JDict gs) /\
       dict_get "sourcesCombinedHash" gs = Some (JStr "")).
Proof.
  destruct run_without_marker as [after r] eqn:Hrun.
  assert (Hr : r = Raise (Exception "Could not find FOD hash in FOD log")).
  { vm_compute in Hrun. injection Hrun as _ <-. reflexivity. }
  subst r. exists after. split; [reflexivity|].
  destruct (failed_run_leaves_file failing_build (fun _ => Ok tt)
              StampFacts.nodejs true StampFacts.args_ab [] (Some produced)
              after _ Hrun) as [H|[_ H]]; [left | right]; exact H.
Defined.

End OutputFile.

(** ** json: the scanner reads what the encoder writes *)

Module Scanner.
Import Json.

(** Induction on a value, with the hypothesis for every member. *)
Lemma json_ind' (P : json -> Prop)
    (Hnull : P JNull) (Hbool : forall b, P (JBool b))
    (Hint : forall z, P (JInt z)) (Hstr : forall s, P (JStr s))
    (Hlist : forall l, (forall x, In x l -> P x) -> P (JList l))
    (Hdict : forall d, (forall kv, In kv d -> P (snd kv)) -> P (JDict d)) :
  forall j, P j.
Proof.
  fix IH 1. intros [| b | z | s | l | d].
  - exact Hnull.
  - apply Hbool.
  - apply Hint.
  - apply Hstr.
  - apply Hlist. induction l as [|x l IHl]; intros y Hy.
    + destruct Hy.
    + destruct Hy as [E|Hin].
      * rewrite <- E. apply IH.
      * apply IHl. exact Hin.
  - apply Hdict. induction d as [|[k v] d IHd]; intros y Hy.
    + destruct Hy.
    + destruct Hy as [E|Hin].
      * rewrite <- E. apply IH.
      * apply IHd. exact Hin.
Qed.

Lemma run_app (s1 s2 : text) : forall st,
  run st (s1 ++ s2) =
  match run st s1 with
  | None => None
  | Some (st1, ts1) =>
      match run st1 s2 with
      | None => None
      | Some (st2, ts2) => Some (st2, ts1 ++ ts2)
      end
  end.
Proof.
  induction s1 as [|c s1 IH]; intros st; simpl.
  - destruct (run st s2) as [[st2 ts2]|]; reflexivity.
  - destruct (step st c) as [[st1 ts1]|]; [|reflexivity].
    rewrite IH. destruct (run st1 s1) as [[st1' ts1']|]; [|reflexivity].
    destruct (run st1' s2) as [[st2 ts2]|]; [|reflexivity].
    rewrite app_assoc. reflexivity.
Qed.

(** Scanning from a state to the end of the text. *)
Definition scan_from (st : lstate) (s : text) : option (list token) :=
  match run st s with
  | None => None
  | Some (st', ts) =>
      match finish st' with
      | None => None
      | Some ts' => Some (ts ++ ts')
      end
  end.

Lemma scan_from_app (st st1 : lstate) (s1 s2 : text) (ts1 : list token) :
  run st s1 = Some (st1, ts1) ->
  scan_from st (s1 ++ s2) = option_map (app ts1) (scan_from st1 s2).
Proof.
  intros H. unfold scan_from. rewrite run_app, H.
  destruct (run st1 s2) as [[st2 ts2]|]; [|reflexivity].
  destruct (finish st2); simpl; [rewrite app_assoc|]; reflexivity.
Qed.

Lemma run_cons (st st1 : lstate) (c : ascii) (s : text) (ts1 : list token) :
  step st c = Some (st1, ts1) ->
  run st (c :: s) =
  match run st1 s with
  | None => None
  | Some (st2, ts2) => Some (st2, ts1 ++ ts2)
  end.
Proof. intros H. cbn [run]. rewrite H. reflexivity. Qed.

(** Blanks between two tokens are passed over. *)
Lemma run_spaces (n : nat) : run Between (repeat " "%char n) = Some (Between, []).
Proof.
  induction n as [|n IH]; [reflexivity|].
  cbn [repeat]. rewrite (run_cons Between Between _ _ []) by reflexivity.
  rewrite IH. reflexivity.
Qed.

Lemma run_newline_indent (level : nat) :
  run Between (newline_indent level) = Some (Between, []).
Proof.
  unfold newline_indent. rewrite (run_cons Between Between _ _ []) by reflexivity.
  rewrite run_spaces. reflexivity.
Qed.

(** An escape sequence gives back the character it stands for. *)
Lemma run_escape_char (c : ascii) (acc : text) :
  run (InStr acc) (escape_char c) = Some (InStr (acc ++ [c]), []).
Proof.
  destruct c as [[|] [|] [|] [|] [|] [|] [|] [|]]; reflexivity.
Qed.

Lemma run_escaped (l : text) : forall acc,
  run (InStr acc) (flat_map escape_char l) = Some (InStr (acc ++ l), []).
Proof.
  induction l as [|c l IH]; intros acc; cbn [flat_map].
  - rewrite app_nil_r. reflexivity.
  - rewrite run_app, run_escape_char, IH, <- app_assoc. reflexivity.
Qed.

Lemma run_encode_str (s : string) :
  run Between (encode_str s) = Some (Between, [TStr s]).
Proof.
  unfold encode_str.
  rewrite (run_cons Between (InStr []) _ _ []) by reflexivity.
  rewrite run_app, run_escaped. cbn [app].
  rewrite (run_cons (InStr (list_ascii_of_string s)) Between _ _
             [TStr (string_of_list_ascii (list_ascii_of_string s))])
    by reflexivity.
  rewrite string_of_list_ascii_of_string. reflexivity.
Qed.

(** A character of a number or a literal: no blank, no bracket, colon or
    comma, no quote. *)
Definition word_char (c : ascii) : bool :=
  negb (is_space c)
  && match punct c with Some _ => false | None => true end
  && negb (Ascii.eqb c quote).

Lemma step_word_char (st : lstate) (c : ascii) :
  word_char c = true ->
  step st c =
  match st with
  | Between => Some (InWord [c], [])
  | InWord w => Some (InWord (w ++ [c]), [])
  | _ => step st c
  end.
Proof.
  unfold word_char. intros H.
  apply andb_true_iff in H. destruct H as [H Hq].
  apply andb_true_iff in H. destruct H as [Hs Hp].
  apply negb_true_iff in Hs, Hq.
  destruct st; try reflexivity; unfold step; rewrite Hs;
    destruct (punct c); try discriminate; rewrite Hq; reflexivity.
Qed.

Lemma run_word_more (w : text) : forall acc,
  forallb word_char w = true ->
  run (InWord acc) w = Some (InWord (acc ++ w), []).
Proof.
  induction w as [|c w IH]; intros acc H.
  - rewrite app_nil_r. reflexivity.
  - simpl in H. apply andb_true_iff in H. destruct H as [Hc Hw].
    rewrite (run_cons (InWord acc) (InWord (acc ++ [c])) _ _ [])
      by (rewrite (step_word_char _ _ Hc); reflexivity).
    rewrite (IH _ Hw), <- app_assoc. reflexivity.
Qed.

Lemma run_word (c : ascii) (w : text) :
  forallb word_char (c :: w) = true ->
  run Between (c :: w) = Some (InWord (c :: w), []).
Proof.
  intros H. simpl in H. apply andb_true_iff in H. destruct H as [Hc Hw].
  rewrite (run_cons Between (InWord [c]) _ _ [])
    by (rewrite (step_word_char _ _ Hc); reflexivity).
  rewrite (run_word_more _ _ Hw). reflexivity.
Qed.

(** What may follow a value: the end of the text, a blank or a punctuation
    mark. *)
Definition closing (rest : text) : Prop :=
  match rest with
  | [] => True
  | c :: _ => is_space c = true \/ punct c <> None
  end.

Lemma scan_word_end (w rest : text) :
  closing rest ->
  scan_from (InWord w) rest = option_map (cons (TWord w)) (scan_from Between rest).
Proof.
  destruct rest as [|c rest]; [reflexivity|].
  intros Hc. unfold scan_from. cbn [run].
  assert (Hstep : exists ts, step Between c = Some (Between, ts) /\
                             step (InWord w) c = Some (Between, TWord w :: ts)).
  { unfold step. destruct Hc as [Hs|Hp].
    - rewrite Hs. eexists. split; reflexivity.
    - destruct (is_space c); [eexists; split; reflexivity|].
      destruct (punct c); [|congruence]. eexists. split; reflexivity. }
  destruct Hstep as (ts & -> & ->).
  destruct (run Between rest) as [[st2 ts2]|]; [|reflexivity].
  destruct (finish st2); reflexivity.
Qed.

(** [item] is scanned as the tokens [toks], whatever follows it. *)
Definition scans_as (item : text) (toks : list token) : Prop :=
  forall rest ts,
    closing rest -> scan_from Between rest = Some ts ->
    scan_from Between (item ++ rest) = Some (toks ++ ts).

Lemma scans_as_word (c : ascii) (w : text) :
  forallb word_char (c :: w) = true -> scans_as (c :: w) [TWord (c :: w)].
Proof.
  intros Hw rest ts Hc Hrest.
  rewrite (scan_from_app _ _ _ _ _ (run_word _ _ Hw)).
  rewrite (scan_word_end _ _ Hc), Hrest. reflexivity.
Qed.

Lemma scans_as_str (s : string) : scans_as (encode_str s) [TStr s].
Proof.
  intros rest ts _ Hrest.
  rewrite (scan_from_app _ _ _ _ _ (run_encode_str s)), Hrest. reflexivity.
Qed.

(** The digits of an integer. *)
Lemma uint_word_chars (d : Decimal.uint) :
  forallb word_char (chars (NilEmpty.string_of_uint d)) = true.
Proof.
  induction d; simpl; try rewrite IHd; reflexivity.
Qed.

Lemma int_str_word (z : Z) :
  exists c w, int_str z = c :: w /\ forallb word_char (c :: w) = true /\
              (nat_of_ascii c = 45 \/ (48 <= nat_of_ascii c <= 57)).
Proof.
  unfold int_str.
  assert (Hu : forall d, exists c w,
    chars (NilZero.string_of_uint d) = c :: w /\
    forallb word_char (c :: w) = true /\ 48 <= nat_of_ascii c <= 57).
  { intros d. pose proof (uint_word_chars d) as H.
    destruct d; simpl in *; do 2 eexists;
      (split; [reflexivity|]);
      (split; [try reflexivity; exact H
              | split; apply Nat.leb_le; reflexivity]). }
  destruct (Z.to_int z) as [d|d]; simpl.
  - destruct (Hu d) as (c & w & E & H & Hc). exists c, w. auto.
  - destruct (Hu d) as (c & w & E & H & Hc).
    exists "-"%char, (chars (NilZero.string_of_uint d)).
    split; [reflexivity|]. split; [|left; reflexivity].
    rewrite E. simpl. simpl in H. exact H.
Qed.

(** The tokens of a value, as [encode] lays it out. *)
Fixpoint sep_tokens (close : token) (items : list (list token)) : list token :=
  match items with
  | [] => [close]
  | x :: rest =>
      x ++ match rest with
           | [] => [close]
           | _ :: _ => TComma :: sep_tokens close rest
           end
  end.

Fixpoint tokens (sort_keys : bool) (o : json) : list token :=
  match o with
  | JNull => [TWord (chars "null")]
  | JBool true => [TWord (chars "true")]
  | JBool false => [TWord (chars "false")]
  | JInt z => [TWord (int_str z)]
  | JStr s => [TStr s]
  | JList l => TLBrack :: sep_tokens TRBrack (map (tokens sort_keys) l)
  | JDict d =>
      let rendered := map (fun kv => (fst kv, tokens sort_keys (snd kv))) d in
      let items := if sort_keys then sorted_items rendered else rendered in
      TLBrace :: sep_tokens TRBrace
                   (map (fun kt => TStr (fst kt) :: TColon :: snd kt) items)
  end.

Lemma insert_item_map {A B : Type} (f : A -> B) (kv : string * A)
    (l : list (string * A)) :
  insert_item (fst kv, f (snd kv)) (map (fun x => (fst x, f (snd x))) l) =
  map (fun x => (fst x, f (snd x))) (insert_item kv l).
Proof.
  induction l as [|x l IH]; simpl; [reflexivity|].
  destruct (String.leb (fst kv) (fst x)); simpl; [reflexivity|].
  rewrite IH. reflexivity.
Qed.

(** Sorting looks at the keys only. *)
Lemma sorted_items_map {A B : Type} (f : A -> B) (l : list (string * A)) :
  sorted_items (map (fun x => (fst x, f (snd x))) l) =
  map (fun x => (fst x, f (snd x))) (sorted_items l).
Proof.
  unfold sorted_items. induction l as [|x l IH]; simpl; [reflexivity|].
  rewrite IH. apply insert_item_map.
Qed.

Lemma insert_item_perm {A : Type} (kv : string * A) (l : list (string * A)) :
  Permutation (insert_item kv l) (kv :: l).
Proof.
  induction l as [|x l IH]; simpl; [apply Permutation_refl|].
  destruct (String.leb (fst kv) (fst x)); [apply Permutation_refl|].
  eapply perm_trans; [apply perm_skip; exact IH | apply perm_swap].
Qed.

Lemma sorted_items_perm {A : Type} (l : list (string * A)) :
  Permutation (sorted_items l) l.
Proof.
  unfold sorted_items. induction l as [|x l IH]; simpl; [constructor|].
  eapply perm_trans; [apply insert_item_perm | apply perm_skip; exact IH].
Qed.

(** The items of a dictionary in the order in which they are written. *)
Definition ordered (sort_keys : bool) (d : list (string * json))
    : list (string * json) :=
  if sort_keys then sorted_items d else d.

Lemma In_ordered (sort_keys : bool) (d : list (string * json)) (kv : string * json) :
  In kv (ordered sort_keys d) -> In kv d.
Proof.
  destruct sort_keys; simpl; [|auto].
  apply Permutation_in. apply sorted_items_perm.
Qed.

Lemma ordered_nil (sort_keys : bool) (d : list (string * json)) :
  ordered sort_keys d = [] -> d = [].
Proof.
  destruct sort_keys; simpl; [|auto].
  intros H. apply Permutation_nil. rewrite <- H. apply sorted_items_perm.
Qed.

Lemma encode_dict (sort_keys : bool) (level : nat) (kv : string * json)
    (d : list (string * json)) :
  encode sort_keys level (JDict (kv :: d)) =
  chars "{"
    ++ body level
         (map (fun x => encode_str (fst x) ++ chars ": "
                          ++ encode sort_keys (S level) (snd x))
            (ordered sort_keys (kv :: d)))
    ++ chars "}".
Proof.
  cbn [encode]. f_equal. f_equal.
  change ((fst kv, encode sort_keys (S level) (snd kv))
            :: map (fun x => (fst x, encode sort_keys (S level) (snd x))) d)
    with (map (fun x => (fst x, encode sort_keys (S level) (snd x))) (kv :: d)).
  destruct sort_keys; unfold ordered.
  - rewrite (sorted_items_map (encode true (S level))), map_map. reflexivity.
  - rewrite map_map. reflexivity.
Qed.

Lemma tokens_dict (sort_keys : bool) (d : list (string * json)) :
  tokens sort_keys (JDict d) =
  TLBrace :: sep_tokens TRBrace
               (map (fun x => TStr (fst x) :: TColon :: tokens sort_keys (snd x))
                  (ordered sort_keys d)).
Proof.
  cbn [tokens]. f_equal. f_equal.
  destruct sort_keys; unfold ordered.
  - rewrite (sorted_items_map (tokens true)), map_map. reflexivity.
  - rewrite map_map. reflexivity.
Qed.

Lemma scan_punct (c : ascii) (t : token) (rest : text) :
  step Between c = Some (Between, [t]) ->
  scan_from Between (c :: rest) = option_map (cons t) (scan_from Between rest).
Proof.
  intros H. change (c :: rest) with ([c] ++ rest).
  rewrite (scan_from_app Between Between [c] rest [t]); [reflexivity|].
  cbn [run]. rewrite H. reflexivity.
Qed.

Lemma scan_comma (rest : text) :
  scan_from Between (chars "," ++ rest) =
  option_map (cons TComma) (scan_from Between rest).
Proof. apply (scan_punct ","%char TComma). reflexivity. Qed.

Lemma scan_newline_indent (level : nat) (rest : text) :
  scan_from Between (newline_indent level ++ rest) = scan_from Between rest.
Proof.
  rewrite (scan_from_app _ _ _ _ _ (run_newline_indent level)).
  destruct (scan_from Between rest); reflexivity.
Qed.

Lemma closing_newline_indent (level : nat) (rest : text) :
  closing (newline_indent level ++ rest).
Proof. left. reflexivity. Qed.

Section Body.

Variables (level : nat) (close_c : ascii) (close_t : token) (rest : text)
  (ts : list token).
Hypothesis Hclose : step Between close_c = Some (Between, [close_t]).
Hypothesis Hrest : scan_from Between rest = Some ts.

Lemma scans_items : forall others toks_others,
  Forall2 scans_as others toks_others ->
  forall first toks_first,
  scans_as first toks_first ->
  scan_from Between
    (first
       ++ flat_map (fun item => chars "," ++ newline_indent (S level) ++ item) others
       ++ newline_indent level ++ close_c :: rest) =
  Some (sep_tokens close_t (toks_first :: toks_others) ++ ts).
Proof.
  induction 1 as [|o to os tos Ho Hos IH]; intros first toks_first Hfirst.
  - cbn [flat_map app sep_tokens].
    rewrite (Hfirst _ (close_t :: ts)).
    + f_equal. exact (app_assoc toks_first [close_t] ts).
    + apply closing_newline_indent.
    + rewrite scan_newline_indent, (scan_punct _ _ _ Hclose), Hrest. reflexivity.
  - cbn [flat_map sep_tokens]. rewrite <- !app_assoc.
    rewrite (Hfirst _ (TComma :: sep_tokens close_t (to :: tos) ++ ts)).
    + reflexivity.
    + right. discriminate.
    + rewrite scan_comma, scan_newline_indent, (IH _ _ Ho). reflexivity.
Qed.

Lemma scans_body (first : text) (others : list text) (toks_first : list token)
    (toks_others : list (list token)) :
  scans_as first toks_first ->
  Forall2 scans_as others toks_others ->
  scan_from Between (body level (first :: others) ++ close_c :: rest) =
  Some (sep_tokens close_t (toks_first :: toks_others) ++ ts).
Proof.
  intros Hfirst Hothers. unfold body. rewrite <- !app_assoc.
  rewrite scan_newline_indent. apply scans_items; assumption.
Qed.

End Body.

Lemma Forall2_map_same {A B C : Type} (R : B -> C -> Prop) (f : A -> B)
    (g : A -> C) (l : list A) :
  (forall x, In x l -> R (f x) (g x)) -> Forall2 R (map f l) (map g l).
Proof.
  induction l as [|x l IH]; intros H; simpl; constructor.
  - apply H. left. reflexivity.
  - apply IH. intros y Hy. apply H. right. exact Hy.
Qed.

Lemma scans_as_member (k : string) (item : text) (toks : list token) :
  scans_as item toks ->
  scans_as (encode_str k ++ chars ": " ++ item) (TStr k :: TColon :: toks).
Proof.
  intros Hitem rest ts Hc Hrest. rewrite <- !app_assoc.
  rewrite (scan_from_app _ _ _ _ _ (run_encode_str k)).
  rewrite (scan_from_app Between Between (chars ": ") _ [TColon]) by reflexivity.
  rewrite (Hitem _ _ Hc Hrest). reflexivity.
Qed.

(** The scanner reads the text of a value as its tokens. *)
Lemma scans_as_encode (sort_keys : bool) : forall o level,
  scans_as (encode sort_keys level o) (tokens sort_keys o).
Proof.
  induction o as [| b | z | s | l IH | d IH] using json_ind'; intros level.
  - apply (scans_as_word "n"%char (chars "ull")). reflexivity.
  - destruct b.
    + apply (scans_as_word "t"%char (chars "rue")). reflexivity.
    + apply (scans_as_word "f"%char (chars "alse")). reflexivity.
  - cbn [encode tokens]. destruct (int_str_word z) as (c & w & -> & Hw & _).
    apply scans_as_word. exact Hw.
  - apply scans_as_str.
  - destruct l as [|x l].
    + intros rest ts _ Hrest. cbn [encode tokens map sep_tokens chars
                                     list_ascii_of_string app].
      rewrite (scan_punct "["%char TLBrack) by reflexivity.
      rewrite (scan_punct "]"%char TRBrack) by reflexivity.
      rewrite Hrest. reflexivity.
    + intros rest ts _ Hrest. cbn [encode tokens map chars list_ascii_of_string].
      rewrite <- !app_assoc. cbn [app].
      rewrite (scan_punct "["%char TLBrack) by reflexivity.
      rewrite (scans_body level "]"%char TRBrack rest ts eq_refl Hrest
                 _ _ (tokens sort_keys x) (map (tokens sort_keys) l)).
      * reflexivity.
      * apply IH. left. reflexivity.
      * apply Forall2_map_same. intros y Hy. apply IH. right. exact Hy.
  - destruct d as [|kv d].
    + intros rest ts _ Hrest. cbn [encode tokens map sep_tokens chars
                                     list_ascii_of_string app].
      rewrite (scan_punct "{"%char TLBrace) by reflexivity.
      rewrite (scan_punct "}"%char TRBrace) by reflexivity.
      rewrite Hrest. destruct sort_keys; reflexivity.
    + intros rest ts _ Hrest. rewrite encode_dict, tokens_dict.
      assert (Hin : forall x, In x (ordered sort_keys (kv :: d)) ->
                scans_as (encode_str (fst x) ++ chars ": "
                            ++ encode sort_keys (S level) (snd x))
                  (TStr (fst x) :: TColon :: tokens sort_keys (snd x))).
      { intros x Hx. apply scans_as_member. apply IH.
        eapply In_ordered. exact Hx. }
      destruct (ordered sort_keys (kv :: d)) as [|first others] eqn:Hord.
      { apply ordered_nil in Hord. discriminate. }
      cbn [map chars list_ascii_of_string]. rewrite <- !app_assoc. cbn [app].
      rewrite (scan_punct "{"%char TLBrace) by reflexivity.
      rewrite (scans_body level "}"%char TRBrace rest ts eq_refl Hrest
                 _ _ (TStr (fst first) :: TColon :: tokens sort_keys (snd first))
                 (map (fun x => TStr (fst x) :: TColon :: tokens sort_keys (snd x))
                    others)).
      * reflexivity.
      * apply Hin. left. reflexivity.
      * apply Forall2_map_same. intros y Hy. apply Hin. right. exact Hy.
Qed.

(** [scan] on the text written by [dumps]. *)
Lemma scan_dumps (sort_keys : bool) (o : json) :
  scan (dumps sort_keys o) = Some (tokens sort_keys o).
Proof.
  pose proof (scans_as_encode sort_keys o 0 [] [] I eq_refl) as H.
  rewrite !app_nil_r in H. exact H.
Qed.

End Scanner.

(** ** json: the parser reads the tokens of a value *)

Module Parser.
Import Json Scanner DictFacts.

(** The value that is read back: the same, with the keys of every
    dictionary in the order in which they were written. *)
Fixpoint norm (sort_keys : bool) (o : json) : json :=
  match o with
  | JList l => JList (map (norm sort_keys) l)
  | JDict d =>
      let r := map (fun kv => (fst kv, norm sort_keys (snd kv))) d in
      JDict (if sort_keys then sorted_items r else r)
  | _ => o
  end.

(** A Python [dict] has each key once. *)
Fixpoint wf (o : json) : Prop :=
  match o with
  | JList l => fold_right (fun x acc => wf x /\ acc) True l
  | JDict d =>
      NoDup (map fst d) /\ fold_right (fun kv acc => wf (snd kv) /\ acc) True d
  | _ => True
  end.

Lemma wf_list (l : list json) : wf (JList l) <-> forall x, In x l -> wf x.
Proof.
  cbn [wf]. induction l as [|y l IH]; simpl.
  - split; [intros _ x [] | auto].
  - rewrite IH. split.
    + intros [Hy Hl] x [<-|Hx]; auto.
    + intros H. split; [apply H; left; reflexivity|].
      intros x Hx. apply H. right. exact Hx.
Qed.

Lemma wf_dict (d : list (string * json)) :
  wf (JDict d) <-> NoDup (map fst d) /\ forall kv, In kv d -> wf (snd kv).
Proof.
  cbn [wf].
  assert (H : fold_right (fun kv acc => wf (snd kv) /\ acc) True d <->
              forall kv, In kv d -> wf (snd kv)).
  { induction d as [|y d IH]; simpl.
    - split; [intros _ x [] | auto].
    - rewrite IH. split.
      + intros [Hy Hl] x [<-|Hx]; auto.
      + intros H. split; [apply H; left; reflexivity|].
        intros x Hx. apply H. right. exact Hx. }
  rewrite H. reflexivity.
Qed.

Lemma norm_dict (sort_keys : bool) (d : list (string * json)) :
  norm sort_keys (JDict d) =
  JDict (map (fun x => (fst x, norm sort_keys (snd x))) (ordered sort_keys d)).
Proof.
  cbn [norm]. f_equal. destruct sort_keys; unfold ordered; [|reflexivity].
  apply (sorted_items_map (norm true)).
Qed.

(** A value never starts with a closing bracket. *)
Definition opens (t : token) : Prop :=
  match t with
  | TRBrack | TRBrace | TColon | TComma => False
  | _ => True
  end.

Lemma tokens_head (sort_keys : bool) (o : json) :
  exists t ts, tokens sort_keys o = t :: ts /\ opens t.
Proof.
  destruct o as [| [|] | z | s | l | d]; cbn [tokens]; do 2 eexists;
    (split; [reflexivity | exact I]).
Qed.

(** *** Literals and integers *)

Lemma text_eqb_head (c : ascii) (w : text) (c' : ascii) (s : string) :
  c <> c' -> text_eqb (c :: w) (chars (String c' s)) = false.
Proof.
  intros H. unfold text_eqb, chars. rewrite string_of_list_ascii_of_string.
  simpl. apply Ascii.eqb_neq in H. rewrite H. reflexivity.
Qed.

Lemma int_roundtrip (z : Z) :
  option_map Z.of_int
    (NilZero.int_of_string (NilZero.string_of_int (Z.to_int z))) = Some z.
Proof.
  destruct z as [|p|p].
  - reflexivity.
  - unfold Z.to_int. rewrite NilZero.isi.
    + simpl. f_equal. apply (DecimalZ.of_to (Z.pos p)).
    + intros [= H]. exact (DecimalPos.Unsigned.to_uint_nonnil p H).
    + discriminate.
  - unfold Z.to_int. rewrite NilZero.isi.
    + simpl. f_equal. apply (DecimalZ.of_to (Z.neg p)).
    + discriminate.
    + intros [= H]. exact (DecimalPos.Unsigned.to_uint_nonnil p H).
Qed.

Lemma word_value_int (z : Z) : word_value (int_str z) = Some (JInt z).
Proof.
  destruct (int_str_word z) as (c & w & E & _ & Hc).
  unfold word_value. rewrite E.
  assert (Hneq : forall c', nat_of_ascii c' > 57 -> c <> c').
  { intros c' H' ->. lia. }
  rewrite !text_eqb_head by (apply Hneq; apply Nat.ltb_lt; reflexivity).
  rewrite <- E. unfold int_str, chars. rewrite string_of_list_ascii_of_string.
  pose proof (int_roundtrip z) as H.
  destruct (NilZero.int_of_string (NilZero.string_of_int (Z.to_int z)));
    simpl in H; [|discriminate].
  injection H as ->. reflexivity.
Qed.

(** *** Dictionaries *)

Lemma dict_set_new {V : Type} (k : string) (v : V) (d : dict V) :
  ~ In k (map fst d) -> dict_set k v d = d ++ [(k, v)].
Proof.
  induction d as [|[k' v'] d IH]; simpl; intros H; [reflexivity|].
  destruct (String.eqb_spec k' k) as [->|Hk]; [tauto|].
  rewrite IH by tauto. reflexivity.
Qed.

Lemma dict_of_pairs_gen (l : list (string * json)) : forall acc,
  NoDup (map fst (acc ++ l)) ->
  fold_left (fun d kv => dict_set (fst kv) (snd kv) d) l acc = acc ++ l.
Proof.
  induction l as [|[k v] l IH]; intros acc H; simpl.
  - rewrite app_nil_r. reflexivity.
  - rewrite dict_set_new.
    + rewrite IH; rewrite <- app_assoc; [reflexivity | exact H].
    + rewrite map_app in H. simpl in H. apply NoDup_remove_2 in H.
      intros Hin. apply H. apply in_or_app. left. exact Hin.
Qed.

Lemma dict_of_pairs_nodup (l : list (string * json)) :
  NoDup (map fst l) -> dict_of_pairs l = l.
Proof. intros H. apply (dict_of_pairs_gen l []). exact H. Qed.

Lemma ordered_keys_nodup (sort_keys : bool) (d : list (string * json)) :
  NoDup (map fst d) -> NoDup (map fst (ordered sort_keys d)).
Proof.
  destruct sort_keys; simpl; [|auto].
  intros H. eapply Permutation_NoDup; [|exact H].
  apply Permutation_map. symmetry. apply sorted_items_perm.
Qed.

(** *** The parser on the tokens of a value *)

Lemma parse_value_list (fuel : nat) (t : token) (r : list token) :
  opens t ->
  parse_value (S fuel) (TLBrack :: t :: r) =
  match parse_elements fuel (t :: r) with
  | Some (l, r') => Some (JList l, r')
  | None => None
  end.
Proof. destruct t; simpl; try contradiction; reflexivity. Qed.

Lemma parse_value_dict (fuel : nat) (t : token) (r : list token) :
  opens t ->
  parse_value (S fuel) (TLBrace :: t :: r) =
  match parse_members fuel (t :: r) with
  | Some (pairs, r') => Some (JDict (dict_of_pairs pairs), r')
  | None => None
  end.
Proof. destruct t; simpl; try contradiction; reflexivity. Qed.

Lemma sep_tokens_one (close : token) (x : list token) :
  sep_tokens close [x] = x ++ [close].
Proof. reflexivity. Qed.

Lemma sep_tokens_two (close : token) (x y : list token) (l : list (list token)) :
  sep_tokens close (x :: y :: l) = x ++ TComma :: sep_tokens close (y :: l).
Proof. reflexivity. Qed.

Section Parse.

Variable sort_keys : bool.

(** With fuel above the number of its tokens, a value is read back. *)
Definition reads_back (o : json) : Prop :=
  forall fuel rest,
    List.length (tokens sort_keys o) < fuel ->
    parse_value fuel (tokens sort_keys o ++ rest) = Some (norm sort_keys o, rest).

Lemma parse_elements_ok : forall items,
  items <> [] ->
  (forall x, In x items -> reads_back x) ->
  forall fuel rest,
    List.length (sep_tokens TRBrack (map (tokens sort_keys) items)) < fuel ->
    parse_elements fuel (sep_tokens TRBrack (map (tokens sort_keys) items) ++ rest) =
    Some (map (norm sort_keys) items, rest).
Proof.
  induction items as [|x items IH]; [congruence|].
  intros _ HP fuel rest Hlen. destruct fuel as [|fuel]; [lia|].
  assert (Hx : reads_back x) by (apply HP; left; reflexivity).
  destruct items as [|y items].
  - cbn [map] in *. rewrite sep_tokens_one in *.
    rewrite length_app in Hlen. simpl in Hlen.
    rewrite <- app_assoc. cbn [parse_elements].
    rewrite Hx by lia. reflexivity.
  - rewrite (map_cons (tokens sort_keys) x (y :: items)) in *.
    rewrite (map_cons (tokens sort_keys) y items) in Hlen |- *.
    rewrite sep_tokens_two in Hlen |- *.
    rewrite <- (map_cons (tokens sort_keys) y items) in Hlen |- *.
    rewrite length_app in Hlen. cbn [List.length] in Hlen.
    rewrite <- app_assoc. cbn [parse_elements].
    rewrite Hx by lia. cbn [app].
    rewrite IH.
    + reflexivity.
    + discriminate.
    + intros z Hz. apply HP. right. exact Hz.
    + lia.
Qed.

Lemma parse_members_ok : forall items : list (string * json),
  items <> [] ->
  (forall x, In x items -> reads_back (snd x)) ->
  forall fuel rest,
    List.length
      (sep_tokens TRBrace
         (map (fun x => TStr (fst x) :: TColon :: tokens sort_keys (snd x)) items))
      < fuel ->
    parse_members fuel
      (sep_tokens TRBrace
         (map (fun x => TStr (fst x) :: TColon :: tokens sort_keys (snd x)) items)
         ++ rest) =
    Some (map (fun x => (fst x, norm sort_keys (snd x))) items, rest).
Proof.
  set (f := fun x : string * json =>
              TStr (fst x) :: TColon :: tokens sort_keys (snd x)).
  induction items as [|x items IH]; [congruence|].
  intros _ HP fuel rest Hlen. destruct fuel as [|fuel]; [lia|].
  assert (Hx : reads_back (snd x)) by (apply HP; left; reflexivity).
  destruct items as [|y items].
  - cbn [map] in *. rewrite sep_tokens_one in *.
    rewrite length_app in Hlen. unfold f in Hlen |- *. simpl in Hlen.
    cbn [app]. rewrite <- app_assoc. cbn [parse_members].
    rewrite Hx by lia. reflexivity.
  - rewrite (map_cons f x (y :: items)) in *.
    rewrite (map_cons f y items) in Hlen |- *.
    rewrite sep_tokens_two in Hlen |- *.
    rewrite <- (map_cons f y items) in Hlen |- *.
    rewrite length_app in Hlen. unfold f at 1 in Hlen. unfold f at 1.
    cbn [List.length] in Hlen.
    cbn [app]. rewrite <- app_assoc. cbn [parse_members].
    rewrite Hx by lia. cbn [app].
    rewrite IH.
    + reflexivity.
    + discriminate.
    + intros z Hz. apply HP. right. exact Hz.
    + lia.
Qed.

Lemma sep_tokens_head (close : token) (first : list token)
    (others : list (list token)) :
  (exists t ts, first = t :: ts /\ opens t) ->
  exists t ts, sep_tokens close (first :: others) = t :: ts /\ opens t.
Proof.
  intros (t & ts & -> & Ht). cbn [sep_tokens]. exists t. eexists.
  split; [reflexivity | exact Ht].
Qed.

Lemma parse_value_ok : forall o, wf o -> reads_back o.
Proof.
  induction o as [| b | z | s | l IH | d IH] using json_ind'; intros Hwf fuel rest Hlen;
    (destruct fuel as [|fuel]; [lia|]).
  - reflexivity.
  - destruct b; reflexivity.
  - cbn [tokens app parse_value]. rewrite word_value_int. reflexivity.
  - reflexivity.
  - destruct l as [|x l]; [reflexivity|].
    rewrite wf_list in Hwf.
    cbn [tokens app norm] in *. cbn [List.length] in Hlen.
    destruct (sep_tokens_head TRBrack (tokens sort_keys x)
                (map (tokens sort_keys) l) (tokens_head sort_keys x))
      as (t & ts & E & Ht).
    change (tokens sort_keys x :: map (tokens sort_keys) l)
      with (map (tokens sort_keys) (x :: l)) in *.
    rewrite E. cbn [app]. rewrite (parse_value_list _ _ _ Ht).
    change (t :: ts ++ rest) with ((t :: ts) ++ rest). rewrite <- E.
    rewrite parse_elements_ok.
    + reflexivity.
    + discriminate.
    + intros y Hy. apply IH; [exact Hy | apply Hwf; exact Hy].
    + lia.
  - destruct d as [|kv d].
    { cbn [tokens]. destruct sort_keys; reflexivity. }
    rewrite wf_dict in Hwf. destruct Hwf as [Hnd Hwf].
    rewrite tokens_dict in *. rewrite norm_dict. cbn [List.length app] in *.
    destruct (ordered sort_keys (kv :: d)) as [|first others] eqn:Hord.
    { apply ordered_nil in Hord. discriminate. }
    assert (Hin : forall x, In x (first :: others) -> reads_back (snd x)).
    { intros x Hx. rewrite <- Hord in Hx. apply In_ordered in Hx.
      apply IH; [exact Hx | apply Hwf; exact Hx]. }
    assert (Hkeys : NoDup (map fst (first :: others))).
    { rewrite <- Hord. apply ordered_keys_nodup. exact Hnd. }
    destruct (sep_tokens_head TRBrace
                (TStr (fst first) :: TColon :: tokens sort_keys (snd first))
                (map (fun x => TStr (fst x) :: TColon :: tokens sort_keys (snd x))
                   others))
      as (t & ts & E & Ht).
    { do 2 eexists. split; [reflexivity | exact I]. }
    change ((TStr (fst first) :: TColon :: tokens sort_keys (snd first))
              :: map (fun x => TStr (fst x) :: TColon :: tokens sort_keys (snd x))
                   others)
      with (map (fun x => TStr (fst x) :: TColon :: tokens sort_keys (snd x))
              (first :: others)) in *.
    rewrite E. cbn [app]. rewrite (parse_value_dict _ _ _ Ht).
    change (t :: ts ++ rest) with ((t :: ts) ++ rest). rewrite <- E.
    rewrite parse_members_ok.
    + rewrite dict_of_pairs_nodup; [reflexivity|].
      rewrite map_map. cbn [fst]. exact Hkeys.
    + discriminate.
    + exact Hin.
    + lia.
Qed.

(** [loads] gives back what [dumps] was given, up to the order of the keys
    when they are sorted. *)
Lemma loads_dumps (o : json) :
  wf o -> loads (dumps sort_keys o) = Ok (norm sort_keys o).
Proof.
  intros Hwf. unfold loads. rewrite scan_dumps.
  pose proof (parse_value_ok o Hwf (S (List.length (tokens sort_keys o))) []
                (Nat.lt_succ_diag_r _)) as H.
  rewrite app_nil_r in H. rewrite H. reflexivity.
Qed.

End Parse.

End Parser.

(** ** The three replacements change blanks between tokens only *)

Module Compaction.
Import Json Scanner.

Lemma starts_with_split (old : text) : forall s,
  starts_with old s = true -> exists rest, s = old ++ rest.
Proof.
  induction old as [|a old IH]; intros s H.
  - exists s. reflexivity.
  - destruct s as [|b s]; [discriminate|]. simpl in H.
    apply andb_true_iff in H. destruct H as [Hab H].
    apply Ascii.eqb_eq in Hab. subst b.
    destruct (IH _ H) as [rest ->]. exists rest. reflexivity.
Qed.

Lemma starts_with_app (old rest : text) : starts_with old (old ++ rest) = true.
Proof.
  induction old as [|a old IH]; [reflexivity|].
  simpl. rewrite Ascii.eqb_refl. exact IH.
Qed.

Lemma replace_from_skip (old new : text) : forall pre rest,
  replace_from old new (List.length pre) (pre ++ rest) = replace_from old new 0 rest.
Proof.
  induction pre as [|c pre IH]; intros rest; [reflexivity|].
  simpl. apply IH.
Qed.

Lemma replace_match (old new : text) (c : ascii) (old' rest : text) :
  old = c :: old' ->
  replace old new (old ++ rest) = new ++ replace old new rest.
Proof.
  intros ->. unfold replace.
  pose proof (starts_with_app (c :: old') rest) as H.
  cbn [app replace_from] in *. rewrite H.
  replace (List.length (c :: old') - 1) with (List.length old') by (simpl; lia).
  rewrite replace_from_skip. reflexivity.
Qed.

Lemma replace_no_match (old new : text) (c : ascii) (s : text) :
  starts_with old (c :: s) = false ->
  replace old new (c :: s) = c :: replace old new s.
Proof. intros H. unfold replace. cbn [replace_from]. rewrite H. reflexivity. Qed.

(** The scanner cannot tell [new] from [old]. *)
Definition neutral (old new : text) : Prop :=
  forall st r, run st old = Some r -> run st new = Some r.

(** Replacing [old] with a neutral [new] leaves the scan as it was. *)
Lemma run_replace (old new : text) (c : ascii) (old' : text) :
  old = c :: old' -> neutral old new ->
  forall n s st r,
    List.length s <= n -> run st s = Some r -> run st (replace old new s) = Some r.
Proof.
  intros Hold Hneutral. induction n as [|n IH]; intros s st r Hlen Hrun.
  - destruct s; [exact Hrun | simpl in Hlen; lia].
  - destruct s as [|a s]; [exact Hrun|].
    destruct (starts_with old (a :: s)) eqn:Hm.
    + destruct (starts_with_split _ _ Hm) as [rest E]. rewrite E in *.
      rewrite (replace_match old new c old' rest Hold).
      rewrite run_app in Hrun.
      destruct (run st old) as [[st1 ts1]|] eqn:H1; [|discriminate].
      destruct (run st1 rest) as [[st2 ts2]|] eqn:H2; [|discriminate].
      rewrite run_app, (Hneutral _ _ H1).
      rewrite (IH rest st1 (st2, ts2)); [exact Hrun | | exact H2].
      rewrite Hold, length_app in Hlen. simpl in Hlen. lia.
    + rewrite (replace_no_match _ _ _ _ Hm).
      cbn [run] in *.
      destruct (step st a) as [[st1 ts1]|]; [|discriminate].
      destruct (run st1 s) as [[st2 ts2]|] eqn:H2; [|discriminate].
      rewrite (IH s st1 (st2, ts2)); [exact Hrun | | exact H2].
      simpl in Hlen. lia.
Qed.

Definition old1 : text := chars "[" ++ newline :: repeat " "%char 10.
Definition new1 : text := chars "[ ".
Definition old2 : text := quote :: newline :: repeat " "%char 8 ++ chars "]".
Definition new2 : text := quote :: chars " ]".
Definition old3 : text := chars "," ++ newline :: repeat " "%char 10.
Definition new3 : text := chars ", ".

(** A raw newline cannot stand inside a string, so each of the three
    patterns can only be met between tokens (the quote of the second one is
    the closing one). *)
Lemma neutral1 : neutral old1 new1.
Proof.
  intros st r H. destruct st; cbn in H |- *; try discriminate; exact H.
Qed.

Lemma neutral2 : neutral old2 new2.
Proof.
  intros st r H. destruct st; cbn in H |- *; try discriminate; exact H.
Qed.

Lemma neutral3 : neutral old3 new3.
Proof.
  intros st r H. destruct st; cbn in H |- *; try discriminate; exact H.
Qed.

Lemma run_compact (s : text) (st : lstate) (r : lstate * list token) :
  run st s = Some r -> run st (compact s) = Some r.
Proof.
  intros H. unfold compact.
  apply (run_replace old3 new3 ","%char (newline :: repeat " "%char 10)
           eq_refl neutral3 _ _ _ _ (Nat.le_refl _)).
  apply (run_replace old2 new2 quote (newline :: repeat " "%char 8 ++ chars "]")
           eq_refl neutral2 _ _ _ _ (Nat.le_refl _)).
  apply (run_replace old1 new1 "["%char (newline :: repeat " "%char 10)
           eq_refl neutral1 _ _ _ _ (Nat.le_refl _)).
  exact H.
Qed.

(** A text that scans keeps its tokens. *)
Lemma scan_compact (s : text) (ts : list token) :
  scan s = Some ts -> scan (compact s) = Some ts.
Proof.
  unfold scan. destruct (run Between s) as [[st ts1]|] eqn:H; [|discriminate].
  rewrite (run_compact _ _ _ H). auto.
Qed.

Lemma loads_compact (s : text) (ts : list token) :
  scan s = Some ts -> loads (compact s) = loads s.
Proof.
  intros H. unfold loads. rewrite (scan_compact _ _ H), H. reflexivity.
Qed.

End Compaction.

(** ** The serialised lock reads back as the lock *)

Module RoundTrip.
Import Json Scanner Parser Compaction.

(** Two documents with the same structure: the same values at the same
    places, the keys of a dictionary in any order. *)
Inductive same_doc : json -> json -> Prop :=
| same_null : same_doc JNull JNull
| same_bool b : same_doc (JBool b) (JBool b)
| same_int z : same_doc (JInt z) (JInt z)
| same_str s : same_doc (JStr s) (JStr s)
| same_list l l' : Forall2 same_doc l l' -> same_doc (JList l) (JList l')
| same_dict d d' p :
    Permutation p d' ->
    Forall2 (fun a b => fst a = fst b /\ same_doc (snd a) (snd b)) d p ->
    same_doc (JDict d) (JDict d').

Lemma Forall2_map_l {A B : Type} (R : B -> A -> Prop) (f : A -> B) (l : list A) :
  (forall x, In x l -> R (f x) x) -> Forall2 R (map f l) l.
Proof.
  induction l as [|x l IH]; intros H; simpl; constructor.
  - apply H. left. reflexivity.
  - apply IH. intros y Hy. apply H. right. exact Hy.
Qed.

(** Sorting the keys keeps the structure. *)
Lemma same_doc_norm : forall o, same_doc (norm true o) o.
Proof.
  induction o as [| b | z | s | l IH | d IH] using json_ind'; try constructor.
  - cbn [norm]. apply Forall2_map_l. exact IH.
  - rewrite norm_dict. apply same_dict with (p := ordered true d).
    + apply sorted_items_perm.
    + apply Forall2_map_l. intros x Hx. split; [reflexivity|].
      apply IH. eapply In_ordered. exact Hx.
Qed.

(** C8: for every lock (a JSON document whose dictionaries have each key
    once), the text written by lines 371-375, [json.dumps] with sorted keys
    and an indent of 2 followed by the three replacements, is read back by
    [json.loads] as a document of the same structure, the keys apart; and
    the replacements do not change what is read back. *)
Theorem serialised_lock_reads_back (lock : json) :
  wf lock ->
  exists parsed,
    loads (compact (dumps true lock)) = Ok parsed /\
    same_doc parsed lock /\
    loads (compact (dumps true lock)) = loads (dumps true lock).
Proof.
  intros Hwf. exists (norm true lock).
  rewrite (loads_compact _ _ (scan_dumps true lock)).
  split; [apply loads_dumps; exact Hwf|].
  split; [apply same_doc_norm | reflexivity].
Qed.

Lemma serialised_lock_reads_back_witness :
  wf (CycleResolver.lock_of CycleResolver.deps_AB) /\
  exists parsed,
    loads (compact (dumps true (CycleResolver.lock_of CycleResolver.deps_AB)))
      = Ok parsed /\
    same_doc parsed (CycleResolver.lock_of CycleResolver.deps_AB).
Proof.
  assert (Hwf : wf (CycleResolver.lock_of CycleResolver.deps_AB)).
  { cbn. repeat split; repeat constructor; simpl; intuition discriminate. }
  split; [exact Hwf|].
  destruct (serialised_lock_reads_back _ Hwf) as (parsed & H1 & H2 & _).
  exists parsed. split; assumption.
Defined.

End RoundTrip.

(** ** The [--arg] options *)

Module ArgParseFacts.
Import ArgParse DictFacts.

(** [c in s] *)
Fixpoint has_char (c : ascii) (s : string) : bool :=
  match s with
  | EmptyString => false
  | String c' s' => Ascii.eqb c' c || has_char c s'
  end.

Lemma split_not_nil (sep : ascii) (s : string) : split sep s <> [].
Proof.
  destruct s as [|c s]; simpl; [discriminate|].
  destruct (Ascii.eqb c sep); [discriminate|].
  destruct (split sep s); discriminate.
Qed.

Lemma split_no_sep (sep : ascii) (s : string) :
  has_char sep s = false -> split sep s = [s].
Proof.
  induction s as [|c s IH]; simpl; [reflexivity|].
  intros H. apply orb_false_iff in H. destruct H as [Hc Hs].
  rewrite Hc, (IH Hs). reflexivity.
Qed.

Lemma split_piece (sep : ascii) (a b : string) :
  has_char sep a = false ->
  split sep (a ++ String sep b)%string = a :: split sep b.
Proof.
  induction a as [|c a IH]; simpl; intros H.
  - rewrite Ascii.eqb_refl. reflexivity.
  - apply orb_false_iff in H. destruct H as [Hc Ha].
    rewrite Hc, (IH Ha). reflexivity.
Qed.

Lemma comprehend_app (a b : list string) : forall acc,
  comprehend acc (a ++ b) = (d <- comprehend acc a ;; comprehend d b).
Proof.
  induction a as [|e a IH]; intros acc; simpl; [reflexivity|].
  destruct (split "=" e) as [|k [|v r]]; try reflexivity. apply IH.
Qed.

(** X1: an option [--arg name=value] whose name and value hold no further
    equal sign sets [specified_extra_args[name]] to the value: after the
    options parsed so far it gives the same dictionary with that name set,
    so the name reads back as the value (the last of several options for one
    name wins) and every other name is left as it was. *)
Theorem arg_option_sets_name (arg : list string) (d : dict string) (k v : string) :
  has_char "=" k = false -> has_char "=" v = false ->
  specified_extra_args arg = Ok d ->
  specified_extra_args (arg ++ [(k ++ "=" ++ v)%string]) = Ok (dict_set k v d) /\
  dict_get k (dict_set k v d) = Some v /\
  (forall k', k <> k' -> dict_get k' (dict_set k v d) = dict_get k' d).
Proof.
  intros Hk Hv Hd. unfold specified_extra_args in *.
  rewrite comprehend_app, Hd. cbn [bind comprehend].
  change (k ++ "=" ++ v)%string with (k ++ String "="%char v)%string.
  rewrite (split_piece _ _ _ Hk), (split_no_sep _ _ Hv).
  split; [reflexivity|]. split; [apply dict_get_set_eq|].
  intros k' Hne. apply dict_get_set_neq. exact Hne.
Qed.

Lemma arg_option_sets_name_witness :
  specified_extra_args ["noDev=yes"; "noDev=no"] = Ok [("noDev", "no")].
Proof.
  exact (proj1 (arg_option_sets_name ["noDev=yes"] [("noDev", "yes")] "noDev" "no"
                  eq_refl eq_refl eq_refl)).
Defined.

(** X2: if one of the [--arg] options holds no equal sign, lines 56-61
    raise [IndexError] (from [arg[1]]), whatever the other options are; it
    is not turned into an [exit(1)]. *)
Theorem arg_without_equal_sign_raises (arg : list string) (e : string) :
  In e arg -> has_char "=" e = false ->
  specified_extra_args arg = Raise IndexError.
Proof.
  intros Hin He. unfold specified_extra_args. generalize (@nil (string * string)).
  induction arg as [|x arg IH]; intros acc; [contradiction|].
  simpl. destruct Hin as [->|Hin].
  - rewrite (split_no_sep _ _ He). reflexivity.
  - destruct (split "=" x) as [|k [|v r]]; try reflexivity. apply IH. exact Hin.
Qed.

Lemma arg_without_equal_sign_raises_witness :
  specified_extra_args ["a=1"; "noDev"] = Raise IndexError.
Proof.
  apply (arg_without_equal_sign_raises ["a=1"; "noDev"] "noDev").
  - right. left. reflexivity.
  - reflexivity.
Defined.

(** X3: the value of an [--arg] option ends at its second equal sign:
    for [name=value=rest] the dictionary gets [name: value], and [rest] is
    dropped without a message. *)
Theorem arg_value_ends_at_second_equal_sign (k v rest : string) :
  has_char "=" k = false -> has_char "=" v = false ->
  specified_extra_args [(k ++ "=" ++ v ++ "=" ++ rest)%string] = Ok [(k, v)].
Proof.
  intros Hk Hv. unfold specified_extra_args. cbn [comprehend].
  change (k ++ "=" ++ v ++ "=" ++ rest)%string with (k ++ String "="%char (v ++ String "="%char rest))%string.
  rewrite (split_piece _ _ _ Hk), (split_piece _ _ _ Hv). reflexivity.
Qed.

Lemma arg_value_ends_at_second_equal_sign_witness :
  specified_extra_args ["url=http://host/?a=b"] = Ok [("url", "http://host/?a")].
Proof.
  exact (arg_value_ends_at_second_equal_sign "url" "http://host/?a" "b" eq_refl eq_refl).
Defined.

End ArgParseFacts.

(** ** The choice of the translator *)

Module SelectFacts.
Import ExtraArgs Stamp ArgParse Select ArgParseFacts.

(** [t['type']] as a position in [['pure', 'ifd', 'impure']]. *)
Definition type_rank (t : entry) : option nat :=
  index (type (ident t)) ["pure"; "ifd"; "impure"].

(** [a] is offered no later than [b]: a compatible translator before an
    incompatible one, and for the same compatibility [pure] before [ifd]
    before [impure]. *)
Definition ranked (a b : entry) : Prop :=
  exists i j, type_rank a = Some i /\ type_rank b = Some j /\
    ((compatible a = true /\ compatible b = false) \/
     (compatible a = compatible b /\ i <= j)).

(** The elements with a given key. *)
Definition has_key (k : bool * nat) (t : entry) : bool :=
  match sort_key t with
  | Some k' => Bool.eqb (fst k) (fst k') && Nat.eqb (snd k) (snd k')
  | None => false
  end.

(** [c] occurs this many times in [s]. *)
Fixpoint count_char (c : ascii) (s : string) : nat :=
  match s with
  | EmptyString => 0
  | String c' s' => (if Ascii.eqb c' c then 1 else 0) + count_char c s'
  end.

Definition key_le (a b : bool * nat) : Prop := key_lt b a = false.

Lemma key_le_refl (a : bool * nat) : key_le a a.
Proof.
  destruct a as [[|] n]; unfold key_le, key_lt; simpl; apply Nat.ltb_irrefl.
Qed.

Lemma key_le_trans (a b c : bool * nat) : key_le a b -> key_le b c -> key_le a c.
Proof.
  destruct a as [[|] x], b as [[|] y], c as [[|] z]; unfold key_le, key_lt; simpl;
    rewrite ?Nat.ltb_ge; try congruence; intros; lia.
Qed.

Lemma key_lt_le (a b : bool * nat) : key_lt a b = true -> key_le a b.
Proof.
  destruct a as [[|] x], b as [[|] y]; unfold key_le, key_lt; simpl;
    rewrite ?Nat.ltb_lt, ?Nat.ltb_ge; try congruence; intros; lia.
Qed.

Lemma key_le_ranked (a b : entry) (ka kb : bool * nat) :
  sort_key a = Some ka -> sort_key b = Some kb -> key_le ka kb -> ranked a b.
Proof.
  unfold sort_key, ranked, type_rank, key_le, key_lt.
  destruct (index (type (ident a)) _) as [i|]; [|discriminate].
  destruct (index (type (ident b)) _) as [j|]; [|discriminate].
  intros [= <-] [= <-]. simpl. intros H. exists i, j.
  split; [reflexivity|]. split; [reflexivity|].
  destruct (compatible a), (compatible b); simpl in H;
    rewrite ?Nat.ltb_ge in H; try discriminate; auto.
Qed.

Definition keyed_sorted (l : list ((bool * nat) * entry)) : Prop :=
  StronglySorted (fun x y => key_le (fst x) (fst y)) l.

Lemma insert_keyed_perm (x : (bool * nat) * entry) (l : list ((bool * nat) * entry)) :
  Permutation (x :: l) (insert_keyed x l).
Proof.
  induction l as [|y l IH]; simpl; [apply Permutation_refl|].
  destruct (key_lt (fst y) (fst x)); [|apply Permutation_refl].
  eapply perm_trans; [apply perm_swap|]. apply perm_skip. exact IH.
Qed.

Lemma insert_keyed_sorted (x : (bool * nat) * entry) (l : list ((bool * nat) * entry)) :
  keyed_sorted l -> keyed_sorted (insert_keyed x l).
Proof.
  unfold keyed_sorted. induction l as [|y l IH]; simpl; intros Hs.
  - constructor; constructor.
  - inversion Hs as [|? ? Hl Hy]; subst.
    destruct (key_lt (fst y) (fst x)) eqn:E.
    + constructor; [apply IH; exact Hl|].
      rewrite Forall_forall. intros z Hz.
      apply (Permutation_in _ (Permutation_sym (insert_keyed_perm x l))) in Hz.
      destruct Hz as [<-|Hz]; [apply key_lt_le; exact E|].
      rewrite Forall_forall in Hy. apply Hy. exact Hz.
    + constructor; [exact Hs|].
      constructor; [exact E|].
      rewrite Forall_forall in Hy |- *. intros z Hz.
      eapply key_le_trans; [exact E | apply Hy; exact Hz].
Qed.

Lemma sort_keyed_spec (l : list ((bool * nat) * entry)) :
  Permutation l (fold_right insert_keyed [] l) /\
  keyed_sorted (fold_right insert_keyed [] l).
Proof.
  induction l as [|x l [IHp IHs]]; simpl.
  - split; [apply Permutation_refl | constructor].
  - split; [|apply insert_keyed_sorted; exact IHs].
    eapply perm_trans; [apply perm_skip; exact IHp | apply insert_keyed_perm].
Qed.

Lemma keyed_spec (l : list entry) : forall kl,
  keyed l = Some kl ->
  map snd kl = l /\ (forall x, In x kl -> sort_key (snd x) = Some (fst x)).
Proof.
  induction l as [|t l IH]; simpl; intros kl H.
  - injection H as <-. split; [reflexivity | intros x []].
  - destruct (sort_key t) as [k|] eqn:Hk; [|discriminate].
    destruct (keyed l) as [r|]; [|discriminate].
    injection H as <-. destruct (IH r eq_refl) as [Hm Hr].
    split; [simpl; rewrite Hm; reflexivity|].
    intros x [<-|Hx]; [exact Hk | apply Hr; exact Hx].
Qed.

Lemma keyed_none (l : list entry) (t : entry) :
  In t l -> sort_key t = None -> keyed l = None.
Proof.
  induction l as [|x l IH]; simpl; [tauto|].
  intros [->|Hin] Ht.
  - rewrite Ht. reflexivity.
  - rewrite (IH Hin Ht). destruct (sort_key x); reflexivity.
Qed.

Lemma filter_insert_keyed (p : (bool * nat) * entry -> bool)
    (x : (bool * nat) * entry) (l : list ((bool * nat) * entry)) :
  (forall y, p x = true -> p y = true -> key_lt (fst y) (fst x) = false) ->
  filter p (insert_keyed x l) = filter p (x :: l).
Proof.
  intros Hp. induction l as [|y l IH]; [reflexivity|].
  cbn [insert_keyed]. destruct (key_lt (fst y) (fst x)) eqn:E; [|reflexivity].
  cbn [filter] in *. rewrite IH.
  destruct (p x) eqn:Hx, (p y) eqn:Hy; try reflexivity.
  rewrite (Hp y eq_refl Hy) in E. discriminate.
Qed.

Lemma filter_sort_keyed (p : (bool * nat) * entry -> bool) (k : bool * nat)
    (l : list ((bool * nat) * entry)) :
  (forall y, p y = true -> fst y = k) ->
  filter p (fold_right insert_keyed [] l) = filter p l.
Proof.
  intros Hp. induction l as [|x l IH]; [reflexivity|].
  cbn [fold_right]. rewrite filter_insert_keyed.
  - cbn [filter]. rewrite IH. reflexivity.
  - intros y Hx Hy. rewrite (Hp x Hx), (Hp y Hy). apply key_le_refl.
Qed.

Lemma filter_map_snd (p : entry -> bool) (l : list ((bool * nat) * entry)) :
  filter p (map snd l) = map snd (filter (fun x => p (snd x)) l).
Proof.
  induction l as [|x l IH]; simpl; [reflexivity|].
  destruct (p (snd x)); simpl; rewrite IH; reflexivity.
Qed.

Lemma keyed_sorted_ranked (l : list ((bool * nat) * entry)) :
  keyed_sorted l -> (forall x, In x l -> sort_key (snd x) = Some (fst x)) ->
  StronglySorted ranked (map snd l).
Proof.
  unfold keyed_sorted. induction l as [|x l IH]; intros Hs Hall; [constructor|].
  inversion Hs as [|? ? Hl Hx]; subst. simpl. constructor.
  - apply IH; [exact Hl | intros y Hy; apply Hall; right; exact Hy].
  - rewrite Forall_forall in Hx |- *. intros t Ht.
    apply in_map_iff in Ht. destruct Ht as (y & <- & Hy).
    eapply key_le_ranked; [apply Hall; left; reflexivity | apply Hall; right; exact Hy|].
    apply Hx. exact Hy.
Qed.

(** What [translatorsSorted] returns: the same elements, in the order of
    their keys; it returns something when every type is one of the three. *)
Lemma translatorsSorted_spec (translators sorted : list entry) :
  translatorsSorted translators = Some sorted ->
  Permutation translators sorted /\
  StronglySorted ranked sorted /\
  (forall t, In t translators -> exists k, sort_key t = Some k).
Proof.
  unfold translatorsSorted. destruct (keyed translators) as [kl|] eqn:Hk; [|discriminate].
  intros [= <-]. destruct (keyed_spec _ _ Hk) as [Hm Hkeys].
  destruct (sort_keyed_spec kl) as [Hperm Hsorted].
  split; [rewrite <- Hm; apply Permutation_map; exact Hperm|].
  split.
  - apply keyed_sorted_ranked; [exact Hsorted|].
    intros x Hx. apply Hkeys. eapply Permutation_in; [apply Permutation_sym|]; eassumption.
  - intros t Ht. rewrite <- Hm in Ht. apply in_map_iff in Ht.
    destruct Ht as (x & <- & Hx). exists (fst x). apply Hkeys. exact Hx.
Qed.

Lemma strs_eqb_eq (a b : list string) : strs_eqb a b = true <-> a = b.
Proof.
  revert b. induction a as [|x a IH]; intros [|y b]; simpl;
    try (split; [discriminate | congruence]); [tauto|].
  rewrite andb_true_iff, IH, String.eqb_eq. split; [intros [-> ->]; reflexivity|].
  intros [= -> ->]. auto.
Qed.

Lemma length_split (sep : ascii) (s : string) :
  List.length (split sep s) = S (count_char sep s).
Proof.
  induction s as [|c s IH]; simpl; [reflexivity|].
  destruct (Ascii.eqb c sep); simpl; [rewrite IH; reflexivity|].
  destruct (split sep s) as [|w ws]; simpl in *; [discriminate | exact IH].
Qed.

Lemma count_char_none (c : ascii) (s : string) :
  has_char c s = false <-> count_char c s = 0.
Proof.
  induction s as [|c' s IH]; simpl; [tauto|].
  destruct (Ascii.eqb c' c); simpl; [split; discriminate | exact IH].
Qed.

Lemma StronglySorted_filter {A : Type} (R : A -> A -> Prop) (p : A -> bool) (l : list A) :
  StronglySorted R l -> StronglySorted R (filter p l).
Proof.
  induction 1 as [|x l Hl IH Hx]; simpl; [constructor|].
  destruct (p x); [|exact IH]. constructor; [exact IH|].
  rewrite Forall_forall in Hx |- *. intros y Hy. apply filter_In in Hy. apply Hx, Hy.
Qed.

Lemma ranked_refl (t : entry) (k : bool * nat) : sort_key t = Some k -> ranked t t.
Proof. intros H. eapply key_le_ranked; [exact H | exact H | apply key_le_refl]. Qed.

(** The first of the elements that satisfy [p] is ranked before the others. *)
Lemma first_match_best (translators sorted : list entry) (p : entry -> bool)
    (t : entry) (rest : list entry) :
  translatorsSorted translators = Some sorted ->
  filter p sorted = t :: rest ->
  In t translators /\ p t = true /\
  forall t', In t' translators -> p t' = true -> ranked t t'.
Proof.
  intros Hs Hf. destruct (translatorsSorted_spec _ _ Hs) as (Hperm & Hsorted & Hkeys).
  assert (Ht : In t (filter p sorted)) by (rewrite Hf; left; reflexivity).
  apply filter_In in Ht. destruct Ht as [Hin Hp].
  assert (Hin' : In t translators)
    by (eapply Permutation_in; [apply Permutation_sym|]; eassumption).
  split; [exact Hin'|]. split; [exact Hp|].
  intros t' Hin2 Hp2.
  assert (H2 : In t' (filter p sorted)).
  { apply filter_In. split; [eapply Permutation_in; eassumption | exact Hp2]. }
  pose proof (StronglySorted_filter ranked p _ Hsorted) as Hfs.
  rewrite Hf in Hfs, H2. inversion Hfs as [|? ? _ Hall]; subst.
  destruct H2 as [<-|H2].
  - destruct (Hkeys _ Hin') as [k Hk]. exact (ranked_refl _ _ Hk).
  - rewrite Forall_forall in Hall. apply Hall. exact H2.
Qed.

Lemma filter_nil_none {A : Type} (p : A -> bool) (l : list A) :
  filter p l = [] -> forall x, In x l -> p x = false.
Proof.
  intros H x Hx. destruct (p x) eqn:E; [|reflexivity].
  assert (Hin : In x (filter p l)) by (apply filter_In; auto).
  rewrite H in Hin. contradiction.
Qed.

(** X4: [translatorsSorted] has the elements of the list of translators,
    each as often; it is ordered, compatible translators before incompatible
    ones and, for the same compatibility, [pure] before [ifd] before
    [impure]; and translators with the same key keep the order they had
    (the sort is stable). *)
Theorem translators_sorted_stably (translators sorted : list entry) :
  translatorsSorted translators = Some sorted ->
  Permutation translators sorted /\
  StronglySorted ranked sorted /\
  (forall k, filter (has_key k) sorted = filter (has_key k) translators).
Proof.
  intros Hs. destruct (translatorsSorted_spec _ _ Hs) as (Hperm & Hsorted & _).
  split; [exact Hperm|]. split; [exact Hsorted|].
  intros k. unfold translatorsSorted in Hs.
  destruct (keyed translators) as [kl|] eqn:Hk; [|discriminate].
  injection Hs as <-. destruct (keyed_spec _ _ Hk) as [Hm Hkeys].
  rewrite <- Hm. rewrite !filter_map_snd. f_equal.
  assert (Hall : forall x, In x (fold_right insert_keyed [] kl) ->
                   sort_key (snd x) = Some (fst x)).
  { intros x Hx. apply Hkeys. eapply Permutation_in;
      [apply Permutation_sym, sort_keyed_spec | exact Hx]. }
  transitivity (filter (fun x => has_key k (snd x) &&
                                 (Bool.eqb (fst k) (fst (fst x)) && Nat.eqb (snd k) (snd (fst x))))
                  (fold_right insert_keyed [] kl)).
  { apply filter_ext_in. intros x Hx. unfold has_key. rewrite (Hall x Hx).
    destruct (Bool.eqb _ _ && _); reflexivity. }
  rewrite (filter_sort_keyed _ k).
  - apply filter_ext_in. intros x Hx. unfold has_key. rewrite (Hkeys x Hx).
    destruct (Bool.eqb _ _ && _); reflexivity.
  - intros y Hy. apply andb_true_iff in Hy. destruct Hy as [_ Hy].
    apply andb_true_iff in Hy. destruct Hy as [H1 H2].
    apply Bool.eqb_prop in H1. apply Nat.eqb_eq in H2.
    destruct (fst y), k. simpl in *. congruence.
Qed.


Lemma translatedBy_parts (i : translator) :
  has_char "." (subsystem i) = false -> has_char "." (type i) = false ->
  has_char "." (name i) = false ->
  split "." (translatedBy i) = [subsystem i; type i; name i].
Proof.
  intros Hs Ht Hn. unfold translatedBy.
  change (subsystem i ++ "." ++ type i ++ "." ++ name i)%string
    with (subsystem i ++ String "."%char (type i ++ String "."%char (name i)))%string.
  rewrite (split_piece _ _ _ Hs), (split_piece _ _ _ Ht), (split_no_sep _ _ Hn).
  reflexivity.
Qed.

Lemma translatedBy_not_empty (i : translator) : String.eqb (translatedBy i) "" = false.
Proof. unfold translatedBy. destruct (subsystem i); reflexivity. Qed.

Lemma ident_parts (a b : translator) :
  strs_eqb [subsystem a; type a; name a] [subsystem b; type b; name b] = true <-> a = b.
Proof.
  rewrite strs_eqb_eq. destruct a, b; simpl. split; [intros [= -> -> ->] | intros [= -> -> ->]]; reflexivity.
Qed.

(** Two translators of the subsystem [nodejs] with the same name. *)
Definition package_lock_impure : entry :=
  {| ident := {| subsystem := "nodejs"; type := "impure"; name := "package-lock" |};
     compatible := true; extraArgs := [] |}.

Definition package_lock_pure : entry :=
  {| ident := {| subsystem := "nodejs"; type := "pure"; name := "package-lock" |};
     compatible := true; extraArgs := [] |}.

Lemma translators_sorted_stably_witness :
  Permutation [package_lock_impure; package_lock_pure]
              [package_lock_pure; package_lock_impure].
Proof.
  exact (proj1 (translators_sorted_stably [package_lock_impure; package_lock_pure]
                  [package_lock_pure; package_lock_impure] eq_refl)).
Defined.

(** X5: when [--translator] is a name without a dot and a translator is
    selected, it is one of the list, it has that name, and no other
    translator of the list with that name is ranked before it: a compatible
    one is preferred, then [pure] to [ifd] to [impure]. *)
Theorem short_name_selects_best_ranked (translators : list entry) (n : string)
    (t : entry) :
  has_char "." n = false ->
  select translators n = Selected t ->
  In t translators /\ name (ident t) = n /\
  forall t', In t' translators -> name (ident t') = n -> ranked t t'.
Proof.
  intros Hn. unfold select.
  destruct (translatorsSorted translators) as [sorted|] eqn:Hs; [|discriminate].
  destruct (String.eqb n ""); [discriminate|].
  rewrite (split_no_sep _ _ Hn). cbn [List.length Nat.eqb].
  destruct (filter _ sorted) as [|t0 rest] eqn:Hf; [discriminate|].
  intros [= ->].
  destruct (first_match_best _ _ _ _ _ Hs Hf) as (Hin & Hp & Hbest).
  split; [exact Hin|]. split.
  - apply strs_eqb_eq in Hp. congruence.
  - intros t' Hin' Hname. apply Hbest; [exact Hin'|].
    apply strs_eqb_eq. congruence.
Qed.

Lemma short_name_selects_best_ranked_witness :
  In package_lock_pure [package_lock_impure; package_lock_pure] /\
  name (ident package_lock_pure) = "package-lock" /\
  ranked package_lock_pure package_lock_impure.
Proof.
  destruct (short_name_selects_best_ranked [package_lock_impure; package_lock_pure]
              "package-lock" package_lock_pure eq_refl eq_refl) as (H1 & H2 & H3).
  split; [exact H1|]. split; [exact H2|].
  apply H3; [left; reflexivity | reflexivity].
Defined.

(** X6: when every translator has one of the three types, a
    [--translator] that names no translator of the list, by its name alone
    or by [subsystem.type.name], ends the run with [exit(1)] after
    [Could not find translator '...'] with the text that was given. *)
Theorem unknown_translator_exits (translators sorted : list entry) :
  translatorsSorted translators = Some sorted ->
  (forall n, has_char "." n = false -> n <> "" ->
     (forall t, In t translators -> name (ident t) <> n) ->
     select translators n = Exits ("Could not find translator '" ++ n ++ "'")) /\
  (forall i, has_char "." (subsystem i) = false -> has_char "." (type i) = false ->
     has_char "." (name i) = false ->
     (forall t, In t translators -> ident t <> i) ->
     select translators (translatedBy i) =
       Exits ("Could not find translator '" ++ translatedBy i ++ "'")).
Proof.
  intros Hs. destruct (translatorsSorted_spec _ _ Hs) as (Hperm & _ & _).
  split.
  - intros n Hn Hne Hnone. unfold select. rewrite Hs.
    apply String.eqb_neq in Hne. rewrite Hne.
    rewrite (split_no_sep _ _ Hn). cbn [List.length Nat.eqb].
    destruct (filter _ sorted) as [|t0 rest] eqn:Hf; [reflexivity|].
    exfalso. assert (Hin : In t0 (filter (fun t => strs_eqb [name (ident t)] [n]) sorted))
      by (rewrite Hf; left; reflexivity).
    apply filter_In in Hin. destruct Hin as [Hin Hp].
    apply strs_eqb_eq in Hp.
    apply (Hnone t0); [eapply Permutation_in; [apply Permutation_sym|]; eassumption|].
    congruence.
  - intros i H1 H2 H3 Hnone. unfold select. rewrite Hs, translatedBy_not_empty.
    rewrite (translatedBy_parts _ H1 H2 H3). cbn [List.length Nat.eqb].
    destruct (filter _ sorted) as [|t0 rest] eqn:Hf; [reflexivity|].
    exfalso.
    assert (Hin : In t0 (filter (fun t => strs_eqb [subsystem (ident t); type (ident t);
                                                    name (ident t)]
                                           [subsystem i; type i; name i]) sorted))
      by (rewrite Hf; left; reflexivity).
    apply filter_In in Hin. destruct Hin as [Hin Hp].
    apply ident_parts in Hp.
    apply (Hnone t0); [eapply Permutation_in; [apply Permutation_sym|]; eassumption|].
    exact Hp.
Qed.

Lemma unknown_translator_exits_witness :
  select [package_lock_impure; package_lock_pure] "yarn-lock" =
    Exits "Could not find translator 'yarn-lock'".
Proof.
  apply (proj1 (unknown_translator_exits [package_lock_impure; package_lock_pure]
                  [package_lock_pure; package_lock_impure] eq_refl) "yarn-lock").
  - reflexivity.
  - discriminate.
  - intros t [<-|[<-|[]]]; discriminate.
Defined.

(** X7: the text written to [translatedBy] selects the translator again:
    for a translator of the list whose three fields hold no dot,
    [--translator subsystem.type.name] selects a translator of the list with
    the same three fields. *)
Theorem stamped_name_selects_translator (translators sorted : list entry) (t : entry) :
  translatorsSorted translators = Some sorted ->
  In t translators ->
  has_char "." (subsystem (ident t)) = false ->
  has_char "." (type (ident t)) = false ->
  has_char "." (name (ident t)) = false ->
  exists t', select translators (translatedBy (ident t)) = Selected t' /\
             In t' translators /\ ident t' = ident t.
Proof.
  intros Hs Hin H1 H2 H3. destruct (translatorsSorted_spec _ _ Hs) as (Hperm & _ & _).
  unfold select. rewrite Hs, translatedBy_not_empty.
  rewrite (translatedBy_parts _ H1 H2 H3). cbn [List.length Nat.eqb].
  destruct (filter _ sorted) as [|t0 rest] eqn:Hf.
  - exfalso. pose proof (filter_nil_none _ _ Hf t) as Hno. cbv beta in Hno.
    rewrite (proj2 (ident_parts _ _) eq_refl) in Hno.
    specialize (Hno (Permutation_in _ Hperm Hin)). discriminate.
  - exists t0. split; [reflexivity|].
    assert (Hin0 : In t0 (filter (fun t' => strs_eqb [subsystem (ident t'); type (ident t');
                                                     name (ident t')]
                                            [subsystem (ident t); type (ident t);
                                             name (ident t)]) sorted))
      by (rewrite Hf; left; reflexivity).
    apply filter_In in Hin0. destruct Hin0 as [Hin0 Hp].
    split; [eapply Permutation_in; [apply Permutation_sym|]; eassumption|].
    apply ident_parts. exact Hp.
Qed.

Lemma stamped_name_selects_translator_witness :
  exists t', select [package_lock_impure; package_lock_pure] "nodejs.impure.package-lock"
               = Selected t' /\
             ident t' = ident package_lock_impure.
Proof.
  destruct (stamped_name_selects_translator [package_lock_impure; package_lock_pure]
              [package_lock_pure; package_lock_impure] package_lock_impure
              eq_refl (or_introl eq_refl) eq_refl eq_refl eq_refl) as (t' & H1 & _ & H3).
  exists t'. split; [exact H1 | exact H3].
Defined.

(** X8: a [--translator] with one dot, or with three or more, is neither
    looked up nor refused by lines 150-164: [translator] stays the list of
    its parts (and line 167 then fails on it), whatever the translators
    are. *)
Theorem other_part_counts_are_not_looked_up (translators sorted : list entry)
    (translator : string) :
  translatorsSorted translators = Some sorted ->
  translator <> "" ->
  count_char "." translator <> 0 -> count_char "." translator <> 2 ->
  select translators translator = NotLookedUp (split "." translator).
Proof.
  intros Hs Hne H0 H2. unfold select. rewrite Hs.
  apply String.eqb_neq in Hne. rewrite Hne. rewrite length_split.
  destruct (count_char "." translator) as [|[|[|c]]]; try reflexivity; congruence.
Qed.

Lemma other_part_counts_are_not_looked_up_witness :
  select [package_lock_impure; package_lock_pure] "nodejs.package-lock" =
    NotLookedUp ["nodejs"; "package-lock"].
Proof.
  apply (other_part_counts_are_not_looked_up [package_lock_impure; package_lock_pure]
           [package_lock_pure; package_lock_impure] "nodejs.package-lock" eq_refl);
    discriminate.
Defined.

(** X9: if one translator of the list has a type other than [pure],
    [ifd] and [impure], lines 127-133 raise [ValueError] before the option
    [--translator] is read, whatever it is. *)
Theorem unknown_type_is_value_error (translators : list entry) (t : entry)
    (translator : string) :
  In t translators -> type_rank t = None ->
  select translators translator = ValueError.
Proof.
  intros Hin Ht. unfold select, translatorsSorted.
  rewrite (keyed_none translators t Hin); [reflexivity|].
  unfold sort_key. unfold type_rank in Ht. rewrite Ht. reflexivity.
Qed.

Lemma unknown_type_is_value_error_witness :
  select [package_lock_pure;
          {| ident := {| subsystem := "python"; type := "external"; name := "pip" |};
             compatible := false; extraArgs := [] |}]
         "package-lock" = ValueError.
Proof.
  eapply unknown_type_is_value_error.
  - right. left. reflexivity.
  - reflexivity.
Defined.

End SelectFacts.

(** ** The loop over the extra arguments, as a function of each argument *)

Module ExtraArgsLoop.
Import ExtraArgs DictFacts ExtraArgsFacts.

(** The boolean a flag is given for a text: one of the six words decides,
    and any other text counts as [bool(text)]. *)
Definition flag_value (s : string) : bool :=
  if in_words (lower s) yes_words then true
  else if in_words (lower s) no_words then false
  else negb (String.eqb s "").

Definition is_flag (extraArgs : dict extra_arg) (k : string) : bool :=
  match dict_get k extraArgs with
  | Some decl => String.eqb (arg_type decl) "flag"
  | None => false
  end.

(** The final value of an argument given as [k=s]. *)
Definition arg_value (extraArgs : dict extra_arg) (kv : string * string) : argval :=
  if is_flag extraArgs (fst kv) then ABool (flag_value (snd kv)) else AStr (snd kv).

(** The arguments that are reported on stderr. *)
Definition invalid (extraArgs : dict extra_arg) (kv : string * string) : bool :=
  is_flag extraArgs (fst kv) &&
  negb (in_words (lower (snd kv)) yes_words) &&
  negb (in_words (lower (snd kv)) no_words).

Definition invalid_line (kv : string * string) : string :=
  ("Invalid value " ++ snd kv ++ " for argument " ++ fst kv)%string.

(** The value after the loop of lines 178-188, before line 190. *)
Definition loop_value (extraArgs : dict extra_arg) (kv : string * string) : argval :=
  if is_flag extraArgs (fst kv) then
    if in_words (lower (snd kv)) yes_words then ABool true
    else if in_words (lower (snd kv)) no_words then ABool false
    else AStr (snd kv)
  else AStr (snd kv).

Lemma dict_set_app_new {V : Type} (k : string) (v v0 : V) (pre rest : dict V) :
  ~ In k (keys pre) ->
  dict_set k v (pre ++ (k, v0) :: rest) = pre ++ (k, v) :: rest.
Proof.
  induction pre as [|[k' v'] pre IH]; simpl; intros Hk.
  - rewrite String.eqb_refl. reflexivity.
  - destruct (String.eqb_spec k' k) as [->|Hne]; [exfalso; auto|].
    rewrite IH by auto. reflexivity.
Qed.

Lemma no_unknown (extraArgs : dict extra_arg) (specified : dict string) :
  (forall k, In k (keys specified) -> dict_has k extraArgs = true) ->
  unknown_extra_args extraArgs specified = [].
Proof.
  unfold unknown_extra_args. induction (keys specified) as [|k l IH]; intros H; [reflexivity|].
  simpl. rewrite (H k (or_introl eq_refl)). simpl. apply IH.
  intros k' Hk'. apply H. right. exact Hk'.
Qed.

Lemma flag_loop_spec (extraArgs : dict extra_arg) : forall items pre err,
  NoDup (keys pre ++ keys items) ->
  (forall k, In k (keys items) -> dict_has k extraArgs = true) ->
  flag_loop extraArgs
    {| stderr := err; args := pre ++ map (fun kv => (fst kv, AStr (snd kv))) items |}
    items =
  Ok {| stderr := err ++ map invalid_line (filter (invalid extraArgs) items);
        args := pre ++ map (fun kv => (fst kv, loop_value extraArgs kv)) items |}.
Proof.
  induction items as [|[k s] items IH]; intros pre err Hnd Hdecl.
  - simpl. rewrite !app_nil_r. reflexivity.
  - assert (Hk : ~ In k (keys pre)).
    { intros Hin. apply NoDup_remove_2 in Hnd. apply Hnd.
      apply in_or_app. left. exact Hin. }
    assert (Hnd' : NoDup (keys (pre ++ [(k, loop_value extraArgs (k, s))]) ++ keys items)).
    { unfold keys in *. rewrite map_app, <- app_assoc. exact Hnd. }
    assert (Hdecl' : forall k0, In k0 (keys items) -> dict_has k0 extraArgs = true)
      by (intros k0 H0; apply Hdecl; right; exact H0).
    pose proof (Hdecl k (or_introl eq_refl)) as Hhas.
    apply dict_has_get in Hhas. destruct Hhas as [decl Hdecl0].
    cbn [flag_loop flag_step]. unfold getitem. rewrite Hdecl0. cbn [bind map fst snd filter].
    assert (Hlv : loop_value extraArgs (k, s) =
                  if String.eqb (arg_type decl) "flag" then
                    if in_words (lower s) yes_words then ABool true
                    else if in_words (lower s) no_words then ABool false
                    else AStr s
                  else AStr s)
      by (unfold loop_value, is_flag; cbn [fst snd]; rewrite Hdecl0; reflexivity).
    assert (Hinv : invalid extraArgs (k, s) =
                   String.eqb (arg_type decl) "flag" &&
                   negb (in_words (lower s) yes_words) &&
                   negb (in_words (lower s) no_words))
      by (unfold invalid, is_flag; cbn [fst snd]; rewrite Hdecl0; reflexivity).
    rewrite Hinv.
    pose proof (IH (pre ++ [(k, loop_value extraArgs (k, s))]) err Hnd' Hdecl') as IH1.
    pose proof (IH (pre ++ [(k, loop_value extraArgs (k, s))])
                  (err ++ [invalid_line (k, s)]) Hnd' Hdecl') as IH2.
    rewrite <- !app_assoc in IH1. rewrite <- !app_assoc in IH2.
    rewrite <- ?app_assoc in IH2. cbn [app] in IH1, IH2.
    destruct (String.eqb (arg_type decl) "flag");
      [destruct (in_words (lower s) yes_words);
         [|destruct (in_words (lower s) no_words)]|];
      cbn [andb negb stderr args bind map app];
      rewrite ?(dict_set_app_new _ _ _ _ _ Hk); rewrite Hlv in *;
      first [exact IH1 | exact IH2].
Qed.

Lemma coerce_flags_spec (extraArgs : dict extra_arg) (items : dict string) :
  (forall k, In k (keys items) -> dict_has k extraArgs = true) ->
  coerce_flags extraArgs (map (fun kv => (fst kv, loop_value extraArgs kv)) items) =
  Ok (map (fun kv => (fst kv, arg_value extraArgs kv)) items).
Proof.
  induction items as [|[k s] items IH]; intros Hdecl; [reflexivity|].
  cbn [map coerce_flags fst snd]. rewrite IH by (intros k0 H0; apply Hdecl; right; exact H0).
  pose proof (Hdecl k (or_introl eq_refl)) as Hhas.
  apply dict_has_get in Hhas. destruct Hhas as [decl Hdecl0].
  unfold getitem. rewrite Hdecl0. cbn [bind].
  unfold arg_value, loop_value, is_flag, flag_value. cbn [fst snd]. rewrite Hdecl0.
  destruct (String.eqb (arg_type decl) "flag"); [|reflexivity].
  destruct (in_words (lower s) yes_words); [reflexivity|].
  destruct (in_words (lower s) no_words); reflexivity.
Qed.

(** When every name is declared, the lines on stderr and the final
    dictionary are these. *)
Lemma check_extra_args_declared (name : string) (extraArgs : dict extra_arg)
    (specified : dict string) :
  NoDup (keys specified) ->
  (forall k, In k (keys specified) -> dict_has k extraArgs = true) ->
  check_extra_args name extraArgs specified =
    (map invalid_line (filter (invalid extraArgs) specified),
     Ok (map (fun kv => (fst kv, arg_value extraArgs kv)) specified)).
Proof.
  intros Hnd Hdecl. unfold check_extra_args. rewrite (no_unknown _ _ Hdecl).
  pose proof (flag_loop_spec extraArgs specified [] [] Hnd Hdecl) as Hloop.
  cbn [app] in Hloop. rewrite Hloop.
  cbn [stderr args]. rewrite (coerce_flags_spec _ _ Hdecl). reflexivity.
Qed.

(** Past line 175 every name is declared. *)
Lemma check_extra_args_ok_declared (name : string) (extraArgs : dict extra_arg)
    (specified : dict string) (err : list string) (d : dict argval) :
  check_extra_args name extraArgs specified = (err, Ok d) ->
  forall k, In k (keys specified) -> dict_has k extraArgs = true.
Proof.
  unfold check_extra_args, unknown_extra_args.
  destruct (filter _ (keys specified)) as [|u us] eqn:Hf; [|discriminate].
  intros _ k Hk. destruct (dict_has k extraArgs) eqn:E; [reflexivity|].
  assert (Hin : In k (filter (fun k => negb (dict_has k extraArgs)) (keys specified)))
    by (apply filter_In; rewrite E; auto).
  rewrite Hf in Hin. contradiction.
Qed.

Lemma dict_get_map_In {A B : Type} (f : string * A -> B) (d : dict A)
    (k : string) (v : A) :
  NoDup (keys d) -> In (k, v) d ->
  dict_get k (map (fun kv => (fst kv, f kv)) d) = Some (f (k, v)).
Proof.
  induction d as [|[k' v'] d IH]; simpl; [tauto|].
  intros Hnd Hin. inversion Hnd as [|? ? Hk' Hnd']; subst.
  destruct Hin as [[= -> ->]|Hin]; [rewrite String.eqb_refl; reflexivity|].
  destruct (String.eqb_spec k' k) as [->|Hne]; [|auto].
  exfalso. apply Hk'. apply (in_map fst) in Hin. exact Hin.
Qed.

(** X10: when all names given with [--arg] are declared by the
    translator, lines 166-192 do not exit; the result has the same names in
    the same order; a flag is [True] for [yes], [y], [true] and [False] for
    [no], [n], [false] in any case of the letters, and for any other text
    it is [bool(text)] and one line [Invalid value ...] goes to stderr; an
    argument that is not a flag keeps its text. *)
Theorem declared_arguments_are_converted (name : string) (extraArgs : dict extra_arg)
    (specified : dict string) :
  NoDup (keys specified) ->
  (forall k, In k (keys specified) -> dict_has k extraArgs = true) ->
  exists d,
    check_extra_args name extraArgs specified =
      (map invalid_line (filter (invalid extraArgs) specified), Ok d) /\
    keys d = keys specified /\
    (forall k s, In (k, s) specified ->
       dict_get k d =
         Some (if is_flag extraArgs k then ABool (flag_value s) else AStr s)).
Proof.
  intros Hnd Hdecl. eexists. split; [apply check_extra_args_declared; assumption|].
  split.
  - unfold keys. rewrite map_map. reflexivity.
  - intros k s Hin.
    exact (dict_get_map_In (arg_value extraArgs) specified k s Hnd Hin).
Qed.

(** A translator with a flag and an argument that takes a text. *)
Definition flag_and_text : dict extra_arg :=
  [("noDev", {| arg_type := "flag"; arg_default := None |});
   ("nodejs", {| arg_type := "argument"; arg_default := Some (AStr "14") |})].

Lemma declared_arguments_are_converted_witness :
  exists d,
    check_extra_args "package-lock" flag_and_text
      [("nodejs", "Yes"); ("noDev", "YES")] = ([], Ok d) /\
    dict_get "noDev" d = Some (ABool true) /\
    dict_get "nodejs" d = Some (AStr "Yes").
Proof.
  destruct (declared_arguments_are_converted "package-lock" flag_and_text
              [("nodejs", "Yes"); ("noDev", "YES")]) as (d & Hrun & _ & Hget).
  - repeat constructor; simpl; intuition discriminate.
  - intros k [<-|[<-|[]]]; reflexivity.
  - exists d. split; [exact Hrun|]. split.
    + apply (Hget "noDev" "YES"). right. left. reflexivity.
    + apply (Hget "nodejs" "Yes"). left. reflexivity.
Defined.

(** X11: lines 166-192 end with [exit(1)] exactly when a name given with
    [--arg] is not declared by the translator, and they return a dictionary
    exactly when every name is declared: no other exception comes out of
    them. *)
Theorem exit_iff_undeclared_name (name : string) (extraArgs : dict extra_arg)
    (specified : dict string) :
  NoDup (keys specified) ->
  (snd (check_extra_args name extraArgs specified) = Raise (SystemExit 1) <->
   exists k, In k (keys specified) /\ dict_has k extraArgs = false) /\
  ((forall k, In k (keys specified) -> dict_has k extraArgs = true) <->
   exists d, snd (check_extra_args name extraArgs specified) = Ok d).
Proof.
  intros Hnd.
  destruct (forallb (fun k => dict_has k extraArgs) (keys specified)) eqn:Hall.
  - rewrite forallb_forall in Hall.
    rewrite (check_extra_args_declared _ _ _ Hnd Hall). cbn [snd].
    split; split.
    + discriminate.
    + intros (k & Hk & Hno). rewrite (Hall k Hk) in Hno. discriminate.
    + intros _. eexists. reflexivity.
    + intros _. exact Hall.
  - assert (Hex : exists k, In k (keys specified) /\ dict_has k extraArgs = false).
    { clear Hnd. induction (keys specified) as [|k l IH]; [discriminate|].
      simpl in Hall. destruct (dict_has k extraArgs) eqn:Hk.
      - destruct (IH Hall) as (k' & Hin & Hno). exists k'. split; [right; exact Hin | exact Hno].
      - exists k. split; [left; reflexivity | exact Hk]. }
    destruct Hex as (k & Hk & Hno).
    destruct (unknown_name_exits name _ _ _ Hk Hno) as (msg & Hrun & _).
    rewrite Hrun. cbn [snd]. split; split.
    + intros _. exists k. split; assumption.
    + reflexivity.
    + intros H. rewrite (H k Hk) in Hno. discriminate.
    + intros [d Hd]. discriminate.
Qed.

Lemma exit_iff_undeclared_name_witness :
  snd (check_extra_args "package-lock" flag_and_text [("nodev", "yes")]) =
    Raise (SystemExit 1).
Proof.
  apply (proj1 (exit_iff_undeclared_name "package-lock" flag_and_text [("nodev", "yes")]
                  ltac:(repeat constructor; simpl; intuition discriminate))).
  exists "nodev". split; [left; reflexivity | reflexivity].
Defined.

End ExtraArgsLoop.

(** ** Defaults and missing arguments *)

Module DefaultsFacts.
Import ExtraArgs Defaults DictFacts ExtraArgsLoop.

(** A declared argument that has neither a value nor a default. *)
Definition required (specified : dict argval) (nv : string * extra_arg) : bool :=
  negb (dict_has (fst nv) specified) &&
  match arg_default (snd nv) with None => true | Some _ => false end.

Lemma dict_has_keys {V : Type} (k : string) (d : dict V) :
  dict_has k d = true <-> In k (keys d).
Proof.
  unfold dict_has. induction d as [|[k' v] d IH]; simpl; [split; [discriminate | tauto]|].
  destruct (String.eqb_spec k' k) as [->|Hne].
  - split; auto.
  - rewrite IH. split; [auto | intros [E|H]; [contradiction | exact H]].
Qed.

Lemma dict_has_no_key {V : Type} (k : string) (d : dict V) :
  dict_has k d = false <-> ~ In k (keys d).
Proof.
  rewrite <- dict_has_keys. destruct (dict_has k d); split; congruence.
Qed.

Lemma keys_dict_set {V : Type} (k : string) (v : V) (d : dict V) (k0 : string) :
  In k0 (keys (dict_set k v d)) <-> k0 = k \/ In k0 (keys d).
Proof.
  induction d as [|[k' v'] d IH]; simpl; [intuition|].
  destruct (String.eqb_spec k' k) as [->|Hne]; simpl; [intuition|].
  rewrite IH. intuition.
Qed.

Lemma keys_update {V : Type} (other d : dict V) (k : string) :
  In k (keys (update d other)) <-> In k (keys d) \/ In k (keys other).
Proof.
  unfold update. revert d. induction other as [|[k' v'] other IH]; intros d; simpl.
  - tauto.
  - rewrite IH, keys_dict_set. simpl. intuition.
Qed.

Lemma update_new {V : Type} (other d : dict V) :
  NoDup (keys d ++ keys other) -> update d other = d ++ other.
Proof.
  unfold update. revert d. induction other as [|[k v] other IH]; intros d Hnd; simpl.
  - rewrite app_nil_r. reflexivity.
  - rewrite Parser.dict_set_new.
    + rewrite IH; [rewrite <- app_assoc; reflexivity|].
      unfold keys in *. rewrite map_app, <- app_assoc. exact Hnd.
    + simpl in Hnd. apply NoDup_remove_2 in Hnd.
      intros Hin. apply Hnd. apply in_or_app. left. exact Hin.
Qed.

Lemma In_assumed (extraArgs : dict extra_arg) (specified : dict argval)
    (n : string) (v : argval) :
  In (n, v) (assumed extraArgs specified) <->
  exists decl default,
    In (n, decl) extraArgs /\ dict_has n specified = false /\
    arg_default decl = Some default /\
    v = (if String.eqb (arg_type decl) "flag" then ABool true else default).
Proof.
  unfold assumed. rewrite in_flat_map. split.
  - intros ([n' decl] & Hin & Hv). cbn [fst snd] in Hv.
    destruct (arg_default decl) as [default|] eqn:Hd; [|contradiction].
    destruct (dict_has n' specified) eqn:Hs; [contradiction|].
    destruct Hv as [[= -> <-]|[]]. exists decl, default. auto.
  - intros (decl & default & Hin & Hs & Hd & ->).
    exists (n, decl). split; [exact Hin|]. cbn [fst snd]. rewrite Hd, Hs.
    left. reflexivity.
Qed.

Lemma keys_assumed (extraArgs : dict extra_arg) (specified : dict argval) (n : string) :
  In n (keys (assumed extraArgs specified)) ->
  In n (keys extraArgs) /\ dict_has n specified = false.
Proof.
  unfold keys. rewrite in_map_iff. intros ([n' v] & <- & Hin).
  apply In_assumed in Hin. destruct Hin as (decl & default & Hin & Hs & _).
  split; [|exact Hs]. apply in_map_iff. exists (n', decl). auto.
Qed.

Lemma NoDup_keys_assumed (extraArgs : dict extra_arg) (specified : dict argval) :
  NoDup (keys extraArgs) -> NoDup (keys (assumed extraArgs specified)).
Proof.
  induction extraArgs as [|[n decl] extraArgs IH]; simpl; intros Hnd; [constructor|].
  inversion Hnd as [|? ? Hn Hnd']; subst. cbn [fst snd].
  destruct (arg_default decl); [|apply IH; exact Hnd'].
  destruct (dict_has n specified); [apply IH; exact Hnd'|].
  simpl. constructor; [|apply IH; exact Hnd'].
  intros Hin. apply keys_assumed in Hin. apply Hn, Hin.
Qed.

(** With the names of [extraArgs] pairwise different, [update] puts the
    assumed values behind the specified ones. *)
Lemma update_assumed (extraArgs : dict extra_arg) (specified : dict argval) :
  NoDup (keys specified) -> NoDup (keys extraArgs) ->
  update specified (assumed extraArgs specified) =
  specified ++ assumed extraArgs specified.
Proof.
  intros Hs He. apply update_new.
  apply NoDup_app; [exact Hs | apply NoDup_keys_assumed; exact He|].
  intros k Hk Hk'. apply keys_assumed in Hk'. destruct Hk' as [_ Hno].
  apply dict_has_no_key in Hno. contradiction.
Qed.

Lemma dict_get_app {V : Type} (k : string) (d d' : dict V) :
  dict_get k (d ++ d') =
  match dict_get k d with Some v => Some v | None => dict_get k d' end.
Proof.
  induction d as [|[k' v'] d IH]; simpl; [reflexivity|].
  destruct (String.eqb k' k); [reflexivity | exact IH].
Qed.

Lemma In_unique {V : Type} (d : dict V) (k : string) (a b : V) :
  NoDup (keys d) -> In (k, a) d -> In (k, b) d -> a = b.
Proof.
  induction d as [|[k' v'] d IH]; simpl; [tauto|].
  intros Hnd Ha Hb. inversion Hnd as [|? ? Hk Hnd']; subst.
  destruct Ha as [[= -> ->]|Ha], Hb as [[= <-]|Hb]; auto.
  - exfalso. apply Hk. apply (in_map fst) in Hb. exact Hb.
  - exfalso. apply Hk. apply (in_map fst) in Ha. exact Ha.
Qed.

(** What is still missing after the defaults. *)
Lemma unspecified_required (extraArgs : dict extra_arg) (specified : dict argval) :
  NoDup (keys extraArgs) ->
  unspecified_extra_args extraArgs (update specified (assumed extraArgs specified)) =
  filter (required specified) extraArgs.
Proof.
  intros Hnd. unfold unspecified_extra_args. apply filter_ext_in.
  intros [n decl] Hin. unfold required. cbn [fst snd].
  destruct (dict_has n (update specified (assumed extraArgs specified))) eqn:Hu.
  - apply dict_has_keys, keys_update in Hu. destruct Hu as [Hu|Hu].
    + apply dict_has_keys in Hu. rewrite Hu. reflexivity.
    + unfold keys in Hu. apply in_map_iff in Hu. destruct Hu as ([n' v] & E & Hv).
      simpl in E. subst n'. apply In_assumed in Hv.
      destruct Hv as (decl' & default & Hin' & Hs & Hd & _).
      assert (decl' = decl) by (eapply In_unique; eassumption).
      subst decl'. rewrite Hs, Hd. reflexivity.
  - apply dict_has_no_key in Hu.
    assert (Hs : dict_has n specified = false).
    { apply dict_has_no_key. intros H. apply Hu, keys_update. left. exact H. }
    rewrite Hs. simpl. destruct (arg_default decl) as [default|] eqn:Hd; [|reflexivity].
    exfalso. apply Hu, keys_update. right.
    unfold keys. apply in_map_iff.
    exists (n, if String.eqb (arg_type decl) "flag" then ABool true else default).
    split; [reflexivity|]. apply In_assumed. exists decl, default. auto.
Qed.


Lemma non_interactive_ok (name : string) (extraArgs : dict extra_arg)
    (specified d : dict argval) (err : list string) :
  non_interactive name extraArgs specified = (err, Ok d) ->
  d = update specified (assumed extraArgs specified) /\
  unspecified_extra_args extraArgs d = [].
Proof.
  unfold non_interactive.
  destruct (unspecified_extra_args extraArgs _) as [|m ms] eqn:Hu; [|discriminate].
  intros [= _ <-]. auto.
Qed.

Lemma dict_get_assumed (extraArgs : dict extra_arg) (specified : dict argval)
    (n : string) (decl : extra_arg) (default : argval) :
  NoDup (keys extraArgs) -> In (n, decl) extraArgs ->
  dict_has n specified = false -> arg_default decl = Some default ->
  dict_get n (assumed extraArgs specified) =
    Some (if String.eqb (arg_type decl) "flag" then ABool true else default).
Proof.
  intros Hnd Hin Hs Hd.
  assert (Hv : In (n, if String.eqb (arg_type decl) "flag" then ABool true else default)
                 (assumed extraArgs specified))
    by (apply In_assumed; exists decl, default; auto).
  pose proof (NoDup_keys_assumed _ specified Hnd) as Hnd'.
  revert Hv Hnd'. generalize (assumed extraArgs specified).
  generalize (if String.eqb (arg_type decl) "flag" then ABool true else default).
  intros v l. induction l as [|[k x] l IH]; simpl; [tauto|].
  intros Hv Hl. inversion Hl as [|? ? Hk Hl']; subst.
  destruct Hv as [[= -> ->]|Hv]; [rewrite String.eqb_refl; reflexivity|].
  destruct (String.eqb_spec k n) as [->|Hne]; [|auto].
  exfalso. apply Hk. apply (in_map fst) in Hv. exact Hv.
Qed.

(** X12: in a session without a terminal, the values given on the
    command line are kept and stay first, in their order; the assumed
    defaults are put behind them, in the order of [extraArgs]. *)
Theorem specified_values_are_kept (name : string) (extraArgs : dict extra_arg)
    (specified d : dict argval) (err : list string) :
  NoDup (keys specified) -> NoDup (keys extraArgs) ->
  non_interactive name extraArgs specified = (err, Ok d) ->
  d = specified ++ assumed extraArgs specified /\
  (forall k v, dict_get k specified = Some v -> dict_get k d = Some v).
Proof.
  intros Hs He Hrun. apply non_interactive_ok in Hrun. destruct Hrun as [-> _].
  rewrite (update_assumed _ _ Hs He). split; [reflexivity|].
  intros k v Hk. rewrite dict_get_app, Hk. reflexivity.
Qed.

(** A flag whose declared default is [False], and an argument with the
    default [14]. *)
Definition with_defaults : dict extra_arg :=
  [("noDev", {| arg_type := "flag"; arg_default := Some (ABool false) |});
   ("nodejs", {| arg_type := "argument"; arg_default := Some (AStr "14") |})].

Lemma specified_values_are_kept_witness :
  non_interactive "package-lock" with_defaults [("nodejs", AStr "16")] =
    ([], Ok [("nodejs", AStr "16"); ("noDev", ABool true)]) /\
  dict_get "nodejs" [("nodejs", AStr "16"); ("noDev", ABool true)] = Some (AStr "16").
Proof.
  assert (Hrun : non_interactive "package-lock" with_defaults [("nodejs", AStr "16")] =
                   ([], Ok [("nodejs", AStr "16"); ("noDev", ABool true)]))
    by reflexivity.
  split; [exact Hrun|].
  apply (proj2 (specified_values_are_kept "package-lock" with_defaults
                  [("nodejs", AStr "16")] _ []
                  ltac:(repeat constructor; simpl; intuition discriminate)
                  ltac:(repeat constructor; simpl; intuition discriminate)
                  Hrun)).
  reflexivity.
Defined.

(** X13: in a session without a terminal, lines 194-212 end with
    [exit(1)] exactly when a declared argument has neither a value nor a
    default; otherwise they return a dictionary that has a value for every
    declared argument. *)
Theorem missing_argument_exits (name : string) (extraArgs : dict extra_arg)
    (specified : dict argval) :
  NoDup (keys extraArgs) ->
  (snd (non_interactive name extraArgs specified) = Raise (SystemExit 1) <->
   exists n decl, In (n, decl) extraArgs /\ dict_has n specified = false /\
                  arg_default decl = None) /\
  ((forall n decl, In (n, decl) extraArgs -> dict_has n specified = false ->
                   arg_default decl <> None) ->
   exists d, snd (non_interactive name extraArgs specified) = Ok d /\
             forall n, In n (keys extraArgs) -> dict_has n d = true).
Proof.
  intros Hnd. unfold non_interactive.
  pose proof (unspecified_required _ specified Hnd) as Hreq. rewrite Hreq.
  destruct (filter (required specified) extraArgs) as [|[m decl] ms] eqn:Hf.
  - pose proof (SelectFacts.filter_nil_none _ _ Hf) as Hnone.
    cbn [snd]. split; [split|].
    + discriminate.
    + intros (n & d & Hin & Hs & Hd). exfalso.
      specialize (Hnone (n, d) Hin). unfold required in Hnone. cbn [fst snd] in Hnone.
      rewrite Hs, Hd in Hnone. discriminate.
    + intros _. eexists. split; [reflexivity|].
      intros n Hn. unfold keys in Hn. apply in_map_iff in Hn.
      destruct Hn as ([n' d] & <- & Hin). cbn [fst].
      destruct (dict_has n' (update specified (assumed extraArgs specified))) eqn:E;
        [reflexivity|].
      exfalso.
      assert (Hu : In (n', d) (unspecified_extra_args extraArgs
                                 (update specified (assumed extraArgs specified)))).
      { apply filter_In. cbn [fst]. rewrite E. auto. }
      rewrite Hreq in Hu. exact Hu.
  - assert (Hm : In (m, decl) (filter (required specified) extraArgs))
      by (rewrite Hf; left; reflexivity).
    apply filter_In in Hm. destruct Hm as [Hin Hr].
    unfold required in Hr. cbn [fst snd] in Hr.
    apply andb_true_iff in Hr. destruct Hr as [Hs Hd].
    apply negb_true_iff in Hs.
    destruct (arg_default decl) eqn:Hdef; [discriminate|].
    cbn [snd]. split; [split|].
    + intros _. exists m, decl. auto.
    + reflexivity.
    + intros H. exfalso. exact (H m decl Hin Hs Hdef).
Qed.

Lemma missing_argument_exits_witness :
  snd (non_interactive "package-lock" flag_and_text []) = Raise (SystemExit 1).
Proof.
  apply (proj1 (missing_argument_exits "package-lock" flag_and_text []
                  ltac:(repeat constructor; simpl; intuition discriminate))).
  exists "noDev", {| arg_type := "flag"; arg_default := None |}.
  split; [left; reflexivity|]. split; reflexivity.
Defined.

(** X14: in a session without a terminal, an argument left out that
    declares a default gets that default, unless it is a flag: a flag left
    out gets [True] whenever it declares a default, whatever that default
    is. *)
Theorem assumed_flag_is_true (name : string) (extraArgs : dict extra_arg)
    (specified d : dict argval) (err : list string)
    (n : string) (decl : extra_arg) (default : argval) :
  NoDup (keys specified) -> NoDup (keys extraArgs) ->
  In (n, decl) extraArgs -> dict_has n specified = false ->
  arg_default decl = Some default ->
  non_interactive name extraArgs specified = (err, Ok d) ->
  dict_get n d =
    Some (if String.eqb (arg_type decl) "flag" then ABool true else default).
Proof.
  intros Hs He Hin Hno Hd Hrun. apply non_interactive_ok in Hrun. destruct Hrun as [-> _].
  rewrite (update_assumed _ _ Hs He), dict_get_app.
  rewrite (proj1 (dict_has_false _ _) Hno).
  apply dict_get_assumed; assumption.
Qed.

Lemma assumed_flag_is_true_witness :
  arg_default {| arg_type := "flag"; arg_default := Some (ABool false) |} =
    Some (ABool false) /\
  dict_get "noDev" [("nodejs", AStr "16"); ("noDev", ABool true)] = Some (ABool true).
Proof.
  split; [reflexivity|].
  exact (assumed_flag_is_true "package-lock" with_defaults [("nodejs", AStr "16")]
           [("nodejs", AStr "16"); ("noDev", ABool true)] []
           "noDev" {| arg_type := "flag"; arg_default := Some (ABool false) |}
           (ABool false)
           ltac:(repeat constructor; simpl; intuition discriminate)
           ltac:(repeat constructor; simpl; intuition discriminate)
           (or_introl eq_refl) eq_refl eq_refl eq_refl).
Defined.

(** X15: when exactly one declared argument has neither a value nor a
    default, the line printed before [exit(1)] is the bare name of that
    argument: in line 208 the sentence is joined to [', '] and serves as the
    separator of [join], which a single name never shows. *)
Theorem one_missing_argument_prints_its_name (name : string)
    (extraArgs : dict extra_arg) (specified : dict argval)
    (n : string) (decl : extra_arg) :
  NoDup (keys extraArgs) ->
  filter (required specified) extraArgs = [(n, decl)] ->
  non_interactive name extraArgs specified = ([n], Raise (SystemExit 1)).
Proof.
  intros Hnd Hf. unfold non_interactive.
  rewrite (unspecified_required _ _ Hnd), Hf. reflexivity.
Qed.

Lemma one_missing_argument_prints_its_name_witness :
  non_interactive "package-lock" flag_and_text [] = (["noDev"], Raise (SystemExit 1)).
Proof.
  apply (one_missing_argument_prints_its_name "package-lock" flag_and_text [] "noDev"
           {| arg_type := "flag"; arg_default := None |}).
  - repeat constructor; simpl; intuition discriminate.
  - reflexivity.
Defined.

(** X16: lines 166-212 together, without a terminal: when both the check
    of the names and the defaults go through, the final dictionary has a
    value for a name exactly when the translator declares that name. *)
Theorem translator_gets_the_declared_arguments (name : string)
    (extraArgs : dict extra_arg) (specified : dict string)
    (checked final : dict argval) (err1 err2 : list string) :
  NoDup (keys specified) ->
  check_extra_args name extraArgs specified = (err1, Ok checked) ->
  non_interactive name extraArgs checked = (err2, Ok final) ->
  forall k, dict_has k final = dict_has k extraArgs.
Proof.
  intros Hnd Hcheck Hrun k.
  pose proof (check_extra_args_ok_declared _ _ _ _ _ Hcheck) as Hdecl.
  rewrite (check_extra_args_declared _ _ _ Hnd Hdecl) in Hcheck.
  injection Hcheck as _ <-.
  apply non_interactive_ok in Hrun. destruct Hrun as [Hfinal Hnone].
  destruct (dict_has k extraArgs) eqn:Hk.
  - destruct (dict_has k final) eqn:Hf; [reflexivity|]. exfalso.
    apply dict_has_get in Hk. destruct Hk as [decl Hget].
    assert (Hin : In (k, decl) extraArgs).
    { clear - Hget. induction extraArgs as [|[k' v'] l IH]; simpl in *; [discriminate|].
      destruct (String.eqb_spec k' k) as [->|Hne]; [left; congruence | right; auto]. }
    assert (Hu : In (k, decl) (unspecified_extra_args extraArgs final)).
    { apply filter_In. cbn [fst]. rewrite Hf. auto. }
    rewrite Hnone in Hu. exact Hu.
  - apply dict_has_no_key. intros Hin. apply dict_has_no_key in Hk. apply Hk.
    rewrite Hfinal in Hin. apply keys_update in Hin. destruct Hin as [Hin|Hin].
    + apply dict_has_keys, Hdecl. unfold keys in Hin |- *.
      rewrite map_map in Hin. exact Hin.
    + apply keys_assumed in Hin. apply Hin.
Qed.

Lemma translator_gets_the_declared_arguments_witness :
  dict_has "noDev" [("nodejs", AStr "16"); ("noDev", ABool true)] = true /\
  dict_has "other" [("nodejs", AStr "16"); ("noDev", ABool true)] = false.
Proof.
  pose proof (translator_gets_the_declared_arguments "package-lock" with_defaults
                [("nodejs", "16")] [("nodejs", AStr "16")]
                [("nodejs", AStr "16"); ("noDev", ABool true)] [] []
                ltac:(repeat constructor; simpl; intuition discriminate)
                eq_refl eq_refl) as H.
  split; [exact (H "noDev") | exact (H "other")].
Defined.

End DefaultsFacts.

(** ** The translator's input *)

Module TranslatorInputFacts.
Import ExtraArgs Defaults TranslatorInput DictFacts DefaultsFacts.

Lemma dict_get_update {V : Type} (k : string) (other : dict V) : forall d,
  NoDup (keys other) ->
  dict_get k (update d other) =
  match dict_get k other with Some v => Some v | None => dict_get k d end.
Proof.
  unfold update. induction other as [|[k' v'] other IH]; intros d Hnd; [reflexivity|].
  inversion Hnd as [|? ? Hk Hnd']; subst. cbn [fold_left fst snd dict_get].
  rewrite (IH _ Hnd').
  destruct (String.eqb_spec k' k) as [->|Hne].
  - apply dict_has_no_key, dict_has_false in Hk. rewrite Hk.
    apply dict_get_set_eq.
  - rewrite (dict_get_set_neq _ _ _ _ Hne). reflexivity.
Qed.

(** X17: every extra argument is in the translator's input under its
    name, also when the name is [outputFile] or [inputDirectories], whose
    own entry it then replaces; without such an argument [outputFile] is the
    output path and [inputDirectories] the list with the source. *)
Theorem extra_arguments_reach_the_translator (source outputDreamLock : string)
    (specified_extra_args : dict argval) :
  NoDup (keys specified_extra_args) ->
  (forall k v, In (k, v) specified_extra_args ->
     dict_get k (translator_input source outputDreamLock specified_extra_args)
       = Some (arg_json v)) /\
  (dict_has "outputFile" specified_extra_args = false ->
     dict_get "outputFile" (translator_input source outputDreamLock specified_extra_args)
       = Some (JStr outputDreamLock)) /\
  (dict_has "inputDirectories" specified_extra_args = false ->
     dict_get "inputDirectories"
       (translator_input source outputDreamLock specified_extra_args)
       = Some (JList [JStr source])).
Proof.
  intros Hnd.
  assert (Hnd' : NoDup (keys (map (fun kv : string * argval => (fst kv, arg_json (snd kv)))
                                specified_extra_args)))
    by (unfold keys in *; rewrite map_map; exact Hnd).
  unfold translator_input. split; [|split].
  - intros k v Hin. rewrite (dict_get_update _ _ _ Hnd').
    rewrite (ExtraArgsLoop.dict_get_map_In (fun kv => arg_json (snd kv)) _ k v Hnd Hin).
    reflexivity.
  - intros Hno. rewrite (dict_get_update _ _ _ Hnd').
    apply dict_has_no_key in Hno.
    assert (Hn : dict_get "outputFile"
                   (map (fun kv : string * argval => (fst kv, arg_json (snd kv)))
                      specified_extra_args) = None).
    { apply dict_has_false, dict_has_no_key. unfold keys in *.
      rewrite map_map. exact Hno. }
    rewrite Hn. reflexivity.
  - intros Hno. rewrite (dict_get_update _ _ _ Hnd').
    apply dict_has_no_key in Hno.
    assert (Hn : dict_get "inputDirectories"
                   (map (fun kv : string * argval => (fst kv, arg_json (snd kv)))
                      specified_extra_args) = None).
    { apply dict_has_false, dict_has_no_key. unfold keys in *.
      rewrite map_map. exact Hno. }
    rewrite Hn. reflexivity.
Qed.

Lemma extra_arguments_reach_the_translator_witness :
  dict_get "outputFile"
    (translator_input "/src" "/out/dream-lock.json"
       [("noDev", ABool true); ("outputFile", AStr "elsewhere")])
  = Some (JStr "elsewhere").
Proof.
  apply (proj1 (extra_arguments_reach_the_translator "/src" "/out/dream-lock.json"
                  [("noDev", ABool true); ("outputFile", AStr "elsewhere")]
                  ltac:(repeat constructor; simpl; intuition discriminate))
           "outputFile" (AStr "elsewhere")).
  right. left. reflexivity.
Defined.

End TranslatorInputFacts.

(** ** What the resolver removes *)

Module Removed.
Import Nx Graph Cycles Build Resolver Ledger.

(** The edge from [u] to [v] closes a cycle of [G]: [v] leads back to [u]. *)
Definition closes_cycle (G : DiGraph) (u v : node) : Prop :=
  has_edge G u v = true /\ (v = u \/ path G v u).

Lemma walk_app_inv (G : DiGraph) (l1 l2 : list edge) : forall u w,
  walk G u (l1 ++ l2) w -> exists v, walk G u l1 v /\ walk G v l2 w.
Proof.
  induction l1 as [|e l1 IH]; simpl; intros u w H.
  - exists u. auto.
  - destruct H as (Hu & He & Hw). destruct (IH _ _ Hw) as (v & H1 & H2).
    exists v. auto.
Qed.

(** The last edge of a closed walk closes a cycle. *)
Lemma last_edge_closes (G : DiGraph) (l : list edge) (u v n : node) :
  walk G n (l ++ [(u, v)]) n -> closes_cycle G u v.
Proof.
  intros Hw. destruct (walk_app_inv _ _ _ _ _ Hw) as (m & H1 & H2).
  simpl in H2. destruct H2 as (Hm & He & Hn). subst m n.
  split; [exact He|].
  destruct l as [|e l]; [left; simpl in H1; congruence|].
  right. eapply walk_path; [|exact H1]. discriminate.
Qed.

Lemma closes_cycle_subgraph (G' G : DiGraph) (u v : node) :
  subgraph G' G -> closes_cycle G' u v -> closes_cycle G u v.
Proof.
  intros Hs [He Hp]. split; [apply Hs; exact He|].
  destruct Hp as [E|Hp]; [left; exact E | right; eapply path_subgraph; eassumption].
Qed.

Lemma while_cycle_removed : forall fuel G key removed,
  List.length (all_edges G) < fuel ->
  exists G' r,
    while_cycle fuel G key removed = Ok (G', removed ++ r) /\
    (forall u v, has_edge G' u v = true <->
                 has_edge G u v = true /\ ~ In (u, v) r) /\
    NoDup r /\
    (forall u v, In (u, v) r -> closes_cycle G u v).
Proof.
  induction fuel as [|fuel IH]; intros G key removed Hfuel; [lia|].
  simpl. destruct (Search.find_cycle_total G key) as [[cycle Hc]|Hc]; rewrite Hc.
  - destruct (Search.find_cycle_sound _ _ _ Hc) as (Hne & n & Hw & _).
    destruct (last_edge_some _ Hne) as (l & [node_from node_to] & -> & Hlast).
    rewrite Hlast. simpl.
    destruct (walk_last _ _ _ _ _ Hw) as [He _]. simpl in He.
    destruct (remove_edge_ok _ _ _ He) as [G1 HG1]. rewrite HG1. simpl.
    pose proof (remove_edge_smaller _ _ _ _ HG1) as Hlt.
    pose proof (fun x y => has_edge_remove_edge _ _ _ _ x y HG1) as Hrm.
    destruct (IH G1 key (removed ++ [(node_from, node_to)]))
      as (G' & r & Hrun & Hedges & Hnd & Hcl); [lia|].
    assert (Hsub : subgraph G1 G) by (intros x y H; apply Hrm in H; tauto).
    exists G', ((node_from, node_to) :: r).
    split; [rewrite Hrun, <- app_assoc; reflexivity|].
    split; [|split].
    + intros u v. rewrite Hedges, (Hrm u v). simpl.
      split.
      * intros [[H1 H2] H3]. split; [assumption|]. intros [E|E]; [congruence | contradiction].
      * intros [H1 H2]. split; [split; [assumption|] |]; intros E; apply H2; auto.
    + constructor; [|exact Hnd]. intros Hin.
      destruct (Hcl _ _ Hin) as [Hin' _]. apply Hrm in Hin'. destruct Hin' as [_ Hneq].
      apply Hneq. reflexivity.
    + intros u v [[= <- <-]|Hin].
      * eapply last_edge_closes. exact Hw.
      * eapply closes_cycle_subgraph; [exact Hsub | apply Hcl; exact Hin].
  - exists G, []. rewrite app_nil_r. split; [reflexivity|].
    split; [|split; [constructor | intros u v []]].
    intros u v. simpl. tauto.
Qed.

Lemma for_keys_removed : forall ks G removed,
  exists G' r,
    for_keys G ks removed = Ok (G', removed ++ r) /\
    (forall u v, has_edge G' u v = true <->
                 has_edge G u v = true /\ ~ In (u, v) r) /\
    NoDup r /\
    (forall u v, In (u, v) r -> closes_cycle G u v).
Proof.
  induction ks as [|key ks IH]; intros G removed.
  - exists G, []. rewrite app_nil_r. simpl. split; [reflexivity|].
    split; [tauto|]. split; [constructor | intros u v []].
  - cbn [for_keys].
    destruct (while_cycle_removed (S (List.length (all_edges G))) G key removed)
      as (G1 & r1 & Hrun1 & Hedges1 & Hnd1 & Hcl1); [lia|].
    rewrite Hrun1. cbn [bind].
    destruct (IH G1 (removed ++ r1)) as (G' & r2 & Hrun2 & Hedges2 & Hnd2 & Hcl2).
    assert (Hsub1 : subgraph G1 G) by (intros u v H; apply Hedges1 in H; tauto).
    exists G', (r1 ++ r2). split; [rewrite Hrun2, <- app_assoc; reflexivity|].
    split; [|split].
    + intros u v. rewrite Hedges2, Hedges1, in_app_iff. tauto.
    + apply NoDup_app; [exact Hnd1 | exact Hnd2|].
      intros [u v] H1 H2. destruct (Hcl2 _ _ H2) as [He _].
      apply Hedges1 in He. destruct He as [_ Hno]. exact (Hno H1).
    + intros u v Hin. apply in_app_iff in Hin. destruct Hin as [Hin|Hin].
      * apply Hcl1. exact Hin.
      * eapply closes_cycle_subgraph; [exact Hsub1 | apply Hcl2; exact Hin].
Qed.

(** X18: the loops of lines 309-321 end; no edge is removed twice; every
    removed edge is an edge that [dependencies] declares; and none of them
    is in the live graph at the end. *)
Theorem removed_edges_are_declared_once (dg : depGraph) :
  exists G' removed_edges,
    remove_cycles dg = Ok (G', removed_edges) /\
    NoDup removed_edges /\
    (forall e, In e removed_edges -> In e (declared_edges dg)) /\
    (forall e, In e removed_edges -> has_edge G' (fst e) (snd e) = false).
Proof.
  unfold remove_cycles.
  destruct (for_keys_removed (graph_keys dg) (build_graph dg) [])
    as (G' & r & Hrun & Hedges & Hnd & Hcl).
  exists G', r. split; [exact Hrun|]. split; [exact Hnd|]. split.
  - intros [u v] Hin. destruct (Hcl _ _ Hin) as [He _].
    apply has_edge_build_graph. exact He.
  - intros [u v] Hin. simpl. destruct (has_edge G' u v) eqn:E; [|reflexivity].
    apply Hedges in E. destruct E as [_ Hno]. contradiction.
Qed.

(** X19: every edge that the loops of lines 309-321 remove lies on a
    cycle of the graph built from [dependencies]: it is declared there, and
    its target leads back to its origin (or is its origin).  An edge on no
    cycle is never removed. *)
Theorem removed_edge_closed_a_cycle (dg : depGraph) :
  exists G' removed_edges,
    remove_cycles dg = Ok (G', removed_edges) /\
    forall u v, In (u, v) removed_edges ->
      In (u, v) (declared_edges dg) /\
      (v = u \/ path (build_graph dg) v u).
Proof.
  unfold remove_cycles.
  destruct (for_keys_removed (graph_keys dg) (build_graph dg) [])
    as (G' & r & Hrun & _ & _ & Hcl).
  exists G', r. split; [exact Hrun|].
  intros u v Hin. destruct (Hcl _ _ Hin) as [He Hp].
  split; [apply has_edge_build_graph; exact He | exact Hp].
Qed.

(** X20: [cyclicDependencies[name][version]] lists the targets of the
    edges removed from the node [(name, version)], in the order in which
    they were removed (and is absent, read as empty, when there is none). *)
Theorem ledger_keeps_removal_order (removed_edges : list edge) (u : node) :
  ledger_at (cyclicDependencies removed_edges) u =
  map snd (filter (fun e => node_eqb (fst e) u) removed_edges).
Proof.
  induction removed_edges as [|[n t] r IH] using rev_ind; [reflexivity|].
  rewrite cyclicDependencies_snoc, filter_app, map_app. cbn [filter fst].
  destruct (node_eqb_spec n u) as [->|Hne].
  - rewrite record_removed_appends, IH. reflexivity.
  - rewrite record_removed_other by congruence. rewrite IH, app_nil_r. reflexivity.
Qed.

End Removed.

(** ** The stages on the lock: what they set and what they leave *)

Module LockStages.
Import ExtraArgs Stamp Cycles Json Reconcile DictFacts DefaultsFacts.

(** [lock['_generic'][k]], if there is one. *)
Definition generic_field (lock : json) (k : string) : option json :=
  match lock with
  | JDict l =>
      match dict_get "_generic" l with
      | Some (JDict g) => dict_get k g
      | _ => None
      end
  | _ => None
  end.

(** [sources[name][version]], if there is one. *)
Definition source_at (sources : dict json) (name version : string) : option json :=
  match dict_get name sources with
  | Some (JDict versions) => dict_get version versions
  | _ => None
  end.

(** [mainSource] of lines 279-283. *)
Definition mainSource (sourceSpec : dict json) : dict json :=
  match sourceSpec with
  | [] => [("type", JStr "unknown")]
  | _ :: _ => sourceSpec
  end.

Lemma dict_del_filter {V : Type} (k : string) (d : dict V) :
  NoDup (keys d) ->
  dict_del k d = filter (fun kv => negb (String.eqb (fst kv) k)) d.
Proof.
  induction d as [|[k' v'] d IH]; simpl; intros Hnd; [reflexivity|].
  inversion Hnd as [|? ? Hk Hnd']; subst.
  destruct (String.eqb_spec k' k) as [->|Hne]; simpl.
  - symmetry. apply forallb_filter_id. apply forallb_forall.
    intros [k0 v0] Hin. simpl. apply negb_true_iff, String.eqb_neq. intros ->.
    apply Hk. apply (in_map fst) in Hin. exact Hin.
  - rewrite IH by exact Hnd'. reflexivity.
Qed.

Lemma NoDup_keys_filter {V : Type} (p : string * V -> bool) (d : dict V) :
  NoDup (keys d) -> NoDup (keys (filter p d)).
Proof.
  induction d as [|kv d IH]; simpl; intros Hnd; [constructor|].
  inversion Hnd as [|? ? Hk Hnd']; subst.
  destruct (p kv); [|auto]. simpl. constructor; [|auto].
  intros Hin. apply Hk. unfold keys in *. apply in_map_iff in Hin.
  destruct Hin as (x & <- & Hx). apply filter_In in Hx. apply in_map. apply Hx.
Qed.

Lemma filter_both {A : Type} (p q : A -> bool) (l : list A) :
  filter p (filter q l) = filter (fun x => q x && p x) l.
Proof.
  induction l as [|x l IH]; simpl; [reflexivity|].
  destruct (q x); simpl; [destruct (p x)|]; rewrite IH; reflexivity.
Qed.

(** The keys that the loop deletes. *)
Definition deleted (l : dict json) (k : string) : bool :=
  existsb (fun kv' : string * json => negb (truthy (snd kv')) && String.eqb (fst kv') k) l.

Lemma remove_empty_fold (l : dict json) : forall acc : dict json,
  NoDup (keys acc) ->
  fold_left (fun d (kv : string * json) =>
               if truthy (snd kv) then d else dict_del (fst kv) d) l acc =
  filter (fun kv : string * json => negb (deleted l (fst kv))) acc.
Proof.
  unfold deleted.
  induction l as [|[k v] l IH]; intros acc Hnd; cbn [fold_left existsb fst snd].
  - symmetry. apply forallb_filter_id. apply forallb_forall. reflexivity.
  - destruct (truthy v) eqn:Hv; cbn [negb andb orb].
    + apply IH. exact Hnd.
    + rewrite IH, (dict_del_filter _ _ Hnd).
      * rewrite filter_both. apply filter_ext. intros [k0 v0]. cbn [fst].
        rewrite negb_orb, (String.eqb_sym k k0). reflexivity.
      * rewrite (dict_del_filter _ _ Hnd). apply NoDup_keys_filter. exact Hnd.
Qed.

(** X21: the clean-up of lines 296-298 keeps exactly the packages whose
    value in [dependencies] is truthy, that is, that have at least one
    version, with their values and in their order; the packages with an
    empty value are dropped. *)
Theorem remove_empty_drops_packages_without_versions (depGraph : dict json) :
  NoDup (keys depGraph) ->
  remove_empty depGraph = filter (fun kv => truthy (snd kv)) depGraph.
Proof.
  intros Hnd. unfold remove_empty. rewrite (remove_empty_fold _ _ Hnd).
  apply filter_ext_in. intros [k v] Hin. cbn [fst snd]. unfold deleted.
  destruct (truthy v) eqn:Hv.
  - apply negb_true_iff. apply not_true_is_false. intros Hex.
    apply existsb_exists in Hex. destruct Hex as ([k' v'] & Hin' & H).
    cbn [fst snd] in H. apply andb_true_iff in H. destruct H as [Hv' Hk].
    apply String.eqb_eq in Hk. subst k'.
    rewrite (In_unique _ _ _ _ Hnd Hin Hin') in Hv. rewrite Hv in Hv'. discriminate.
  - apply negb_false_iff. apply existsb_exists. exists (k, v).
    split; [exact Hin|]. cbn [fst snd]. rewrite Hv, String.eqb_refl. reflexivity.
Qed.

Lemma remove_empty_drops_packages_without_versions_witness :
  remove_empty [("A", JDict [("1", JList [])]); ("C", JDict []);
                ("B", JDict [("1", JList [encode_node ("A", "1")])])] =
  [("A", JDict [("1", JList [])]);
   ("B", JDict [("1", JList [encode_node ("A", "1")])])].
Proof.
  apply (remove_empty_drops_packages_without_versions
           [("A", JDict [("1", JList [])]); ("C", JDict []);
            ("B", JDict [("1", JList [encode_node ("A", "1")])])]).
  repeat constructor; simpl; intuition discriminate.
Defined.


(** X22: lines 276-289 set [sources[mainPackageName][mainPackageVersion]]
    to the source spec, or to [{type: unknown}] when the spec is empty,
    whatever was there before; every other entry of [sources], for another
    name or another version, is left as it was, and nothing but [sources]
    changes in the lock. *)
Theorem main_source_is_overwritten (sourceSpec lockd g sources : dict json)
    (mainPackageName mainPackageVersion : string) :
  dict_get "_generic" lockd = Some (JDict g) ->
  dict_get "mainPackageName" g = Some (JStr mainPackageName) ->
  dict_get "mainPackageVersion" g = Some (JStr mainPackageVersion) ->
  dict_get "sources" lockd = Some (JDict sources) ->
  (forall x, dict_get mainPackageName sources = Some x -> exists versions, x = JDict versions) ->
  exists sources',
    add_main_source sourceSpec (JDict lockd) =
      Ok (JDict (dict_set "sources" (JDict sources') lockd)) /\
    source_at sources' mainPackageName mainPackageVersion =
      Some (JDict (mainSource sourceSpec)) /\
    (forall name version,
       (name, version) <> (mainPackageName, mainPackageVersion) ->
       source_at sources' name version = source_at sources name version).
Proof.
  intros Hg Hn Hv Hs Hshape.
  unfold add_main_source. cbn [jget]. unfold getitem. rewrite Hg. cbn [bind jget].
  unfold getitem. rewrite Hn, Hv, Hs. cbn [bind as_str jhas].
  fold (mainSource sourceSpec).
  destruct (dict_has mainPackageName sources) eqn:Hhas.
  - apply dict_has_get in Hhas. destruct Hhas as [x Hx].
    destruct (Hshape x Hx) as [versions ->].
    cbn [jget]. unfold getitem. rewrite Hx. cbn [bind jset].
    eexists. split; [reflexivity|]. split.
    + unfold source_at. rewrite dict_get_set_eq. apply dict_get_set_eq.
    + intros name version Hne. unfold source_at.
      destruct (String.eqb_spec mainPackageName name) as [<-|Hname].
      * rewrite dict_get_set_eq, Hx. apply dict_get_set_neq. congruence.
      * rewrite (dict_get_set_neq _ _ _ _ Hname). reflexivity.
  - cbn [bind jset]. eexists. split; [reflexivity|]. split.
    + unfold source_at. rewrite dict_get_set_eq. simpl.
      rewrite String.eqb_refl. reflexivity.
    + intros name version Hne. unfold source_at.
      destruct (String.eqb_spec mainPackageName name) as [<-|Hname].
      * rewrite dict_get_set_eq. apply dict_has_false in Hhas. rewrite Hhas.
        simpl. destruct (String.eqb_spec mainPackageVersion version); [congruence|].
        reflexivity.
      * rewrite (dict_get_set_neq _ _ _ _ Hname). reflexivity.
Qed.

Lemma main_source_is_overwritten_witness :
  exists sources',
    add_main_source [] (JDict CombinedHash.lock_hashed) =
      Ok (JDict (dict_set "sources" (JDict sources') CombinedHash.lock_hashed)) /\
    source_at sources' "A" "1" = Some (JDict [("type", JStr "unknown")]) /\
    source_at sources' "B" "1" =
      Some (JDict [("type", JStr "fetchurl"); ("hash", JStr "sha256-abc=")]).
Proof.
  destruct (main_source_is_overwritten [] CombinedHash.lock_hashed
              [("mainPackageName", JStr "A"); ("mainPackageVersion", JStr "1")]
              [("B", JDict [("1", JDict [("type", JStr "fetchurl");
                                         ("hash", JStr "sha256-abc=")])])]
              "A" "1" eq_refl eq_refl eq_refl eq_refl)
    as (sources' & Hrun & Hmain & Hother).
  - intros x Hx. discriminate.
  - exists sources'. split; [exact Hrun|]. split; [exact Hmain|].
    rewrite (Hother "B" "1"); [reflexivity | discriminate].
Defined.

(** *** The fields of [_generic] through the stages *)

Lemma generic_field_set (l g : dict json) (k : string) :
  generic_field (JDict (dict_set "_generic" (JDict g) l)) k = dict_get k g.
Proof. unfold generic_field. rewrite dict_get_set_eq. reflexivity. Qed.

Lemma generic_field_other (l : dict json) (k0 k : string) (v : json) :
  k0 <> "_generic" ->
  generic_field (JDict (dict_set k0 v l)) k = generic_field (JDict l) k.
Proof. intros H. unfold generic_field. rewrite (dict_get_set_neq _ _ _ _ H). reflexivity. Qed.

Lemma jget_generic (lock generic : json) :
  jget lock "_generic" = Ok generic ->
  exists l, lock = JDict l /\ dict_get "_generic" l = Some generic.
Proof.
  destruct lock as [| | | | |l]; try discriminate. cbn [jget]. unfold getitem.
  destruct (dict_get "_generic" l) as [x|] eqn:E; [|discriminate].
  intros [= <-]. exists l. auto.
Qed.

Lemma stamp_fields (t : translator) (combined : bool)
    (specified_extra_args : dict argval) (lock lock1 : json) :
  stamp t combined specified_extra_args lock = Ok lock1 ->
  generic_field lock1 "translatedBy" = Some (JStr (translatedBy t)) /\
  generic_field lock1 "translatorParams" =
    Some (JStr (translatorParams t combined specified_extra_args)) /\
  (forall k, k <> "translatedBy" -> k <> "translatorParams" ->
     generic_field lock1 k = generic_field lock k).
Proof.
  unfold stamp. destruct (jget lock "_generic") as [generic| |] eqn:Hg; try discriminate.
  destruct (jget_generic _ _ Hg) as (l & -> & Hl).
  destruct generic as [| | | | |g]; try discriminate. cbn [bind jset].
  intros [= <-]. rewrite !generic_field_set. split; [|split].
  - rewrite dict_get_set_neq by discriminate. apply dict_get_set_eq.
  - apply dict_get_set_eq.
  - intros k H1 H2. rewrite generic_field_set, !dict_get_set_neq by congruence.
    unfold generic_field. rewrite Hl. reflexivity.
Qed.

Lemma add_main_source_generic (sourceSpec : dict json) (lock lock' : json) (k : string) :
  add_main_source sourceSpec lock = Ok lock' ->
  generic_field lock' k = generic_field lock k.
Proof.
  unfold add_main_source.
  destruct (jget lock "_generic") as [generic| |] eqn:Hg; try discriminate.
  destruct (jget_generic _ _ Hg) as (l & -> & Hl). cbn [bind].
  destruct (jget generic "mainPackageName") as [n| |]; try discriminate. cbn [bind].
  destruct (as_str n) as [name| |]; try discriminate. cbn [bind].
  destruct (jget generic "mainPackageVersion") as [v| |]; try discriminate. cbn [bind].
  destruct (as_str v) as [version| |]; try discriminate. cbn [bind].
  destruct (jget (JDict l) "sources") as [sources| |]; try discriminate. cbn [bind].
  destruct (jhas sources name) as [known| |]; try discriminate. cbn [bind].
  match goal with |- (x <- ?e ;; _) = _ -> _ => destruct e as [sources1| |] end;
    try discriminate.
  cbn [bind jset]. intros [= <-]. apply generic_field_other. discriminate.
Qed.

Lemma clean_and_resolve_generic (lock lock' : json) (k : string) :
  k <> "dependencies" ->
  clean_and_resolve lock = Ok lock' ->
  generic_field lock' k = generic_field lock k.
Proof.
  intros Hk. unfold clean_and_resolve.
  destruct (jget lock "_generic") as [generic| |] eqn:Hg; try discriminate.
  destruct (jget_generic _ _ Hg) as (l & -> & Hl). cbn [bind].
  destruct (jhas generic "dependencies") as [[|]| |]; try discriminate; cbn [bind].
  2: { intros [= <-]. reflexivity. }
  destruct (jget generic "dependencies") as [depGraph| |]; try discriminate. cbn [bind].
  destruct depGraph as [| | | | |d]; try discriminate.
  destruct generic as [| | | | |g]; try discriminate. cbn [jset bind].
  destruct (decode_deps _) as [dg| |]; try discriminate. cbn [bind].
  destruct (remove_cycles dg) as [[G removed]| |]; try discriminate. cbn [bind].
  intros [= <-]. rewrite generic_field_other by discriminate.
  rewrite generic_field_set. rewrite dict_get_set_neq by congruence.
  unfold generic_field. rewrite Hl. reflexivity.
Qed.

Lemma strip_hashes_generic (lock : json) (k : string) :
  generic_field (strip_hashes_from_lock lock) k = generic_field lock k.
Proof.
  destruct lock as [| | | | |l]; try reflexivity. unfold strip_hashes_from_lock, generic_field.
  rewrite (CombinedHash.dict_get_map
             (fun key v => if String.eqb key "sources" then strip_sources v else v)).
  destruct (dict_get "_generic" l); reflexivity.
Qed.

Lemma set_generic_field (lock lock' : json) (k0 : string) (v : json) (k : string) :
  (generic <- jget lock "_generic" ;;
   generic1 <- jset generic k0 v ;;
   jset lock "_generic" generic1) = Ok lock' ->
  generic_field lock' k = if String.eqb k0 k then Some v else generic_field lock k.
Proof.
  destruct (jget lock "_generic") as [generic| |] eqn:Hg; try discriminate.
  destruct (jget_generic _ _ Hg) as (l & -> & Hl). cbn [bind].
  destruct generic as [| | | | |g]; try discriminate. cbn [jset bind].
  intros [= <-]. rewrite generic_field_set.
  destruct (String.eqb_spec k0 k) as [->|Hne].
  - apply dict_get_set_eq.
  - rewrite (dict_get_set_neq _ _ _ _ Hne). unfold generic_field. rewrite Hl. reflexivity.
Qed.

Lemma combined_hash_generic (nix_build_stderr : text -> text) (lock lock' : json)
    (file : option text) (k : string) :
  k <> "sourcesCombinedHash" ->
  combined_hash nix_build_stderr lock = (file, Ok lock') ->
  generic_field lock' k = generic_field lock k.
Proof.
  intros Hk. unfold combined_hash.
  destruct (generic <- jget (strip_hashes_from_lock lock) "_generic" ;;
            generic1 <- jset generic "sourcesCombinedHash" (JStr "") ;;
            jset (strip_hashes_from_lock lock) "_generic" generic1)
    as [lock2| |] eqn:H2; try discriminate.
  destruct (search_fod _) as [hash|]; [|discriminate].
  intros [= _ H3].
  rewrite (set_generic_field _ _ _ _ k H3), (set_generic_field _ _ _ _ k H2).
  apply String.eqb_neq in Hk. rewrite String.eqb_sym in Hk. rewrite Hk.
  apply strip_hashes_generic.
Qed.

Section Run.

Variable nix_build_stderr : text -> text.
Variable checkLockJSON : json -> result unit.

(** The lock that [reconcile] returns went through the four stages. *)
Lemma reconcile_ok (t : translator) (combined : bool)
    (specified_extra_args : dict argval) (sourceSpec : dict json)
    (outputDreamLock file : option text) (final : json) :
  reconcile nix_build_stderr checkLockJSON t combined specified_extra_args
    sourceSpec outputDreamLock = (file, Ok final) ->
  exists produced lock0 lock1 lock2 lock3,
    outputDreamLock = Some produced /\
    loads produced = Ok lock0 /\
    stamp t combined specified_extra_args lock0 = Ok lock1 /\
    add_main_source sourceSpec lock1 = Ok lock2 /\
    clean_and_resolve lock2 = Ok lock3 /\
    (if combined then exists written, combined_hash nix_build_stderr lock3 = (written, Ok final)
     else final = lock3) /\
    checkLockJSON final = Ok tt /\
    file = Some (compact (dumps true final)).
Proof.
  unfold reconcile. destruct outputDreamLock as [produced|]; [|discriminate].
  destruct (loads produced) as [lock0| |] eqn:H0; try discriminate. cbn [bind].
  destruct (stamp t combined specified_extra_args lock0) as [lock1| |] eqn:H1;
    try discriminate. cbn [bind].
  destruct (add_main_source sourceSpec lock1) as [lock2| |] eqn:H2;
    try discriminate. cbn [bind].
  destruct (clean_and_resolve lock2) as [lock3| |] eqn:H3; try discriminate.
  intros H. exists produced, lock0, lock1, lock2, lock3.
  split; [reflexivity|]. split; [exact H0|]. split; [exact H1|].
  split; [exact H2|]. split; [exact H3|].
  destruct combined.
  - destruct (combined_hash nix_build_stderr lock3) as [[written|] [lock'| |]] eqn:Hc;
      try discriminate;
      (destruct (checkLockJSON lock') as [[]| |] eqn:Hchk; try discriminate;
       injection H as <- <-; split; [eexists; reflexivity | split; [exact Hchk | reflexivity]]).
  - destruct (checkLockJSON lock3) as [[]| |] eqn:Hchk; try discriminate.
    injection H as <- <-. split; [reflexivity | split; [exact Hchk | reflexivity]].
Qed.

(** X23: whenever lines 256-377 return a lock, its
    [_generic.translatedBy] is [subsystem.type.name] of the translator and
    its [_generic.translatorParams] is the parameter string: no later stage
    (main source, clean-up, cycles, combined hash) changes these fields. *)
Theorem final_lock_names_its_translator (t : translator) (combined : bool)
    (specified_extra_args : dict argval) (sourceSpec : dict json)
    (outputDreamLock file : option text) (final : json) :
  reconcile nix_build_stderr checkLockJSON t combined specified_extra_args
    sourceSpec outputDreamLock = (file, Ok final) ->
  generic_field final "translatedBy" = Some (JStr (translatedBy t)) /\
  generic_field final "translatorParams" =
    Some (JStr (translatorParams t combined specified_extra_args)).
Proof.
  intros H. destruct (reconcile_ok _ _ _ _ _ _ _ H)
    as (produced & lock0 & lock1 & lock2 & lock3 & _ & _ & H1 & H2 & H3 & H4 & _).
  destruct (stamp_fields _ _ _ _ _ H1) as (Hby & Hparams & _).
  assert (Hkeep : forall k, k <> "dependencies" -> k <> "sourcesCombinedHash" ->
                    generic_field final k = generic_field lock1 k).
  { intros k Hk1 Hk2.
    rewrite <- (add_main_source_generic _ _ _ k H2).
    rewrite <- (clean_and_resolve_generic _ _ k Hk1 H3).
    destruct combined.
    - destruct H4 as [written H4]. exact (combined_hash_generic _ _ _ _ k Hk2 H4).
    - subst final. reflexivity. }
  rewrite !Hkeep by discriminate. auto.
Qed.

End Run.

Lemma final_lock_names_its_translator_witness :
  exists file final,
    reconcile (fun _ => CombinedHash.log_with_marker) (fun _ => Ok tt) StampFacts.nodejs
      true StampFacts.args_ab [] (Some OutputFile.produced) = (file, Ok final) /\
    generic_field final "translatedBy" = Some (JStr (translatedBy StampFacts.nodejs)).
Proof.
  destruct (reconcile (fun _ => CombinedHash.log_with_marker) (fun _ => Ok tt)
              StampFacts.nodejs true StampFacts.args_ab [] (Some OutputFile.produced))
    as [file r] eqn:Hrun.
  assert (Hr : exists final, r = Ok final).
  { vm_compute in Hrun. injection Hrun as _ <-. eexists. reflexivity. }
  destruct Hr as [final ->]. exists file, final. split; [reflexivity|].
  exact (proj1 (final_lock_names_its_translator _ _ _ _ _ _ _ _ _ Hrun)).
Defined.

End LockStages.

(** ** Reading the hash from the log of the build *)

Module FodLog.
Import Json Reconcile Compaction.

Lemma line_split (s : text) :
  exists rest, s = line s ++ rest /\ ~ In newline (line s) /\
               (rest = [] \/ exists rest', rest = newline :: rest').
Proof.
  induction s as [|c s (rest & Hs & Hno & Hrest)]; simpl.
  - exists []. auto.
  - destruct (Ascii.eqb_spec c newline) as [->|Hne].
    + exists (newline :: s). split; [reflexivity|]. split; [tauto|]. right. eauto.
    + exists rest. split; [simpl; f_equal; exact Hs|]. split; [|exact Hrest].
      simpl. intros [E|H]; [congruence | contradiction].
Qed.

Lemma line_app (r rest : text) :
  ~ In newline r -> (rest = [] \/ exists rest', rest = newline :: rest') ->
  line (r ++ rest) = r.
Proof.
  intros Hno Hrest. induction r as [|c r IH]; simpl.
  - destruct Hrest as [->|[rest' ->]]; reflexivity.
  - destruct (Ascii.eqb_spec c newline) as [->|Hne]; [exfalso; apply Hno; left; reflexivity|].
    rewrite IH; [reflexivity|]. intros H. apply Hno. right. exact H.
Qed.

Lemma upto_last_eq_split (s g : text) :
  upto_last_eq s = Some g ->
  exists h r, g = h ++ ["="%char] /\ s = g ++ r /\ ~ In "="%char r.
Proof.
  revert g. induction s as [|c s IH]; simpl; intros g; [discriminate|].
  destruct (upto_last_eq s) as [g'|] eqn:Hg.
  - intros [= <-]. destruct (IH g' eq_refl) as (h & r & -> & -> & Hno).
    exists (c :: h), r. auto.
  - destruct (Ascii.eqb_spec c "="%char) as [->|Hne]; [|discriminate].
    intros [= <-]. exists [], s. split; [reflexivity|]. split; [reflexivity|].
    clear IH. induction s as [|d s IHs]; simpl in *; [tauto|].
    destruct (upto_last_eq s); [discriminate|].
    destruct (Ascii.eqb_spec d "="%char) as [->|Hd]; [discriminate|].
    intros [E|H]; [congruence | exact (IHs eq_refl H)].
Qed.

Lemma upto_last_eq_found (s : text) : In "="%char s -> upto_last_eq s <> None.
Proof.
  induction s as [|c s IH]; simpl; [tauto|].
  intros [->|H].
  - destruct (upto_last_eq s); discriminate.
  - destruct (upto_last_eq s); [discriminate | exfalso; exact (IH H eq_refl)].
Qed.

(** X24: when [re.search] of line 358 finds a hash, the log holds
    [FOD_PATH=] directly followed by that hash; the hash ends with an equal
    sign, holds no newline, and no equal sign follows it on its line. *)
Theorem fod_hash_is_read_from_marker_line (log hash : text) :
  search_fod log = Some hash ->
  exists before h after,
    log = before ++ chars "FOD_PATH=" ++ hash ++ after /\
    hash = h ++ ["="%char] /\
    ~ In newline hash /\
    ~ In "="%char (line after).
Proof.
  induction log as [|c log IH]; [discriminate|].
  cbn [search_fod].
  assert (Hrec : search_fod log = Some hash ->
                 exists before h after,
                   c :: log = before ++ chars "FOD_PATH=" ++ hash ++ after /\
                   hash = h ++ ["="%char] /\ ~ In newline hash /\
                   ~ In "="%char (line after)).
  { intros H. destruct (IH H) as (before & h & after & -> & H2 & H3 & H4).
    exists (c :: before), h, after. auto. }
  destruct (starts_with (chars "FOD_PATH=") (c :: log)) eqn:Hs; [|exact Hrec].
  destruct (upto_last_eq (line (skipn 9 (c :: log)))) as [g|] eqn:Hg; [|exact Hrec].
  intros [= <-]. clear Hrec IH.
  destruct (starts_with_split _ _ Hs) as [rest Hlog]. rewrite Hlog in Hg |- *.
  change (skipn 9 (chars "FOD_PATH=" ++ rest)) with rest in Hg.
  destruct (line_split rest) as (tl & Hrest & Hno & Htl).
  destruct (upto_last_eq_split _ _ Hg) as (h & r & Hh & Hline & Hr).
  exists [], h, (r ++ tl). split; [|split; [exact Hh|split]].
  - cbn [app]. f_equal. rewrite app_assoc, <- Hline. exact Hrest.
  - intros Hin. apply Hno. rewrite Hline. apply in_or_app. left. exact Hin.
  - rewrite line_app; [exact Hr| |exact Htl].
    intros Hin. apply Hno. rewrite Hline. apply in_or_app. right. exact Hin.
Qed.

Lemma fod_hash_is_read_from_marker_line_witness :
  exists before h after,
    CombinedHash.log_with_marker =
      before ++ chars "FOD_PATH=" ++ chars "sha256-xyz=" ++ after /\
    chars "sha256-xyz=" = h ++ ["="%char].
Proof.
  destruct (fod_hash_is_read_from_marker_line CombinedHash.log_with_marker
              (chars "sha256-xyz=") eq_refl) as (before & h & after & H1 & H2 & _).
  exists before, h, after. split; assumption.
Defined.

(** X25: a log that holds [FOD_PATH=] followed, on the same line, by an
    equal sign always yields a hash, wherever the marker is in the log: the
    exception of line 362 is raised only for a log without that. *)
Theorem marker_with_equal_sign_is_found (before h after : text) :
  ~ In newline h ->
  exists hash,
    search_fod (before ++ chars "FOD_PATH=" ++ h ++ "="%char :: after) = Some hash.
Proof.
  intros Hno.
  assert (Hhere : exists hash,
            search_fod (chars "FOD_PATH=" ++ h ++ "="%char :: after) = Some hash).
  { change (chars "FOD_PATH=" ++ h ++ "="%char :: after)
      with ("F"%char :: chars "OD_PATH=" ++ h ++ "="%char :: after).
    cbn [search_fod].
    change ("F"%char :: chars "OD_PATH=" ++ h ++ "="%char :: after)
      with (chars "FOD_PATH=" ++ h ++ "="%char :: after).
    rewrite starts_with_app.
    change (skipn 9 (chars "FOD_PATH=" ++ h ++ "="%char :: after))
      with (h ++ "="%char :: after).
    destruct (upto_last_eq (line (h ++ "="%char :: after))) as [g|] eqn:Hg; [eauto|].
    exfalso. revert Hg. apply upto_last_eq_found.
    clear - Hno. induction h as [|c h IH]; simpl.
    - left. reflexivity.
    - destruct (Ascii.eqb_spec c newline) as [->|Hne];
        [exfalso; apply Hno; left; reflexivity|].
      right. apply IH. intros H. apply Hno. right. exact H. }
  induction before as [|c before IH]; [exact Hhere|].
  cbn [app search_fod]. destruct IH as [hash IH].
  destruct (starts_with _ _); [|eauto].
  destruct (upto_last_eq _); eauto.
Qed.

Lemma marker_with_equal_sign_is_found_witness :
  exists hash, search_fod CombinedHash.log_with_marker = Some hash.
Proof.
  exact (marker_with_equal_sign_is_found
           (chars "hash mismatch in fixed-output derivation ")
           (chars "sha256-xyz") (chars " got")
           ltac:(simpl; intuition discriminate)).
Defined.

End FodLog.

(** ** The written file does not depend on the order of the keys *)

Module Canonical.
Import Json Scanner Parser Compaction RoundTrip.

Lemma ascii_compare_lt_trans (a b c : ascii) :
  Ascii.compare a b = Lt -> Ascii.compare b c = Lt -> Ascii.compare a c = Lt.
Proof.
  unfold Ascii.compare. rewrite !N.compare_lt_iff. lia.
Qed.

Lemma compare_lt_trans : forall s1 s2 s3 : string,
  String.compare s1 s2 = Lt -> String.compare s2 s3 = Lt -> String.compare s1 s3 = Lt.
Proof.
  induction s1 as [|a s1 IH]; intros [|b s2] [|c s3]; simpl; try congruence.
  destruct (Ascii.compare a b) eqn:Hab; try discriminate.
  - apply Ascii.compare_eq_iff in Hab. subst b.
    destruct (Ascii.compare a c); try congruence. apply IH.
  - intros _. destruct (Ascii.compare b c) eqn:Hbc; try discriminate.
    + apply Ascii.compare_eq_iff in Hbc. subst c. rewrite Hab. reflexivity.
    + rewrite (ascii_compare_lt_trans _ _ _ Hab Hbc). reflexivity.
Qed.

Lemma leb_trans (s1 s2 s3 : string) :
  String.leb s1 s2 = true -> String.leb s2 s3 = true -> String.leb s1 s3 = true.
Proof.
  unfold String.leb.
  destruct (String.compare s1 s2) eqn:H12; try discriminate;
  destruct (String.compare s2 s3) eqn:H23; try discriminate; intros _ _.
  - apply String.compare_eq_iff in H12. subst s2. rewrite H23. reflexivity.
  - apply String.compare_eq_iff in H12. subst s2. rewrite H23. reflexivity.
  - apply String.compare_eq_iff in H23. subst s3. rewrite H12. reflexivity.
  - rewrite (compare_lt_trans _ _ _ H12 H23). reflexivity.
Qed.

(** The keys go up. *)
Definition key_sorted {A : Type} (l : list (string * A)) : Prop :=
  StronglySorted (fun a b => String.leb (fst a) (fst b) = true) l.

Lemma insert_item_sorted {A : Type} (kv : string * A) (l : list (string * A)) :
  key_sorted l -> key_sorted (insert_item kv l).
Proof.
  unfold key_sorted. induction l as [|x l IH]; simpl; intros Hs.
  - constructor; constructor.
  - inversion Hs as [|? ? Hl Hx]; subst.
    destruct (String.leb (fst kv) (fst x)) eqn:E.
    + constructor; [exact Hs|]. constructor; [exact E|].
      rewrite Forall_forall in Hx |- *. intros y Hy.
      eapply leb_trans; [exact E | apply Hx; exact Hy].
    + constructor; [apply IH; exact Hl|].
      rewrite Forall_forall in Hx |- *. intros y Hy.
      apply (Permutation_in _ (insert_item_perm kv l)) in Hy.
      destruct Hy as [<-|Hy]; [|apply Hx; exact Hy].
      destruct (String.leb_total (fst kv) (fst x)) as [H|H]; [congruence | exact H].
Qed.

Lemma sorted_items_sorted {A : Type} (l : list (string * A)) : key_sorted (sorted_items l).
Proof.
  unfold sorted_items. induction l as [|x l IH]; simpl; [constructor|].
  apply insert_item_sorted. exact IH.
Qed.

(** Two sorted lists with the same items and no key twice are equal. *)
Lemma key_sorted_unique {A : Type} (l1 : list (string * A)) : forall l2,
  key_sorted l1 -> key_sorted l2 -> NoDup (map fst l1) -> Permutation l1 l2 -> l1 = l2.
Proof.
  unfold key_sorted. induction l1 as [|x l1 IH]; intros l2 H1 H2 Hnd Hp.
  - apply Permutation_nil in Hp. subst. reflexivity.
  - destruct l2 as [|y l2]; [apply Permutation_sym, Permutation_nil in Hp; discriminate|].
    inversion H1 as [|? ? Hl1 Hx]; subst. inversion H2 as [|? ? Hl2 Hy]; subst.
    inversion Hnd as [|? ? Hkx Hnd1]; subst.
    rewrite Forall_forall in Hx, Hy.
    assert (Hxy : x = y).
    { assert (Hin1 : In x (y :: l2)) by (eapply Permutation_in; [exact Hp | left; reflexivity]).
      assert (Hin2 : In y (x :: l1))
        by (eapply Permutation_in; [apply Permutation_sym; exact Hp | left; reflexivity]).
      destruct Hin1 as [E|Hin1]; [congruence|].
      destruct Hin2 as [E|Hin2]; [congruence|].
      exfalso. apply Hkx.
      rewrite (String.leb_antisym _ _ (Hx _ Hin2) (Hy _ Hin1)).
      apply in_map. exact Hin2. }
    subst y. f_equal. apply IH; try assumption.
    eapply Permutation_cons_inv. exact Hp.
Qed.

Lemma sorted_items_perm_eq {A : Type} (l l' : list (string * A)) :
  NoDup (map fst l) -> Permutation l l' -> sorted_items l = sorted_items l'.
Proof.
  intros Hnd Hp. apply key_sorted_unique; try apply sorted_items_sorted.
  - eapply Permutation_NoDup; [|exact Hnd].
    apply Permutation_map. apply Permutation_sym. apply sorted_items_perm.
  - eapply perm_trans; [apply sorted_items_perm|].
    eapply perm_trans; [exact Hp|]. apply Permutation_sym. apply sorted_items_perm.
Qed.

Lemma norm_false (o : json) : norm false o = o.
Proof.
  induction o as [| b | z | s | l IH | d IH] using json_ind'; try reflexivity.
  - cbn [norm]. f_equal. rewrite <- (map_id l) at 2. apply map_ext_in. exact IH.
  - cbn [norm]. f_equal. rewrite <- (map_id d) at 2. apply map_ext_in.
    intros [k v] Hin. pose proof (IH _ Hin) as Hv. cbn [fst snd] in *.
    rewrite Hv. reflexivity.
Qed.

(** X26: what [json.dump(lock, f, indent=2)] writes (line 346, keys not
    sorted) is read back by [json.load] as the very same document, the order
    of the keys included. *)
Theorem plain_dump_reads_back_exactly (o : json) :
  wf o -> loads (dumps false o) = Ok o.
Proof.
  intros Hwf. rewrite (loads_dumps false o Hwf), norm_false. reflexivity.
Qed.

Lemma plain_dump_reads_back_exactly_witness :
  loads (dumps false (JDict CombinedHash.lock_hashed)) = Ok (JDict CombinedHash.lock_hashed).
Proof.
  apply (plain_dump_reads_back_exactly (JDict CombinedHash.lock_hashed)).
  cbn. repeat split; repeat constructor; simpl; intuition discriminate.
Defined.

Lemma Forall2_map_eq {A B C : Type} (f : A -> C) (g : B -> C) (l : list A) (l' : list B) :
  Forall2 (fun a b => f a = g b) l l' -> map f l = map g l'.
Proof. induction 1; simpl; congruence. Qed.

Lemma Forall2_impl_In {A B : Type} (R R' : A -> B -> Prop) (l : list A) (l' : list B) :
  (forall a b, In a l -> In b l' -> R a b -> R' a b) ->
  Forall2 R l l' -> Forall2 R' l l'.
Proof.
  intros H HF. induction HF as [|a b l l' Hab HF IH]; constructor.
  - apply H; [left; reflexivity | left; reflexivity | exact Hab].
  - apply IH. intros x y Hx Hy. apply H; right; assumption.
Qed.

(** Documents of the same structure are rendered alike when the keys are sorted. *)
Lemma encode_same_doc : forall o o',
  same_doc o o' -> wf o -> wf o' ->
  forall level, encode true level o = encode true level o'.
Proof.
  induction o as [| b | z | s | l IH | d IH] using json_ind';
    intros o' Hsame Hwf Hwf' level; inversion Hsame; subst; try reflexivity.
  - (* lists *)
    rename l' into m. rename H0 into HF.
    assert (Hmap : forall lv, map (encode true lv) l = map (encode true lv) m).
    { intros lv. apply Forall2_map_eq.
      apply (Forall2_impl_In same_doc); [|exact HF].
      intros a b' Ha Hb Hab. apply IH; [exact Ha | exact Hab | |].
      - apply (proj1 (wf_list l) Hwf). exact Ha.
      - apply (proj1 (wf_list m) Hwf'). exact Hb. }
    destruct HF as [|a b' l m0 Hab HF]; [reflexivity|].
    cbn [encode]. rewrite Hmap. reflexivity.
  - (* dictionaries *)
    rename d' into m. rename H0 into Hperm. rename H1 into HF.
    apply wf_dict in Hwf, Hwf'. destruct Hwf as [Hnd Hvals], Hwf' as [Hnd' Hvals'].
    assert (Hrender : forall lv,
              map (fun kv => (fst kv, encode true lv (snd kv))) d =
              map (fun kv => (fst kv, encode true lv (snd kv))) p).
    { intros lv. apply Forall2_map_eq.
      apply (Forall2_impl_In
               (fun a b' : string * json => fst a = fst b' /\ same_doc (snd a) (snd b')));
        [|exact HF].
      intros a b' Ha Hb [Hk Hv]. f_equal; [exact Hk|].
      apply (IH a Ha); [exact Hv | apply Hvals; exact Ha|].
      apply Hvals'. eapply Permutation_in; eassumption. }
    assert (Hkeys : map fst d = map fst p).
    { apply Forall2_map_eq.
      apply (Forall2_impl_In
               (fun a b' : string * json => fst a = fst b' /\ same_doc (snd a) (snd b')));
        [|exact HF].
      intros a b' _ _ [Hk _]. exact Hk. }
    destruct d as [|kv d].
    + inversion HF; subst. apply Permutation_nil in Hperm. subst. reflexivity.
    + destruct m as [|kv' m].
      { apply Permutation_sym, Permutation_nil in Hperm. subst p. inversion HF. }
      rewrite !encode_dict. unfold ordered. f_equal. f_equal.
      rewrite <- !(map_map (fun x : string * json => (fst x, encode true (S level) (snd x)))
                     (fun x : string * text => encode_str (fst x) ++ chars ": " ++ snd x)).
      f_equal.
      rewrite <- !(sorted_items_map (encode true (S level))).
      rewrite Hrender. f_equal. apply sorted_items_perm_eq.
      * rewrite map_map. cbn [fst]. change (NoDup (map fst p)).
        rewrite <- Hkeys. exact Hnd.
      * apply Permutation_map. exact Hperm.
Qed.

(** X27: the text of lines 371-375 does not depend on the order of the
    keys: two locks of the same structure, the keys of their dictionaries in
    any order, are written as the same text. *)
Theorem final_file_ignores_key_order (lock lock' : json) :
  wf lock -> wf lock' -> same_doc lock lock' ->
  compact (dumps true lock) = compact (dumps true lock').
Proof.
  intros Hwf Hwf' Hsame. unfold dumps.
  rewrite (encode_same_doc _ _ Hsame Hwf Hwf' 0). reflexivity.
Qed.


(** The same lock with its keys in two orders. *)
Definition lock_sources_first : json :=
  JDict [("sources", JDict []);
         ("_generic", JDict [("mainPackageVersion", JStr "1");
                             ("mainPackageName", JStr "A")])].

Definition lock_generic_first : json :=
  JDict [("_generic", JDict [("mainPackageName", JStr "A");
                             ("mainPackageVersion", JStr "1")]);
         ("sources", JDict [])].

Lemma final_file_ignores_key_order_witness :
  compact (dumps true lock_sources_first) = compact (dumps true lock_generic_first).
Proof.
  apply final_file_ignores_key_order.
  - cbn. repeat split; repeat constructor; simpl; intuition discriminate.
  - cbn. repeat split; repeat constructor; simpl; intuition discriminate.
  - apply same_dict with
      (p := [("sources", JDict []);
             ("_generic", JDict [("mainPackageName", JStr "A");
                                 ("mainPackageVersion", JStr "1")])]).
    + apply perm_swap.
    + constructor; [split; [reflexivity|] |].
      * apply same_dict with (p := []); constructor.
      * constructor; [split; [reflexivity|] | constructor].
        apply same_dict with
          (p := [("mainPackageVersion", JStr "1"); ("mainPackageName", JStr "A")]).
        -- apply perm_swap.
        -- repeat constructor.
Defined.

Lemma wf_norm : forall o, wf o -> wf (norm true o).
Proof.
  induction o as [| b | z | s | l IH | d IH] using json_ind'; intros Hwf; try exact I.
  - cbn [norm]. apply wf_list. intros x Hx. apply in_map_iff in Hx.
    destruct Hx as (y & <- & Hy). apply IH; [exact Hy|].
    apply (proj1 (wf_list l) Hwf). exact Hy.
  - rewrite norm_dict. apply wf_dict in Hwf. destruct Hwf as [Hnd Hvals].
    apply wf_dict. split.
    + rewrite map_map. cbn [fst]. change (NoDup (map fst (ordered true d))).
      apply ordered_keys_nodup. exact Hnd.
    + intros kv Hkv. apply in_map_iff in Hkv. destruct Hkv as (x & <- & Hx).
      cbn [snd]. apply In_ordered in Hx. apply IH; [exact Hx | apply Hvals; exact Hx].
Qed.

(** X28: writing is a fixed point of reading: the text of lines 371-375
    is read back by [json.loads], and what is read gives the same text when
    it is written again by the same lines. *)
Theorem written_lock_is_a_fixed_point (lock : json) :
  wf lock ->
  exists parsed,
    loads (compact (dumps true lock)) = Ok parsed /\
    compact (dumps true parsed) = compact (dumps true lock).
Proof.
  intros Hwf. exists (norm true lock). split.
  - rewrite (loads_compact _ _ (scan_dumps true lock)). apply loads_dumps. exact Hwf.
  - unfold dumps.
    rewrite (encode_same_doc _ _ (same_doc_norm lock) (wf_norm _ Hwf) Hwf 0).
    reflexivity.
Qed.

Lemma written_lock_is_a_fixed_point_witness :
  exists parsed,
    loads (compact (dumps true lock_sources_first)) = Ok parsed /\
    compact (dumps true parsed) = compact (dumps true lock_sources_first).
Proof.
  apply written_lock_is_a_fixed_point.
  cbn. repeat split; repeat constructor; simpl; intuition discriminate.
Defined.

End Canonical.

(** ** What a successful run leaves at the output location *)

Module FinalFile.
Import ExtraArgs Stamp Nx Cycles Json Reconcile DictFacts Scanner Parser Compaction
       RoundTrip LockStages.

Lemma NoDup_dict_set {V : Type} (k : string) (v : V) (d : dict V) :
  NoDup (map fst d) -> NoDup (map fst (dict_set k v d)).
Proof.
  induction d as [|[k' v'] d IH]; simpl; intros Hnd.
  - constructor; [tauto | constructor].
  - inversion Hnd as [|? ? Hk Hnd']; subst.
    destruct (String.eqb_spec k' k) as [->|Hne]; simpl; [constructor; assumption|].
    constructor; [|auto]. intros Hin.
    apply (DefaultsFacts.keys_dict_set k v d k') in Hin.
    destruct Hin as [E|Hin]; [congruence | exact (Hk Hin)].
Qed.

Lemma In_dict_set {V : Type} (k : string) (v : V) (d : dict V) (kv : string * V) :
  In kv (dict_set k v d) -> kv = (k, v) \/ In kv d.
Proof.
  induction d as [|[k' v'] d IH]; simpl.
  - intros [<-|[]]. auto.
  - destruct (String.eqb k' k); simpl; intros [E|H]; auto.
    destruct (IH H); auto.
Qed.

Lemma wf_dict_set (k : string) (v : json) (d : dict json) :
  wf (JDict d) -> wf v -> wf (JDict (dict_set k v d)).
Proof.
  rewrite !wf_dict. intros [Hnd Hvals] Hv. split; [apply NoDup_dict_set; exact Hnd|].
  intros kv Hin. apply In_dict_set in Hin. destruct Hin as [->|Hin]; [exact Hv | auto].
Qed.

Lemma wf_jset (j j' : json) (k : string) (v : json) :
  jset j k v = Ok j' -> wf j -> wf v -> wf j'.
Proof.
  destruct j as [| | | | |d]; try discriminate. cbn [jset]. intros [= <-].
  apply wf_dict_set.
Qed.

Lemma dict_get_In_pair {V : Type} (k : string) (v : V) (d : dict V) :
  dict_get k d = Some v -> In (k, v) d.
Proof.
  induction d as [|[k' v'] d IH]; simpl; [discriminate|].
  destruct (String.eqb_spec k' k) as [->|Hne]; [intros [= ->]; left; reflexivity|].
  intros H. right. auto.
Qed.

Lemma wf_jget (j v : json) (k : string) : jget j k = Ok v -> wf j -> wf v.
Proof.
  destruct j as [| | | | |d]; try discriminate. cbn [jget]. unfold getitem.
  destruct (dict_get k d) as [x|] eqn:E; [|discriminate]. intros [= <-] Hwf.
  apply wf_dict in Hwf. apply (proj2 Hwf (k, x)). apply dict_get_In_pair. exact E.
Qed.

Lemma In_dict_del {V : Type} (k : string) (d : dict V) (kv : string * V) :
  In kv (dict_del k d) -> In kv d.
Proof.
  induction d as [|[k' v'] d IH]; simpl; [tauto|].
  destruct (String.eqb k' k); simpl; [auto|]. intros [E|H]; auto.
Qed.

Lemma NoDup_dict_del {V : Type} (k : string) (d : dict V) :
  NoDup (map fst d) -> NoDup (map fst (dict_del k d)).
Proof.
  induction d as [|[k' v'] d IH]; simpl; intros Hnd; [constructor|].
  inversion Hnd as [|? ? Hk Hnd']; subst.
  destruct (String.eqb k' k); [exact Hnd'|]. simpl. constructor; [|auto].
  intros Hin. apply Hk. apply in_map_iff in Hin. destruct Hin as (x & <- & Hx).
  apply in_map. eapply In_dict_del. exact Hx.
Qed.

Lemma wf_dict_del (k : string) (d : dict json) : wf (JDict d) -> wf (JDict (dict_del k d)).
Proof.
  rewrite !wf_dict. intros [Hnd Hvals]. split; [apply NoDup_dict_del; exact Hnd|].
  intros kv H. apply Hvals. eapply In_dict_del. exact H.
Qed.

Lemma wf_remove_empty (d : dict json) : wf (JDict d) -> wf (JDict (remove_empty d)).
Proof.
  unfold remove_empty.
  assert (H : forall (l acc : dict json), wf (JDict acc) ->
            wf (JDict (fold_left (fun a (kv : string * json) =>
                                    if truthy (snd kv) then a else dict_del (fst kv) a)
                         l acc))).
  { induction l as [|[k v] l IH]; intros acc Hwf; [exact Hwf|].
    cbn [fold_left fst snd]. apply IH.
    destruct (truthy v); [exact Hwf | apply wf_dict_del; exact Hwf]. }
  apply H.
Qed.

(** The ledger has each name and each version once. *)
Definition ledger_ok (cd : ledger) : Prop :=
  NoDup (map fst cd) /\ forall kv, In kv cd -> NoDup (map fst (snd kv)).

Lemma record_removed_ok (cd : ledger) (e : edge) :
  ledger_ok cd -> ledger_ok (record_removed cd e).
Proof.
  destruct e as [[n_name n_ver] removed]. unfold record_removed, ledger_ok.
  intros [Hnd Hin].
  set (cd1 := if dict_has n_name cd then cd else dict_set n_name [] cd).
  assert (H1 : NoDup (map fst cd1) /\ forall kv, In kv cd1 -> NoDup (map fst (snd kv))).
  { unfold cd1. destruct (dict_has n_name cd); [auto|].
    split; [apply NoDup_dict_set; exact Hnd|].
    intros kv H. apply In_dict_set in H. destruct H as [->|H]; [constructor | auto]. }
  destruct H1 as [Hnd1 Hin1].
  set (inner := match dict_get n_name cd1 with Some d => d | None => [] end).
  assert (Hinner : NoDup (map fst inner)).
  { unfold inner. destruct (dict_get n_name cd1) as [x|] eqn:E; [|constructor].
    apply (Hin1 (n_name, x)). apply dict_get_In_pair. exact E. }
  split; [apply NoDup_dict_set; exact Hnd1|].
  intros kv H. apply In_dict_set in H. destruct H as [->|H]; [|auto].
  cbn [snd]. apply NoDup_dict_set.
  destruct (dict_has n_ver inner); [exact Hinner | apply NoDup_dict_set; exact Hinner].
Qed.

Lemma cyclicDependencies_ok (removed_edges : list edge) :
  ledger_ok (cyclicDependencies removed_edges).
Proof.
  unfold cyclicDependencies.
  assert (H : forall l cd, ledger_ok cd -> ledger_ok (fold_left record_removed l cd)).
  { induction l as [|e l IH]; intros cd Hcd; simpl; [exact Hcd|].
    apply IH, record_removed_ok, Hcd. }
  apply H. split; [constructor | intros kv []].
Qed.

Lemma wf_encode_deps (cd : ledger) : ledger_ok cd -> wf (encode_deps cd).
Proof.
  intros [Hnd Hin]. unfold encode_deps. apply wf_dict. split.
  - rewrite map_map. exact Hnd.
  - intros kv Hkv. apply in_map_iff in Hkv. destruct Hkv as ([n inner] & <- & Hx).
    cbn [fst snd]. apply wf_dict. split.
    + rewrite map_map. exact (Hin _ Hx).
    + intros kv' Hkv'. apply in_map_iff in Hkv'. destruct Hkv' as ([ver deps] & <- & Hy).
      cbn [snd]. apply wf_list. intros x Hxin. apply in_map_iff in Hxin.
      destruct Hxin as (nd & <- & _). simpl. auto.
Qed.

Lemma wf_map_values (f : string -> json -> json) (d : dict json) :
  (forall k v, wf v -> wf (f k v)) ->
  wf (JDict d) -> wf (JDict (map (fun kv => (fst kv, f (fst kv) (snd kv))) d)).
Proof.
  intros Hf. rewrite !wf_dict. intros [Hnd Hvals]. split.
  - rewrite map_map. exact Hnd.
  - intros kv Hkv. apply in_map_iff in Hkv. destruct Hkv as (x & <- & Hx).
    cbn [snd]. apply Hf. apply Hvals. exact Hx.
Qed.

Lemma wf_strip_source (source : json) : wf source -> wf (strip_source source).
Proof.
  destruct source as [| | | | |d]; try (intros H; exact H). unfold strip_source.
  apply (wf_map_values (fun k v => if String.eqb k "hash" then JStr "" else v)).
  intros k v Hv. destruct (String.eqb k "hash"); [exact I | exact Hv].
Qed.

Lemma wf_strip_versions (versions : json) : wf versions -> wf (strip_versions versions).
Proof.
  destruct versions as [| | | | |d]; try (intros H; exact H). unfold strip_versions.
  apply (wf_map_values (fun _ v => strip_source v)).
  intros k v. apply wf_strip_source.
Qed.

Lemma wf_strip_sources (sources : json) : wf sources -> wf (strip_sources sources).
Proof.
  destruct sources as [| | | | |d]; try (intros H; exact H). unfold strip_sources.
  apply (wf_map_values (fun _ v => strip_versions v)).
  intros k v. apply wf_strip_versions.
Qed.

Lemma wf_strip_hashes (lock : json) : wf lock -> wf (strip_hashes_from_lock lock).
Proof.
  destruct lock as [| | | | |d]; try (intros H; exact H). unfold strip_hashes_from_lock.
  apply (wf_map_values (fun k v => if String.eqb k "sources" then strip_sources v else v)).
  intros k v Hv. destruct (String.eqb k "sources"); [apply wf_strip_sources|]; exact Hv.
Qed.


Lemma wf_word_value (w : text) (v : json) : word_value w = Some v -> wf v.
Proof.
  unfold word_value.
  destruct (text_eqb w (chars "null")); [intros [= <-]; exact I|].
  destruct (text_eqb w (chars "true")); [intros [= <-]; exact I|].
  destruct (text_eqb w (chars "false")); [intros [= <-]; exact I|].
  destruct (NilZero.int_of_string _); [intros [= <-]; exact I | discriminate].
Qed.

Lemma wf_dict_of_pairs (pairs : list (string * json)) :
  (forall kv, In kv pairs -> wf (snd kv)) -> wf (JDict (dict_of_pairs pairs)).
Proof.
  unfold dict_of_pairs.
  assert (H : forall (l acc : dict json), wf (JDict acc) ->
            (forall kv, In kv l -> wf (snd kv)) ->
            wf (JDict (fold_left (fun d (kv : string * json) =>
                                    dict_set (fst kv) (snd kv) d) l acc))).
  { induction l as [|[k v] l IH]; intros acc Hacc Hl; [exact Hacc|].
    cbn [fold_left fst snd]. apply IH.
    - apply wf_dict_set; [exact Hacc | apply (Hl (k, v)); left; reflexivity].
    - intros kv Hkv. apply Hl. right. exact Hkv. }
  apply H. apply wf_dict. split; [constructor | intros kv []].
Qed.

Ltac split_match H :=
  repeat match type of H with
         | context [match ?x with _ => _ end] =>
             destruct x eqn:?; try discriminate H
         end.

(** What the parser builds has each key once. *)
Lemma parse_wf : forall fuel,
  (forall ts v r, parse_value fuel ts = Some (v, r) -> wf v) /\
  (forall ts l r, parse_elements fuel ts = Some (l, r) -> forall x, In x l -> wf x) /\
  (forall ts l r, parse_members fuel ts = Some (l, r) ->
     forall kv, In kv l -> wf (snd kv)).
Proof.
  induction fuel as [|fuel (IHv & IHe & IHm)]; [repeat split; discriminate|].
  split; [|split].
  - intros ts v r H. cbn [parse_value] in H. split_match H.
    all: injection H as <- <-.
    all: first [ exact I
               | split; [constructor | exact I]
               | eapply wf_word_value; eassumption
               | apply wf_list; eapply IHe; eassumption
               | apply wf_dict_of_pairs; eapply IHm; eassumption ].
  - intros ts l r H. cbn [parse_elements] in H. split_match H.
    all: injection H as <- <-.
    all: intros x [<-|Hx]; first [ eapply IHv; eassumption
                                 | eapply IHe; eassumption
                                 | contradiction ].
  - intros ts l r H. cbn [parse_members] in H. split_match H.
    all: injection H as <- <-.
    all: intros kv [<-|Hx]; first [ cbn [snd]; eapply IHv; eassumption
                                  | eapply IHm; eassumption
                                  | contradiction ].
Qed.

Lemma loads_wf (s : text) (v : json) : loads s = Ok v -> wf v.
Proof.
  unfold loads. destruct (scan s) as [ts|]; [|discriminate].
  destruct (parse_value (S (List.length ts)) ts) as [[v' [|t r]]|] eqn:E; try discriminate.
  intros [= <-]. eapply (proj1 (parse_wf _)). exact E.
Qed.


Lemma wf_stamp (t : translator) (combined : bool) (specified_extra_args : dict argval)
    (lock lock1 : json) :
  stamp t combined specified_extra_args lock = Ok lock1 -> wf lock -> wf lock1.
Proof.
  unfold stamp. intros H Hwf.
  destruct (jget lock "_generic") as [generic| |] eqn:Hg; try discriminate.
  cbn [bind] in H.
  destruct (jset generic "translatedBy" _) as [generic1| |] eqn:H1; try discriminate.
  cbn [bind] in H.
  destruct (jset generic1 "translatorParams" _) as [generic2| |] eqn:H2; try discriminate.
  cbn [bind] in H.
  pose proof (wf_jget _ _ _ Hg Hwf) as Hwg.
  pose proof (wf_jset _ _ _ _ H1 Hwg I) as Hw1.
  pose proof (wf_jset _ _ _ _ H2 Hw1 I) as Hw2.
  exact (wf_jset _ _ _ _ H Hwf Hw2).
Qed.

Lemma wf_mainSource (sourceSpec : dict json) :
  wf (JDict sourceSpec) -> wf (JDict (mainSource sourceSpec)).
Proof.
  destruct sourceSpec as [|kv l]; [|auto]. intros _. cbn.
  split; [constructor; [tauto | constructor] | auto].
Qed.

Lemma wf_add_main_source (sourceSpec : dict json) (lock lock' : json) :
  wf (JDict sourceSpec) ->
  add_main_source sourceSpec lock = Ok lock' -> wf lock -> wf lock'.
Proof.
  intros Hsrc H Hwf. unfold add_main_source in H. fold (mainSource sourceSpec) in H.
  apply wf_mainSource in Hsrc.
  destruct (jget lock "_generic") as [generic| |]; try discriminate. cbn [bind] in H.
  destruct (jget generic "mainPackageName") as [n| |]; try discriminate. cbn [bind] in H.
  destruct (as_str n) as [name| |]; try discriminate. cbn [bind] in H.
  destruct (jget generic "mainPackageVersion") as [v| |]; try discriminate. cbn [bind] in H.
  destruct (as_str v) as [version| |]; try discriminate. cbn [bind] in H.
  destruct (jget lock "sources") as [sources| |] eqn:Hs; try discriminate. cbn [bind] in H.
  pose proof (wf_jget _ _ _ Hs Hwf) as Hws.
  destruct (jhas sources name) as [known| |]; try discriminate. cbn [bind] in H.
  match type of H with (x <- ?e ;; _) = _ => destruct e as [sources1| |] eqn:H1 end;
    try discriminate.
  cbn [bind] in H. apply (wf_jset _ _ _ _ H Hwf).
  destruct known.
  - destruct (jget sources name) as [versions| |] eqn:Hv; try discriminate.
    cbn [bind] in H1.
    destruct (jset versions version _) as [versions1| |] eqn:Hv1; try discriminate.
    cbn [bind] in H1.
    apply (wf_jset _ _ _ _ H1 Hws).
    apply (wf_jset _ _ _ _ Hv1 (wf_jget _ _ _ Hv Hws) Hsrc).
  - apply (wf_jset _ _ _ _ H1 Hws).
    apply wf_dict. split; [constructor; [tauto | constructor]|].
    intros kv [<-|[]]. exact Hsrc.
Qed.

Lemma wf_clean_and_resolve (lock lock' : json) :
  clean_and_resolve lock = Ok lock' -> wf lock -> wf lock'.
Proof.
  intros H Hwf. unfold clean_and_resolve in H.
  destruct (jget lock "_generic") as [generic| |] eqn:Hg; try discriminate.
  cbn [bind] in H. pose proof (wf_jget _ _ _ Hg Hwf) as Hwg.
  destruct (jhas generic "dependencies") as [[|]| |]; try discriminate; cbn [bind] in H.
  2: { injection H as <-. exact Hwf. }
  destruct (jget generic "dependencies") as [depGraph| |] eqn:Hd; try discriminate.
  cbn [bind] in H. pose proof (wf_jget _ _ _ Hd Hwg) as Hwd.
  destruct depGraph as [| | | | |d]; try discriminate.
  destruct (jset generic "dependencies" _) as [generic'| |] eqn:H1; try discriminate.
  cbn [bind] in H.
  destruct (jset lock "_generic" generic') as [lock1| |] eqn:H2; try discriminate.
  cbn [bind] in H.
  destruct (decode_deps _) as [dg| |]; try discriminate. cbn [bind] in H.
  destruct (remove_cycles dg) as [[G removed]| |]; try discriminate. cbn [bind] in H.
  apply (wf_jset _ _ _ _ H).
  - apply (wf_jset _ _ _ _ H2 Hwf).
    apply (wf_jset _ _ _ _ H1 Hwg). apply wf_remove_empty. exact Hwd.
  - apply wf_encode_deps, cyclicDependencies_ok.
Qed.

Lemma wf_set_generic (lock lock' : json) (k : string) (v : json) :
  (generic <- jget lock "_generic" ;;
   generic1 <- jset generic k v ;;
   jset lock "_generic" generic1) = Ok lock' ->
  wf lock -> wf v -> wf lock'.
Proof.
  intros H Hwf Hv.
  destruct (jget lock "_generic") as [generic| |] eqn:Hg; try discriminate.
  cbn [bind] in H.
  destruct (jset generic k v) as [generic1| |] eqn:H1; try discriminate.
  cbn [bind] in H.
  apply (wf_jset _ _ _ _ H Hwf). apply (wf_jset _ _ _ _ H1 (wf_jget _ _ _ Hg Hwf) Hv).
Qed.

Lemma wf_combined_hash (nix_build_stderr : text -> text) (lock lock' : json)
    (file : option text) :
  combined_hash nix_build_stderr lock = (file, Ok lock') -> wf lock -> wf lock'.
Proof.
  unfold combined_hash. intros H Hwf.
  destruct (generic <- jget (strip_hashes_from_lock lock) "_generic" ;;
            generic1 <- jset generic "sourcesCombinedHash" (JStr "") ;;
            jset (strip_hashes_from_lock lock) "_generic" generic1)
    as [lock2| |] eqn:H2; try discriminate.
  destruct (search_fod _) as [hash|]; [|discriminate].
  injection H as _ H3.
  apply (wf_set_generic _ _ _ _ H3); [|exact I].
  apply (wf_set_generic _ _ _ _ H2); [|exact I].
  apply wf_strip_hashes. exact Hwf.
Qed.

Section Run.

Variable nix_build_stderr : text -> text.
Variable checkLockJSON : json -> result unit.

(** X29: whenever lines 256-377 return a lock (the source spec having
    each key once), every dictionary of that lock has each key once, the
    output location holds a text, and [json.loads] reads that text as a
    document of the same structure as the lock, the order of the keys
    apart. *)
Theorem successful_run_file_reads_back (t : translator) (combined : bool)
    (specified_extra_args : dict argval) (sourceSpec : dict json)
    (outputDreamLock file : option text) (final : json) :
  wf (JDict sourceSpec) ->
  reconcile nix_build_stderr checkLockJSON t combined specified_extra_args
    sourceSpec outputDreamLock = (file, Ok final) ->
  wf final /\
  exists written parsed,
    file = Some written /\ loads written = Ok parsed /\ same_doc parsed final.
Proof.
  intros Hsrc H.
  destruct (reconcile_ok _ _ _ _ _ _ _ _ _ H)
    as (produced & lock0 & lock1 & lock2 & lock3 & _ & H0 & H1 & H2 & H3 & H4 & _ & ->).
  assert (Hwf : wf final).
  { pose proof (wf_clean_and_resolve _ _ H3
                  (wf_add_main_source _ _ _ Hsrc H2
                     (wf_stamp _ _ _ _ _ H1 (loads_wf _ _ H0)))) as Hw3.
    destruct combined.
    - destruct H4 as [written H4]. exact (wf_combined_hash _ _ _ _ H4 Hw3).
    - subst final. exact Hw3. }
  split; [exact Hwf|].
  exists (compact (dumps true final)), (norm true final).
  split; [reflexivity|]. split; [|apply same_doc_norm].
  rewrite (loads_compact _ _ (scan_dumps true final)). apply loads_dumps. exact Hwf.
Qed.

End Run.

Lemma successful_run_file_reads_back_witness :
  exists final written parsed,
    reconcile (fun _ => CombinedHash.log_with_marker) (fun _ => Ok tt) StampFacts.nodejs
      true StampFacts.args_ab [] (Some OutputFile.produced) = (Some written, Ok final) /\
    loads written = Ok parsed /\ same_doc parsed final.
Proof.
  destruct (reconcile (fun _ => CombinedHash.log_with_marker) (fun _ => Ok tt)
              StampFacts.nodejs true StampFacts.args_ab [] (Some OutputFile.produced))
    as [file r] eqn:Hrun.
  assert (Hr : exists final, r = Ok final).
  { vm_compute in Hrun. injection Hrun as _ <-. eexists. reflexivity. }
  destruct Hr as [final ->].
  destruct (successful_run_file_reads_back _ _ _ _ _ _ _ _ _
              (conj (NoDup_nil string) I : wf (JDict [])) Hrun)
    as (_ & written & parsed & -> & Hload & Hsame).
  exists final, written, parsed. split; [reflexivity|]. split; assumption.
Defined.

End FinalFile.
